(** * Posterize-Image: a shallow embedding of the posterizer core

    The development follows the two classes of the repository:
    [SVGExporter] (svg-export.js: path simplification and smoothing) and
    [Posterizer] (posterize.js: palette extraction, palette mapping,
    transparency tools, edge cleaning).

    Conventions.
    - A canvas [ImageData] is a record holding its dimensions and a
      reference to a [Uint8ClampedArray]; the arrays live in a heap, so
      that copying ([new Uint8ClampedArray(src)]) and in-place stores are
      distinguished.
    - Integers are [Z] and fractions are [Q].  The value of [Math.sqrt] is
      kept symbolically by its radicand (type [root]) where the source
      compares such values, squares them or divides by them.
    - The seeding of k-means++ subtracts rounded numbers from a rounded
      product until the running value is zero or less; whether a pixel is
      picked there depends on the rounding, so this part is computed on
      the binary64 numbers of JavaScript, the primitive [float].
    - An uncaught exception is the result [Throw]. *)

From Stdlib Require Import ZArith QArith Qround Qabs Lqa Lia String Ascii List.
From Stdlib Require Import PrimFloat SpecFloat FloatOps.
From stdpp Require Import base gmap list.

Open Scope Z_scope.

(** ** Numbers *)

(** The value returned by [Math.sqrt x]. *)
Record root : Type := Sqrt { radicand : Q }.

Definition Math_sqrt (x : Q) : root := Sqrt x.

Definition Qltb (a b : Q) : bool := negb (Qle_bool b a).

(** [a < b] between two square roots. *)
Definition root_ltb (a b : root) : bool := Qltb (radicand a) (radicand b).

(** [a > b] between two square roots. *)
Definition root_gtb (a b : root) : bool := root_ltb b a.

(** [a <= t] for a square root [a] and a plain number [t]. *)
Definition root_leb_num (a : root) (t : Q) : bool :=
  Qle_bool 0 t && Qle_bool (radicand a) (t * t).

(** [a > t] for a square root [a] and a plain number [t]. *)
Definition root_gtb_num (a : root) (t : Q) : bool := negb (root_leb_num a t).

(** [n / d] for a non-negative number [n] and a square root [d]. *)
Definition num_div_root (n : Q) (d : root) : root := Sqrt (n * n / radicand d).

(** [d === 0]. *)
Definition root_is_zero (d : root) : bool := Qeq_bool (radicand d) 0.

(** A running minimum that starts at [Infinity]. *)
Inductive bound : Type :=
| Infinity
| Finite (d : root).

Definition below (d : root) (m : bound) : bool :=
  match m with
  | Infinity => true
  | Finite m' => root_ltb d m'
  end.

(** [Math.round]: the nearest integer, halves going up. *)
Definition Math_round (x : Q) : Z := Qfloor (x + (1 # 2)).

(** The binary64 number of an integer: the integer itself when its absolute
    value is below [2 ^ 53], the nearest double otherwise. *)
Definition double (z : Z) : float := SF2Prim (binary_normalize prec emax z 0 false).

(** The value [m * 2 ^ e] of a double, as [(m, e)]; [None] for [NaN] and
    the infinities. *)
Definition double_parts (x : float) : option (Z * Z) :=
  match Prim2SF x with
  | S754_zero _ => Some (0, 0)
  | S754_finite s m e => Some (if s then Z.neg m else Z.pos m, e)
  | S754_infinity _ | S754_nan => None
  end.

(** [Math.floor] of a double, for use as an index: [None] stands for [NaN]
    and the infinities, which are the index of no element. *)
Definition floor_double (x : float) : option Z :=
  match double_parts x with
  | Some (m, e) => Some (if 0 <=? e then m * 2 ^ e else m / 2 ^ (- e))
  | None => None
  end.

(** [Math.round] of a double: the nearest integer, halves going up; [None]
    stands for [NaN] and the infinities. *)
Definition round_double (x : float) : option Z :=
  match double_parts x with
  | Some (m, e) =>
      Some (if 0 <=? e then m * 2 ^ e else (2 * m + 2 ^ (- e)) / 2 ^ (1 - e))
  | None => None
  end.

(** [a % n] on doubles: the remainder of the division with a truncated
    quotient, which is a double without any rounding. *)
Definition rem_double (a n : float) : float :=
  match double_parts a, double_parts n with
  | Some (ma, ea), Some (mn, en) =>
      if mn =? 0 then PrimFloat.nan
      else if ma =? 0 then a
      else
        let e := Z.min ea en in
        let r := Z.rem (ma * 2 ^ (ea - e)) (mn * 2 ^ (en - e)) in
        SF2Prim (binary_normalize prec emax r e (ma <? 0))
  | Some _, None => if PrimFloat.is_nan n then PrimFloat.nan else a
  | None, _ => PrimFloat.nan
  end.

(** The values taken by the counter of
    [for (let i = lo; i < hi; i += step)], for a positive [step]. *)
Definition zrange (lo hi step : Z) : list Z :=
  map (fun j => lo + step * Z.of_nat j)
      (seq 0 (Z.to_nat ((hi - lo + step - 1) / step))).

(** The character of the digit [d] in base 16, in lower case as
    [toString(16)] prints it. *)
Definition hex_digit (d : Z) : ascii :=
  if d <? 10 then ascii_of_nat (48 + Z.to_nat d) else ascii_of_nat (87 + Z.to_nat d).

(** The digits in base 16 of a natural number [n], in front of [acc];
    [fuel] bounds the number of digits. *)
Fixpoint hex_digits (fuel : nat) (n : Z) (acc : string) : string :=
  match fuel with
  | O => acc
  | S fuel' =>
      let acc' := String (hex_digit (n mod 16)) acc in
      if n / 16 =? 0 then acc' else hex_digits fuel' (n / 16) acc'
  end.

(** [n.toString(16)] for an integer [n]; a number below [2 ^ k] has at most
    [k] digits. *)
Definition toString16 (n : Z) : string :=
  let digits := hex_digits (S (Z.to_nat (Z.log2 (Z.abs n)))) (Z.abs n) EmptyString in
  if n <? 0 then String "-"%char digits else digits.

(** The value of a digit in base 16, in either case; [None] for another
    character. *)
Definition hex_value (c : ascii) : option Z :=
  let n := Z.of_nat (nat_of_ascii c) in
  if (48 <=? n) && (n <=? 57) then Some (n - 48)
  else if (97 <=? n) && (n <=? 102) then Some (n - 87)
  else if (65 <=? n) && (n <=? 70) then Some (n - 55)
  else None.

(** The number read from the digits in base 16 at the start of [s], after
    the digits that gave [acc]. *)
Fixpoint parse_digits (s : string) (acc : option Z) : option Z :=
  match s with
  | EmptyString => acc
  | String c s' =>
      match hex_value c with
      | Some d => parse_digits s' (Some (16 * default 0 acc + d))
      | None => acc
      end
  end.

(** [parseInt(s, 16)] for a text [s] that starts with a digit or with a
    character that [parseInt] does not read ([None] is [NaN]); the white
    space, the sign and the prefix [0x] that [parseInt] also accepts in
    front do not occur in what [hexToRgb] passes. *)
Definition parseInt16 (s : string) : option Z := parse_digits s None.

(** ** Colors *)

(** An RGB triple [[r, g, b]] of integers. *)
Definition Color : Type := (Z * Z * Z)%type.

(** An RGB triple of arbitrary numbers (a centroid). *)
Definition QColor : Type := (Q * Q * Q)%type.

Definition red {A} (c : A * A * A) : A := c.1.1.
Definition green {A} (c : A * A * A) : A := c.1.2.
Definition blue {A} (c : A * A * A) : A := c.2.

Definition toQ (c : Color) : QColor :=
  (inject_Z (red c), inject_Z (green c), inject_Z (blue c)).

Definition channel_ok (v : Z) : Prop := 0 <= v <= 255.

Definition color_ok (c : Color) : Prop :=
  channel_ok (red c) /\ channel_ok (green c) /\ channel_ok (blue c).

(** The color [[r, g, b]] as an array of numbers. *)
Definition channels (c : Color) : list Q :=
  [inject_Z (red c); inject_Z (green c); inject_Z (blue c)].

(** ** Typed arrays and the heap *)

Definition loc : Type := positive.

Abbreviation heap := (gmap positive (list Z)).

Inductive exn : Type :=
| TypeError        (* property access on [undefined] *)
| RangeError       (* invalid array length, call stack exhausted *)
| IndexSizeError   (* [new ImageData] with inconsistent dimensions *)
| UndefinedRead.   (* a typed-array read outside the array: the source goes
                      on with [undefined]; the embedding stops here, and
                      the theorems show that no well-formed [ImageData]
                      reaches it *)

Inductive res (A : Type) : Type :=
| Ok (a : A)
| Throw (e : exn).
Arguments Ok {A} a.
Arguments Throw {A} e.

(** Computations over the heap that may throw. *)
Definition M (A : Type) : Type := heap -> res (A * heap).

Definition ret {A} (a : A) : M A := fun h => Ok (a, h).

Definition bind {A B} (m : M A) (k : A -> M B) : M B :=
  fun h => match m h with
           | Ok (a, h') => k a h'
           | Throw e => Throw e
           end.

Definition throw {A} (e : exn) : M A := fun _ => Throw e.

Notation "'do' x <- m ; k" := (bind m (fun x => k))
  (at level 10, x name, m at level 100, k at level 200).

Fixpoint forEach {A} (xs : list A) (body : A -> M unit) : M unit :=
  match xs with
  | [] => ret tt
  | x :: xs' => do _ <- body x; forEach xs' body
  end.

(** [for (let i = lo; i < hi; i += step) body] *)
Definition for_loop (lo hi step : Z) (body : Z -> M unit) : M unit :=
  forEach (zrange lo hi step) body.

(** A loop that carries an accumulator. *)
Fixpoint foldM {A B} (f : B -> A -> M B) (b : B) (xs : list A) : M B :=
  match xs with
  | [] => ret b
  | x :: xs' => do b' <- f b x; foldM f b' xs'
  end.

(** Computations that use no array and may throw. *)
Definition try_bind {A B} (m : res A) (k : A -> res B) : res B :=
  match m with
  | Ok a => k a
  | Throw e => Throw e
  end.

Notation "'try' x <- m ; k" := (try_bind m (fun x => k))
  (at level 10, x name, m at level 100, k at level 200).

Fixpoint try_map {A B} (f : A -> res B) (xs : list A) : res (list B) :=
  match xs with
  | [] => Ok []
  | x :: xs' => try y <- f x; try ys <- try_map f xs'; Ok (y :: ys)
  end.

Fixpoint try_fold {A B} (f : B -> A -> res B) (b : B) (xs : list A) : res B :=
  match xs with
  | [] => Ok b
  | x :: xs' => try b' <- f b x; try_fold f b' xs'
  end.

(** Lifting of a pure computation into the heap monad. *)
Definition lift {A} (r : res A) : M A :=
  fun h => match r with
           | Ok a => Ok (a, h)
           | Throw e => Throw e
           end.

(** [arr[i]] on the contents of a typed array; [None] is [undefined]. *)
Definition nth_Z (arr : list Z) (i : Z) : option Z :=
  if i <? 0 then None else arr !! Z.to_nat i.

(** Conversion of a stored integer by [Uint8ClampedArray]. *)
Definition clamp (v : Z) : Z := Z.max 0 (Z.min 255 v).

(** [arr[i] = v] on the contents of a [Uint8ClampedArray]: the value is
    clamped, a store outside the array is ignored. *)
Definition store_Z (arr : list Z) (i : Z) (v : Z) : list Z :=
  if i <? 0 then arr else <[Z.to_nat i := clamp v]> arr.

Definition contents (l : loc) : M (list Z) :=
  fun h => match h !! l with
           | Some arr => Ok (arr, h)
           | None => Throw UndefinedRead
           end.

(** [a.length] *)
Definition array_length (l : loc) : M Z :=
  do arr <- contents l; ret (Z.of_nat (length arr)).

(** [a[i]] where the source needs a number. *)
Definition get (l : loc) (i : Z) : M Z :=
  do arr <- contents l;
  match nth_Z arr i with
  | Some v => ret v
  | None => throw UndefinedRead
  end.

(** [a[i] = v] *)
Definition set (l : loc) (i : Z) (v : Z) : M unit :=
  do arr <- contents l;
  fun h => Ok (tt, <[l := store_Z arr i v]> h).

(** [new Uint8ClampedArray(src)]: a fresh array with the contents of [src]. *)
Definition new_Uint8ClampedArray (src : loc) : M loc :=
  do arr <- contents src;
  fun h => let l := fresh (dom h) in Ok (l, <[l := arr]> h).

Record ImageData : Type := mkImageData {
  width : Z;
  height : Z;
  data : loc
}.

(** [new ImageData(array, w, h)]: the constructor rejects dimensions that
    do not match the array. *)
Definition new_ImageData (array : loc) (w h : Z) : M ImageData :=
  do len <- array_length array;
  if (0 <? w) && (0 <? h) && (len =? 4 * w * h)
  then ret (mkImageData w h array)
  else throw IndexSizeError.

(** The buffer of an image: its array is in the heap, has four bytes per
    pixel, and every byte is in [0,255]. *)
Definition image_in (h : heap) (img : ImageData) (arr : list Z) : Prop :=
  h !! data img = Some arr /\
  0 < width img /\ 0 < height img /\
  Z.of_nat (length arr) = 4 * width img * height img /\
  Forall channel_ok arr.

(** The pixel number [p] (row-major) of a buffer: its color and alpha. *)
Definition pixel (arr : list Z) (p : nat) : option (Color * Z) :=
  match arr !! (4 * p)%nat, arr !! (4 * p + 1)%nat,
        arr !! (4 * p + 2)%nat, arr !! (4 * p + 3)%nat with
  | Some r, Some g, Some b, Some a => Some ((r, g, b), a)
  | _, _, _, _ => None
  end.

(** ** SVGExporter (svg-export.js) *)

Module SVGExporter.

(** A point [[x, y]]. *)
Definition point : Type := (Q * Q)%type.

(** [perpendicularDistance(point, lineStart, lineEnd)] *)
Definition perpendicularDistance (pt lineStart lineEnd : point) : root :=
  let dx := (lineEnd.1 - lineStart.1)%Q in
  let dy := (lineEnd.2 - lineStart.2)%Q in
  let numerator :=
    Qabs (dy * pt.1 - dx * pt.2 + lineEnd.1 * lineStart.2 - lineEnd.2 * lineStart.1)%Q in
  let denominator := Math_sqrt (dx * dx + dy * dy)%Q in
  if root_is_zero denominator then Sqrt 0 else num_div_root numerator denominator.

(** The loop of [simplifyPath] that looks for the interior point farthest
    from the chord; it returns [(maxDist, maxIndex)]. *)
Definition farthest (points : list point) (first last : point) : root * nat :=
  foldl (fun '(maxDist, maxIndex) i =>
           match points !! i with
           | Some p =>
               let dist := perpendicularDistance p first last in
               if root_gtb dist maxDist then (dist, i) else (maxDist, maxIndex)
           | None => (maxDist, maxIndex)
           end)
        (Sqrt 0, 0%nat) (seq 1 (length points - 2)).

(** [simplifyPath(points, tolerance)].  The recursion of the source is not
    structural; [fuel] bounds the depth of the calls, and [None] means that
    the bound was reached before the call returned. *)
Fixpoint simplifyPath (fuel : nat) (points : list point) (tolerance : Q)
  : option (list point) :=
  if (length points <=? 2)%nat then Some points else
  match fuel with
  | O => None
  | S fuel' =>
      match head points, last points with
      | Some first, Some last =>
          let '(maxDist, maxIndex) := farthest points first last in
          if root_gtb_num maxDist tolerance then
            match simplifyPath fuel' (take (maxIndex + 1) points) tolerance with
            | None => None
            | Some lft =>
                match simplifyPath fuel' (drop maxIndex points) tolerance with
                | None => None
                | Some rgt => Some (take (length lft - 1) lft ++ rgt)
                end
            end
          else Some [first; last]
      | _, _ => None
      end
  end.

Section Smooth.

(** The conversion of a number to text inside a template literal. *)
Variable show : Q -> string.

Definition sp : string := " "%string.

(** The body of the loop of [smoothPath], for the index [i]. *)
Definition smooth_segment (points : list point) (path : string) (i : nat) : string :=
  match points !! i, points !! (i + 1)%nat with
  | Some current, Some next =>
      let controlX := current.1 in
      let controlY := current.2 in
      let endX := ((current.1 + next.1) / 2)%Q in
      let endY := ((current.2 + next.2) / 2)%Q in
      (path ++ " Q " ++ show controlX ++ sp ++ show controlY ++ ", "
            ++ show endX ++ sp ++ show endY)%string
  | _, _ => path
  end.

(** [smoothPath(points)] *)
Definition smoothPath (points : list point) : string :=
  match points with
  | [] => ""%string
  | [p] => ("M " ++ show p.1 ++ sp ++ show p.2)%string
  | p0 :: _ =>
      let path := ("M " ++ show p0.1 ++ sp ++ show p0.2)%string in
      let path := foldl (smooth_segment points) path (seq 1 (length points - 2)) in
      match last points with
      | Some lst =>
          let path := (path ++ " L " ++ show lst.1 ++ sp ++ show lst.2)%string in
          (path ++ " Z")%string
      | None => path
      end
  end.

End Smooth.

(** [s.startsWith(t)] and [s.endsWith(t)] *)
Fixpoint startsWith (s t : string) {struct t} : bool :=
  match t with
  | EmptyString => true
  | String c t' =>
      match s with
      | EmptyString => false
      | String c' s' => if Ascii.eqb c c' then startsWith s' t' else false
      end
  end.

Fixpoint string_rev (s : string) : string :=
  match s with
  | EmptyString => EmptyString
  | String c s' => (string_rev s' ++ String c EmptyString)%string
  end.

Definition endsWith (s t : string) : bool :=
  startsWith (string_rev s) (string_rev t).

(** [rgbToHex(rgb)] *)
Definition rgbToHex (rgb : list Q) : string :=
  String "#"%char
    (String.concat EmptyString
       (map (fun c => let hex := toString16 (Math_round c) in
                      if (String.length hex =? 1)%nat then String "0"%char hex else hex)
            rgb)).

(** [createMarchingSquaresLookup()]: the table [this.marchingSquaresLookup]
    that the constructor stores, as a function of the key; [None] is the
    [undefined] of a missing key. *)
Definition createMarchingSquaresLookup (cellValue : Z) : option (list point) :=
  match cellValue with
  | 0 => Some []
  | 1 => Some [(0, 1 # 2); (1 # 2, 1)]%Q
  | 2 => Some [(1 # 2, 1); (1, 1 # 2)]%Q
  | 3 => Some [(0, 1 # 2); (1, 1 # 2)]%Q
  | 4 => Some [(1, 1 # 2); (1 # 2, 0)]%Q
  | 5 => Some [(0, 1 # 2); (1 # 2, 0); (1, 1 # 2); (1 # 2, 1)]%Q
  | 6 => Some [(1 # 2, 1); (1 # 2, 0)]%Q
  | 7 => Some [(0, 1 # 2); (1 # 2, 0)]%Q
  | 8 => Some [(1 # 2, 0); (0, 1 # 2)]%Q
  | 9 => Some [(1 # 2, 0); (1 # 2, 1)]%Q
  | 10 => Some [(1 # 2, 0); (1, 1 # 2); (1 # 2, 1); (0, 1 # 2)]%Q
  | 11 => Some [(1 # 2, 0); (1, 1 # 2)]%Q
  | 12 => Some [(1, 1 # 2); (0, 1 # 2)]%Q
  | 13 => Some [(1, 1 # 2); (1 # 2, 1)]%Q
  | 14 => Some [(1 # 2, 1); (0, 1 # 2)]%Q
  | 15 => Some []
  | _ => None
  end.

(** [createColorMask(imageData, targetColor)]: the rows [mask[y]] are
    filled from left to right and added from top to bottom. *)
Definition createColorMask (imageData : ImageData) (targetColor : Color)
  : M (list (list Z)) :=
  let w := width imageData in
  let h := height imageData in
  let src := data imageData in
  foldM (fun mask y =>
      do row <- foldM (fun row x =>
          let i := (y * w + x) * 4 in
          do r <- get src i;
          do g <- get src (i + 1);
          do b <- get src (i + 2);
          do a <- get src (i + 3);
          let matches := (a >? 128)
                         && (Z.abs (r - red targetColor) <? 5)
                         && (Z.abs (g - green targetColor) <? 5)
                         && (Z.abs (b - blue targetColor) <? 5) in
          ret (row ++ [if matches then 1 else 0])) [] (zrange 0 w 1);
      ret (mask ++ [row])) [] (zrange 0 h 1).

(** [getMaskValue(mask, x, y, width, height)].  Within the bounds the value
    is [mask[y][x]]: a missing row makes the access throw; for a missing
    entry the source goes on with [undefined], and the embedding stops. *)
Definition getMaskValue (mask : list (list Z)) (x y width height : Z) : res Z :=
  if (x <? 0) || (x >=? width) || (y <? 0) || (y >=? height) then Ok 0
  else match mask !! Z.to_nat y with
       | None => Throw TypeError
       | Some row =>
           match row !! Z.to_nat x with
           | Some v => Ok v
           | None => Throw UndefinedRead
           end
       end.

(** [getCellValue(mask, x, y, width, height)] *)
Definition getCellValue (mask : list (list Z)) (x y width height : Z) : res Z :=
  try tl <- getMaskValue mask x y width height;
  try tr <- getMaskValue mask (x + 1) y width height;
  try br <- getMaskValue mask (x + 1) (y + 1) width height;
  try bl <- getMaskValue mask x (y + 1) width height;
  Ok (tl * 8 + tr * 4 + br * 2 + bl * 1).

(** The directions [{dx, dy, dir}] that [getNextCell] tries, in order. *)
Definition dirs : list (Z * Z * Z) :=
  [(1, 0, 0); (0, 1, 1); (-1, 0, 2); (0, -1, 3)].

(** The loop of [getNextCell] over the directions [ds] that are left; the
    result is [{x, y, dir}] or [null]. *)
Fixpoint getNextCell_from (ds : list (Z * Z * Z)) (mask : list (list Z))
    (x y prevDir width height : Z) : res (option (Z * Z * Z)) :=
  match ds with
  | [] => Ok None
  | (dx, dy, dir) :: ds' =>
      if dir =? prevDir then getNextCell_from ds' mask x y prevDir width height
      else
        let nx := x + dx in
        let ny := y + dy in
        if (nx >=? 0) && (nx <? width - 1) && (ny >=? 0) && (ny <? height - 1) then
          try v <- getMaskValue mask nx ny width height;
          if v =? 1 then Ok (Some (nx, ny, dir))
          else getNextCell_from ds' mask x y prevDir width height
        else getNextCell_from ds' mask x y prevDir width height
  end.

(** [getNextCell(mask, x, y, prevDir, width, height)] *)
Definition getNextCell (mask : list (list Z)) (x y prevDir width height : Z)
  : res (option (Z * Z * Z)) :=
  getNextCell_from dirs mask x y prevDir width height.

(** [visited[y][x] = true].  A missing row makes the store throw; a store
    past the end of the row lengthens it, the holes reading as false.  A
    store at a negative index adds a property to the row and leaves its
    entries alone: the embedding stops there. *)
Definition mark (visited : list (list bool)) (x y : Z) : res (list (list bool)) :=
  if y <? 0 then Throw TypeError else
  match visited !! Z.to_nat y with
  | None => Throw TypeError
  | Some row =>
      if x <? 0 then Throw UndefinedRead else
      let row' :=
        if (Z.to_nat x <? length row)%nat then <[Z.to_nat x := true]> row
        else row ++ replicate (Z.to_nat x - length row) false ++ [true] in
      Ok (<[Z.to_nat y := row']> visited)
  end.

(** The loop over [edges] in [traceContour]: the points pushed for the
    cell [(x, y)].  An odd number of entries makes the last round read
    [p2[0]] on [undefined]. *)
Fixpoint edge_points (edges : list point) (x y : Q) : res (list point) :=
  match edges with
  | [] => Ok []
  | [_] => Throw TypeError
  | p1 :: p2 :: edges' =>
      try rest <- edge_points edges' x y;
      Ok ((x + p1.1, y + p1.2)%Q :: (x + p2.1, y + p2.2)%Q :: rest)
  end.

(** The [do ... while] loop of [traceContour], entered at the cell
    [(x, y)]; [more] is [maxSteps - steps - 1], the number of times that
    the test [steps < maxSteps] can still succeed.  The result is the
    contour and the array [visited] as the loop leaves it. *)
Fixpoint traceContour_loop (more : nat) (mask : list (list Z))
    (startX startY width height x y prevDir : Z)
    (contour : list point) (visited : list (list bool))
  : res (list point * list (list bool)) :=
  try visited <- mark visited x y;
  try cellValue <- getCellValue mask x y width height;
  match createMarchingSquaresLookup cellValue with
  | None => Throw TypeError
  | Some edges =>
      try pushed <- edge_points edges (inject_Z x) (inject_Z y);
      let contour := contour ++ pushed in
      try next <- getNextCell mask x y prevDir width height;
      match next with
      | None => Ok (contour, visited)
      | Some (nx, ny, dir) =>
          if negb (nx =? startX) || negb (ny =? startY) then
            match more with
            | O => Ok (contour, visited)
            | S more' =>
                traceContour_loop more' mask startX startY width height
                                  nx ny dir contour visited
            end
          else Ok (contour, visited)
      end
  end.

(** [traceContour(mask, startX, startY, width, height, visited)] *)
Definition traceContour (mask : list (list Z)) (startX startY width height : Z)
    (visited : list (list bool)) : res (list point * list (list bool)) :=
  let maxSteps := width * height in
  traceContour_loop (Z.to_nat (maxSteps - 1)) mask startX startY width height
                    startX startY (-1) [] visited.

(** [Array(height).fill(null).map(() => Array(width).fill(false))]:
    [Array(n)] throws for a negative length. *)
Definition newVisited (width height : Z) : res (list (list bool)) :=
  if height <? 0 then Throw RangeError
  else if (0 <? height) && (width <? 0) then Throw RangeError
  else Ok (replicate (Z.to_nat height) (replicate (Z.to_nat width) false)).

(** [a[y][x]] for coordinates that are not negative: a missing row makes
    the access throw, a missing entry is [undefined]. *)
Definition entry {A} (a : list (list A)) (x y : Z) : res (option A) :=
  match a !! Z.to_nat y with
  | None => Throw TypeError
  | Some row => Ok (row !! Z.to_nat x)
  end.

(** The quotation mark. *)
Definition dq : string := String (ascii_of_nat 34) EmptyString.

Section Trace.

Variable show : Q -> string.

(** [tracePaths(mask, width, height, simple)].  The recursion of
    [simplifyPath] is granted a depth of as many calls as the contour has
    points; reaching it is the exhaustion of the call stack. *)
Definition tracePaths (mask : list (list Z)) (width height : Z) (simple : bool)
  : res (list string) :=
  try visited <- newVisited width height;
  try r <- try_fold (fun '(paths, visited) '(y, x) =>
      try seen <- entry visited x y;
      if default false seen then Ok (paths, visited) else
      try m <- entry mask x y;
      if bool_decide (m = Some 1) then
        try traced <- traceContour mask x y width height visited;
        let '(contour, visited) := traced in
        if (2 <? length contour)%nat then
          match simplifyPath (length contour) contour (if simple then 2 else 1 # 2) with
          | None => Throw RangeError
          | Some simplified => Ok (paths ++ [smoothPath show simplified], visited)
          end
        else Ok (paths, visited)
      else Ok (paths, visited))
    ([], visited)
    (y ← zrange 0 (height - 1) 1; x ← zrange 0 (width - 1) 1; [(y, x)]);
  Ok r.1.

(** [exportSVG(imageData, palette, simple)] *)
Definition exportSVG (imageData : ImageData) (palette : list Color) (simple : bool)
  : M string :=
  let w := width imageData in
  let h := height imageData in
  let svg :=
    ("<svg xmlns=" ++ dq ++ "http://www.w3.org/2000/svg" ++ dq
     ++ " viewBox=" ++ dq ++ "0 0 " ++ show (inject_Z w) ++ sp ++ show (inject_Z h) ++ dq
     ++ " width=" ++ dq ++ show (inject_Z w) ++ dq
     ++ " height=" ++ dq ++ show (inject_Z h) ++ dq ++ ">")%string in
  do svg <- foldM (fun svg color =>
      do mask <- createColorMask imageData color;
      do paths <- lift (tracePaths mask w h simple);
      if (0 <? length paths)%nat then
        let hexColor := rgbToHex (channels color) in
        let svg := (svg ++ "<g fill=" ++ dq ++ hexColor ++ dq ++ ">")%string in
        let svg := foldl (fun svg path =>
                            (svg ++ "<path d=" ++ dq ++ path ++ dq ++ " />")%string)
                         svg paths in
        ret (svg ++ "</g>")%string
      else ret svg) svg palette;
  ret (svg ++ "</svg>")%string.

End Trace.

End SVGExporter.

(** ** Posterizer (posterize.js) *)

Module Posterizer.

(** The object state: [this.palette]. *)
Record Posterizer : Type := mkPosterizer { palette : list Color }.

(** [Math.pow(x, 2)] *)
Definition pow2 (x : Q) : Q := x * x.

(** [colorDistance(c1, c2)] *)
Definition colorDistance (c1 c2 : QColor) : root :=
  Math_sqrt (pow2 (red c1 - red c2)
             + pow2 (green c1 - green c2)
             + pow2 (blue c1 - blue c2)).

(** [findNearestColor(pixel, palette)]; [None] is the [undefined] that
    [palette[0]] yields on an empty palette. *)
Definition findNearestColor (pixel : Color) (palette : list Color) : option Color :=
  snd (foldl (fun '(minDist, nearest) color =>
                let dist := colorDistance (toQ pixel) (toQ color) in
                if below dist minDist then (Finite dist, Some color)
                else (minDist, nearest))
             (Infinity, head palette) palette).

(** [nearest[0]] and the like, on a value that may be [undefined]. *)
Definition defined {A} (o : option A) : M A :=
  match o with
  | Some a => ret a
  | None => throw TypeError
  end.

(** [colorDistance] when the second color may be [undefined]: reading
    [c2[0]] of [undefined] throws. *)
Definition distanceTo (pixel : Color) (c : option QColor) : res root :=
  match c with
  | Some c' => Ok (colorDistance (toQ pixel) c')
  | None => Throw TypeError
  end.

(** [Math.pow(x, 2)] on a double. *)
Definition pow2_double (x : float) : float := (x * x)%float.

(** [colorDistance(c1, c2)] as the double that it is, for two pixels. *)
Definition colorDistance_double (c1 c2 : Color) : float :=
  PrimFloat.sqrt (pow2_double (double (red c1) - double (red c2))
                  + pow2_double (double (green c1) - double (green c2))
                  + pow2_double (double (blue c1) - double (blue c2)))%float.

(** The same when the second pixel may be [undefined]. *)
Definition distanceTo_double (pixel : Color) (c : option Color) : res float :=
  match c with
  | Some c' => Ok (colorDistance_double pixel c')
  | None => Throw TypeError
  end.

(** [Math.min(d, ...ds)] on doubles; it is [NaN] as soon as one of them
    is. *)
Definition Math_min (d : float) (ds : list float) : float :=
  foldl (fun m d' =>
           if PrimFloat.is_nan m || PrimFloat.is_nan d' then PrimFloat.nan
           else if (d' <? m)%float then d' else m) d ds.

(** The roulette of [initializeCentroidsKMeansPlusPlus]: the first pixel at
    which the running value drops to zero or below; [None] when the inner
    loop ends without a [push]. *)
Fixpoint roulette (random : float) (pixels : list Color) (distances : list float)
  : option Color :=
  match pixels, distances with
  | px :: pixels', d :: distances' =>
      let random' := (random - d)%float in
      if (random' <=? 0)%float then Some px else roulette random' pixels' distances'
  | _, _ => None
  end.

(** [pixels[i]] for a number [i]. *)
Definition nth_pixel (pixels : list Color) (i : Z) : option Color :=
  if i <? 0 then None else pixels !! Z.to_nat i.

(** [initializeCentroidsKMeansPlusPlus(pixels, k)].  [rnd n] is the value of
    the [n]-th call of [Math.random()]; the function draws once for the
    first centroid and once in every round [i] of its loop.  The centroids
    are [first :: more]; an entry [None] is [undefined]. *)
Definition initializeCentroidsKMeansPlusPlus (rnd : nat -> float)
    (pixels : list Color) (k : Z) : res (list (option QColor)) :=
  let len := double (Z.of_nat (length pixels)) in
  let first := floor_double (rnd 0%nat * len)%float ≫= nth_pixel pixels in
  try more <- try_fold (fun more i =>
      try distances <- try_map (fun px =>
          try d0 <- distanceTo_double px first;
          try ds <- try_map (distanceTo_double px) more;
          let minDist := Math_min d0 ds in
          Ok (minDist * minDist)%float) pixels;
      let totalDist := foldl PrimFloat.add 0%float distances in
      let random := (rnd (Z.to_nat i) * totalDist)%float in
      match roulette random pixels distances with
      | Some px => Ok (more ++ [Some px])
      | None => Ok more
      end) [] (zrange 1 k 1);
  Ok (map (option_map toQ) (first :: more)).

(** The loop of [findNearestCentroid] from index [i] on. *)
Fixpoint nearest_from (pixel : Color) (centroids : list (option QColor))
    (i : nat) (minDist : bound) (nearestIndex : nat) : res nat :=
  match centroids with
  | [] => Ok nearestIndex
  | c :: centroids' =>
      try dist <- distanceTo pixel c;
      if below dist minDist
      then nearest_from pixel centroids' (S i) (Finite dist) i
      else nearest_from pixel centroids' (S i) minDist nearestIndex
  end.

(** [findNearestCentroid(pixel, centroids)] *)
Definition findNearestCentroid (pixel : Color) (centroids : list (option QColor))
  : res nat :=
  nearest_from pixel centroids 0 Infinity 0.

(** [calculateMean(cluster)] *)
Definition calculateMean (cluster : list Color) : QColor :=
  let sum := foldl (fun acc px =>
                      (red acc + inject_Z (red px),
                       green acc + inject_Z (green px),
                       blue acc + inject_Z (blue px))%Q)
                   (0, 0, 0)%Q cluster in
  let n := inject_Z (Z.of_nat (length cluster)) in
  (red sum / n, green sum / n, blue sum / n)%Q.

(** The loop of [centroidsEqual] from index [i] on; [old] is what is left
    of the old centroids. *)
Fixpoint centroidsEqual_from (old newC : list (option QColor)) (i : nat)
  : res bool :=
  match old with
  | [] => Ok true
  | o :: old' =>
      match o, mjoin (newC !! i) with
      | Some c1, Some c2 =>
          if root_gtb_num (colorDistance c1 c2) 1 then Ok false
          else centroidsEqual_from old' newC (S i)
      | _, _ => Throw TypeError
      end
  end.

(** [centroidsEqual(old, newC)] *)
Definition centroidsEqual (old newC : list (option QColor)) : res bool :=
  centroidsEqual_from old newC 0.

(** The remainder [a % n] of JavaScript (the quotient is truncated). *)
Definition Qtrunc (q : Q) : Z := if Qle_bool 0 q then Qfloor q else Qceiling q.

Definition Qrem (a n : Q) : Q := (a - n * inject_Z (Qtrunc (a / n)))%Q.

(** [hslToRgb(h, s, l)] *)
Definition hslToRgb (h s l : Q) : Color :=
  let s := (s / 100)%Q in
  let l := (l / 100)%Q in
  let c := ((1 - Qabs (2 * l - 1)) * s)%Q in
  let x := (c * (1 - Qabs (Qrem (h / 60) 2 - 1)))%Q in
  let m := (l - c / 2)%Q in
  let '(r, g, b) :=
    if Qltb h 60 then (c, x, 0%Q)
    else if Qltb h 120 then (x, c, 0%Q)
    else if Qltb h 180 then (0%Q, c, x)
    else if Qltb h 240 then (0%Q, x, c)
    else if Qltb h 300 then (x, 0%Q, c)
    else (c, 0%Q, x) in
  (Math_round ((r + m) * 255), Math_round ((g + m) * 255), Math_round ((b + m) * 255)).

(** [generateDefaultPalette(k)] *)
Definition generateDefaultPalette (k : Z) : list Color :=
  map (fun i => let hue := (inject_Z i / inject_Z k * 360)%Q in hslToRgb hue 70 50)
      (zrange 0 k 1).

(** [hslToRgb(h, s, l)] as it is computed on doubles; a channel [None] is
    [NaN]. *)
Definition hslToRgb_double (h s l : float) : option Z * option Z * option Z :=
  let s := (s / 100)%float in
  let l := (l / 100)%float in
  let c := ((1 - PrimFloat.abs (2 * l - 1)) * s)%float in
  let x := (c * (1 - PrimFloat.abs (rem_double (h / 60) 2 - 1)))%float in
  let m := (l - c / 2)%float in
  let '(r, g, b) :=
    if (h <? 60)%float then (c, x, 0%float)
    else if (h <? 120)%float then (x, c, 0%float)
    else if (h <? 180)%float then (0%float, c, x)
    else if (h <? 240)%float then (0%float, x, c)
    else if (h <? 300)%float then (x, 0%float, c)
    else (c, 0%float, x) in
  (round_double ((r + m) * 255)%float, round_double ((g + m) * 255)%float,
   round_double ((b + m) * 255)%float).

(** [generateDefaultPalette(k)] as it is computed on doubles. *)
Definition generateDefaultPalette_double (k : Z)
  : list (option Z * option Z * option Z) :=
  map (fun i => let hue := (double i / double k * 360)%float in
                hslToRgb_double hue 70 50)
      (zrange 0 k 1).

(** [Array(k).fill(null).map(() => [])]: [Array(k)] throws for a negative
    length. *)
Definition emptyClusters (k : Z) : res (list (list Color)) :=
  if k <? 0 then Throw RangeError else Ok (replicate (Z.to_nat k) []).

(** One round of the loop of [kMeans]: the new centroids and
    [hasConverged]. *)
Definition kMeans_round (pixels : list Color) (k : Z)
    (centroids : list (option QColor)) : res (list (option QColor) * bool) :=
  try clusters0 <- emptyClusters k;
  try clusters <- try_fold (fun clusters px =>
      try nearestIndex <- findNearestCentroid px centroids;
      match clusters !! nearestIndex with
      | Some cluster => Ok (<[nearestIndex := cluster ++ [px]]> clusters)
      | None => Throw TypeError
      end) clusters0 pixels;
  let newCentroids :=
    imap (fun i cluster =>
            match cluster with
            | [] => mjoin (centroids !! i)
            | _ => Some (calculateMean cluster)
            end) clusters in
  try hasConverged <- centroidsEqual centroids newCentroids;
  Ok (newCentroids, hasConverged).

(** The [while] loop of [kMeans]; [remaining] is
    [maxIterations - iterations]. *)
Fixpoint kMeans_loop (remaining : nat) (pixels : list Color) (k : Z)
    (centroids : list (option QColor)) : res (list (option QColor)) :=
  match remaining with
  | O => Ok centroids
  | S remaining' =>
      try r <- kMeans_round pixels k centroids;
      if r.2 then Ok r.1 else kMeans_loop remaining' pixels k r.1
  end.

(** [c.map(Math.round)] on a centroid that may be [undefined]. *)
Definition roundCentroid (c : option QColor) : res Color :=
  match c with
  | Some c' => Ok (Math_round (red c'), Math_round (green c'), Math_round (blue c'))
  | None => Throw TypeError
  end.

(** [kMeans(pixels, k)] *)
Definition kMeans (rnd : nat -> float) (pixels : list Color) (k : Z) : res (list Color) :=
  if Z.of_nat (length pixels) <? k then Ok (generateDefaultPalette k) else
  try centroids <- initializeCentroidsKMeansPlusPlus rnd pixels k;
  let maxIterations := 50%nat in
  try centroids <- kMeans_loop maxIterations pixels k centroids;
  try_map roundCentroid centroids.

(** [extractColors(imageData, k)]: the palette returned and the object
    after the call. *)
Definition extractColors (rnd : nat -> float) (this : Posterizer)
    (imageData : ImageData) (k : Z) : M (list Color * Posterizer) :=
  do len <- array_length (data imageData);
  let step := Z.max 1 (len / (4 * 10000)) in
  do pixels <- foldM (fun pixels i =>
      do a <- get (data imageData) (i + 3);
      if a <? 128 then ret pixels else
      do r <- get (data imageData) i;
      do g <- get (data imageData) (i + 1);
      do b <- get (data imageData) (i + 2);
      ret (pixels ++ [(r, g, b)])) [] (zrange 0 len (4 * step));
  if (length pixels =? 0)%nat then ret (generateDefaultPalette k, this) else
  do palette <- lift (kMeans rnd pixels k);
  ret (palette, mkPosterizer palette).

(** [posterizeReplace(imageData, palette)] *)
Definition posterizeReplace (imageData : ImageData) (palette : list Color) : M ImageData :=
  do copy <- new_Uint8ClampedArray (data imageData);
  do newData <- new_ImageData copy (width imageData) (height imageData);
  do len <- array_length (data newData);
  do _ <- for_loop 0 len 4 (fun i =>
    do a <- get (data newData) (i + 3);
    if a <? 128 then ret tt else
    do r <- get (data newData) i;
    do g <- get (data newData) (i + 1);
    do b <- get (data newData) (i + 2);
    do nearest <- defined (findNearestColor (r, g, b) palette);
    do _ <- set (data newData) i (red nearest);
    do _ <- set (data newData) (i + 1) (green nearest);
    set (data newData) (i + 2) (blue nearest));
  ret newData.

(** [posterizeClosest(imageData, palette)] *)
Definition posterizeClosest (imageData : ImageData) (palette : list Color) : M ImageData :=
  posterizeReplace imageData palette.

(** [a[i]] where [undefined] is a possible value. *)
Definition get_opt (l : loc) (i : Z) : M (option Z) :=
  do arr <- contents l; ret (nth_Z arr i).

(** [[a, b, c]] used as a color: [None] when a component is [undefined],
    in which case every distance computed from it is [NaN]. *)
Definition rgb_opt (r g b : option Z) : option Color :=
  match r, g, b with
  | Some r', Some g', Some b' => Some (r', g', b')
  | _, _, _ => None
  end.

(** [colorDistance(currentColor, startColor) <= tolerance]; a comparison
    with [NaN] is false. *)
Definition similar (currentColor : Color) (startColor : option Color)
    (tolerance : Q) : bool :=
  match startColor with
  | Some sc => root_leb_num (colorDistance (toQ currentColor) (toQ sc)) tolerance
  | None => false
  end.

(** The [while] loop of [floodFill].  [visited] is the [Set] of keys
    ["cx,cy"], kept as a set of pairs; [queue.shift()] takes the head and
    [queue.push] appends.  [fuel] bounds the number of rounds; the
    result [None] means that the bound was reached with a non-empty
    queue. *)
Fixpoint floodFill_loop (fuel : nat) (imageData : ImageData)
    (startColor : option Color) (tolerance : Q)
    (visited : gset (Z * Z)) (region queue : list (Z * Z))
  : M (option (list (Z * Z))) :=
  match queue with
  | [] => ret (Some region)
  | (cx, cy) :: queue' =>
      match fuel with
      | O => ret None
      | S fuel' =>
          if bool_decide ((cx, cy) ∈ visited) then
            floodFill_loop fuel' imageData startColor tolerance visited region queue'
          else if (cx <? 0) || (cx >=? width imageData)
                  || (cy <? 0) || (cy >=? height imageData) then
            floodFill_loop fuel' imageData startColor tolerance visited region queue'
          else
            let visited' := {[ (cx, cy) ]} ∪ visited in
            let idx := (cy * width imageData + cx) * 4 in
            do r <- get (data imageData) idx;
            do g <- get (data imageData) (idx + 1);
            do b <- get (data imageData) (idx + 2);
            if similar (r, g, b) startColor tolerance then
              floodFill_loop fuel' imageData startColor tolerance visited'
                (region ++ [(cx, cy)])
                (queue' ++ [(cx + 1, cy); (cx - 1, cy); (cx, cy + 1); (cx, cy - 1)])
            else
              floodFill_loop fuel' imageData startColor tolerance visited' region queue'
      end
  end.

(** The number of rounds granted to [floodFill]: every pixel is visited at
    most once and enqueues four neighbours. *)
Definition floodFill_fuel (imageData : ImageData) : nat :=
  (4 * Z.to_nat (width imageData * height imageData) + 1)%nat.

(** [floodFill(imageData, x, y, tolerance)] *)
Definition floodFill (imageData : ImageData) (x y : Z) (tolerance : Q)
  : M (option (list (Z * Z))) :=
  let startIdx := (y * width imageData + x) * 4 in
  do r <- get_opt (data imageData) startIdx;
  do g <- get_opt (data imageData) (startIdx + 1);
  do b <- get_opt (data imageData) (startIdx + 2);
  let startColor := rgb_opt r g b in
  floodFill_loop (floodFill_fuel imageData) imageData startColor tolerance
    ∅ [] [(x, y)].

(** [makeRegionTransparent(imageData, x, y, tolerance)]; [None] when
    [floodFill] did not return. *)
Definition makeRegionTransparent (imageData : ImageData) (x y : Z) (tolerance : Q)
  : M (option ImageData) :=
  do found <- floodFill imageData x y tolerance;
  match found with
  | None => ret None
  | Some region =>
      do copy <- new_Uint8ClampedArray (data imageData);
      do newData <- new_ImageData copy (width imageData) (height imageData);
      do _ <- forEach region (fun '(px, py) =>
        let idx := (py * width imageData + px) * 4 in
        set (data newData) (idx + 3) 0);
      ret (Some newData)
  end.

(** [makeColorTransparent(imageData, targetColor, tolerance)] *)
Definition makeColorTransparent (imageData : ImageData) (targetColor : Color)
    (tolerance : Q) : M ImageData :=
  do copy <- new_Uint8ClampedArray (data imageData);
  do newData <- new_ImageData copy (width imageData) (height imageData);
  do len <- array_length (data newData);
  do _ <- for_loop 0 len 4 (fun i =>
    do r <- get (data newData) i;
    do g <- get (data newData) (i + 1);
    do b <- get (data newData) (i + 2);
    if root_leb_num (colorDistance (toQ (r, g, b)) (toQ targetColor)) tolerance
    then set (data newData) (i + 3) 0
    else ret tt);
  ret newData.

(** [minDist > t] for a running minimum. *)
Definition exceeds (m : bound) (t : Q) : bool :=
  match m with
  | Infinity => true
  | Finite d => root_gtb_num d t
  end.

(** The first loop of the body of [cleanEdges]: the distance from [pixel]
    to the closest palette color. *)
Definition closestDistance (pixel : Color) (palette : list Color) : bound :=
  foldl (fun minDist color =>
           let dist := colorDistance (toQ pixel) (toQ color) in
           if below dist minDist then Finite dist else minDist)
        Infinity palette.

(** [neighborColors[colorKey] = (neighborColors[colorKey] || 0) + 1].  The
    object is kept as the list of its entries in insertion order, which is
    the order of [Object.entries] for keys such as ["12,0,255"]; the key
    is kept as the color it was joined from and is split into. *)
Fixpoint bump (colorKey : Color) (neighborColors : list (Color * Z))
  : list (Color * Z) :=
  match neighborColors with
  | [] => [(colorKey, 1)]
  | (key, count) :: rest =>
      if decide (key = colorKey) then (key, count + 1) :: rest
      else (key, count) :: bump colorKey rest
  end.

(** The offsets [(dy, dx)] visited by the two inner loops of [cleanEdges],
    the pixel itself being skipped. *)
Definition neighborOffsets : list (Z * Z) :=
  filter (fun d => ¬ (d.2 = 0 ∧ d.1 = 0))
         (dy ← zrange (-1) 2 1; dx ← zrange (-1) 2 1; [(dy, dx)]).

(** The last loop of the body of [cleanEdges]: the entry with the largest
    count, the first one winning a tie. *)
Definition mostCommon (palette : list Color) (neighborColors : list (Color * Z))
  : option Color :=
  snd (foldl (fun '(maxCount, bestColor) '(colorKey, count) =>
                if count >? maxCount then (count, Some colorKey)
                else (maxCount, bestColor))
             (0, head palette) neighborColors).

(** [cleanEdges(imageData, palette)]; the reads go to [imageData.data],
    the stores to [newData.data]. *)
Definition cleanEdges (imageData : ImageData) (palette : list Color) : M ImageData :=
  let w := width imageData in
  let h := height imageData in
  let src := data imageData in
  do copy <- new_Uint8ClampedArray src;
  do newData <- new_ImageData copy w h;
  do _ <- for_loop 1 (h - 1) 1 (fun y =>
    for_loop 1 (w - 1) 1 (fun x =>
      let idx := (y * w + x) * 4 in
      do r <- get src idx;
      do g <- get src (idx + 1);
      do b <- get src (idx + 2);
      let minDist := closestDistance (r, g, b) palette in
      if exceeds minDist 5 then
        do neighborColors <- foldM (fun neighborColors '(dy, dx) =>
            let nIdx := ((y + dy) * w + (x + dx)) * 4 in
            do nr <- get src nIdx;
            do ng <- get src (nIdx + 1);
            do nb <- get src (nIdx + 2);
            do closestColor <- defined (findNearestColor (nr, ng, nb) palette);
            ret (bump closestColor neighborColors)) [] neighborOffsets;
        do bestColor <- defined (mostCommon palette neighborColors);
        do _ <- set (data newData) idx (red bestColor);
        do _ <- set (data newData) (idx + 1) (green bestColor);
        set (data newData) (idx + 2) (blue bestColor)
      else ret tt));
  ret newData.

(** [rgbToHex(rgb)] *)
Definition rgbToHex (rgb : list Q) : string :=
  String "#"%char
    (String.concat EmptyString
       (map (fun c => let hex := toString16 (Math_round c) in
                      if (String.length hex =? 1)%nat then String "0"%char hex else hex)
            rgb)).

(** A character that [[a-f\d]] matches under the flag [i]. *)
Definition is_hex (c : ascii) : bool := bool_decide (is_Some (hex_value c)).

(** [/^#?([a-f\d]{2})([a-f\d]{2})([a-f\d]{2})$/i.exec(hex)]: the three
    groups, or [None] for [null]. *)
Definition exec_hex (hex : string) : option (string * string * string) :=
  let digits :=
    match hex with
    | String "#"%char rest => rest
    | _ => hex
    end in
  match digits with
  | String c1 (String c2 (String c3 (String c4 (String c5 (String c6 EmptyString))))) =>
      if forallb is_hex [c1; c2; c3; c4; c5; c6]
      then Some (String c1 (String c2 EmptyString),
                 String c3 (String c4 EmptyString),
                 String c5 (String c6 EmptyString))
      else None
  | _ => None
  end.

(** [hexToRgb(hex)]; an entry [None] of the result is [NaN]. *)
Definition hexToRgb (hex : string) : option Z * option Z * option Z :=
  match exec_hex hex with
  | Some (g1, g2, g3) => (parseInt16 g1, parseInt16 g2, parseInt16 g3)
  | None => (Some 0, Some 0, Some 0)
  end.

(** The offsets [(dy, dx)] visited by the two inner loops of
    [applySmoothFilter]. *)
Definition boxOffsets : list (Z * Z) :=
  dy ← zrange (-1) 2 1; dx ← zrange (-1) 2 1; [(dy, dx)].

(** [applySmoothFilter(imageData)]; the reads go to [imageData.data], the
    stores to [newData.data]. *)
Definition applySmoothFilter (imageData : ImageData) : M ImageData :=
  let w := width imageData in
  let h := height imageData in
  let src := data imageData in
  do copy <- new_Uint8ClampedArray src;
  do newData <- new_ImageData copy w h;
  do _ <- for_loop 1 (h - 1) 1 (fun y =>
    for_loop 1 (w - 1) 1 (fun x =>
      do sums <- foldM (fun '(r, g, b, count) '(dy, dx) =>
          let idx := ((y + dy) * w + (x + dx)) * 4 in
          do vr <- get src idx;
          do vg <- get src (idx + 1);
          do vb <- get src (idx + 2);
          ret (r + vr, g + vg, b + vb, count + 1)) (0, 0, 0, 0) boxOffsets;
      let '(r, g, b, count) := sums in
      let outIdx := (y * w + x) * 4 in
      do _ <- set (data newData) outIdx (Math_round (inject_Z r / inject_Z count));
      do _ <- set (data newData) (outIdx + 1) (Math_round (inject_Z g / inject_Z count));
      do _ <- set (data newData) (outIdx + 2) (Math_round (inject_Z b / inject_Z count));
      do a <- get src (outIdx + 3);
      set (data newData) (outIdx + 3) a));
  ret newData.

End Posterizer.

(** ** Vocabulary of the statements *)

(** The square of the Euclidean distance between two integer colors. *)
Definition sqdist (c1 c2 : Color) : Z :=
  (red c1 - red c2) ^ 2 + (green c1 - green c2) ^ 2 + (blue c1 - blue c2) ^ 2.

(** [c] is the palette color nearest to [px], the first one in the order of
    the palette among those at the least distance. *)
Definition first_nearest (px : Color) (palette : list Color) (c : Color) : Prop :=
  exists j : nat,
    palette !! j = Some c /\
    (forall j' c', palette !! j' = Some c' -> sqdist px c <= sqdist px c') /\
    (forall j' c', (j' < j)%nat -> palette !! j' = Some c' -> sqdist px c < sqdist px c').

(** The Euclidean distance between [c] and [target] is at most [tol]. *)
Definition within (c target : Color) (tol : Q) : Prop :=
  (0 <= tol)%Q /\ (inject_Z (sqdist c target) <= tol * tol)%Q.

(** The color [px] is farther than 5 from every color of the palette. *)
Definition far_from (px : Color) (palette : list Color) : Prop :=
  forall c, c ∈ palette -> 25 < sqdist px c.

(** The index of the pixel [(x, y)] of an image of width [w]. *)
Definition pixel_index (w x y : Z) : nat := Z.to_nat (y * w + x).

(** The cell [c = (x, y)] lies within the image. *)
Definition in_bounds (img : ImageData) (c : Z * Z) : Prop :=
  0 <= c.1 < width img /\ 0 <= c.2 < height img.

(** The pixel [(x, y)] is not on the border of the image. *)
Definition interior (img : ImageData) (x y : Z) : Prop :=
  1 <= x < width img - 1 /\ 1 <= y < height img - 1.

(** A pixel whose four bytes lie in [[0, 255]]. *)
Definition pixel_ok (px : Color * Z) : Prop := color_ok px.1 /\ channel_ok px.2.

(** Every pixel of [out] has the alpha of the same pixel of [arr], or 0. *)
Definition alpha_kept_or_erased (arr out : list Z) : Prop :=
  length out = length arr /\
  forall p c a, pixel arr p = Some (c, a) ->
    exists c' a', pixel out p = Some (c', a') /\ (a' = a \/ a' = 0) /\ a' <= a.

(** What a transparency tool owes to its input [img], of contents [arr] in
    the heap [h]: a new image [newData] with the same dimensions, whose
    array [out] is not the array of [img]; every array of [h], that of
    [img] included, is as it was; every pixel has the color it had. *)
Definition only_alpha_changed (h : heap) (img : ImageData) (arr : list Z)
    (newData : ImageData) (h' : heap) (out : list Z) : Prop :=
  width newData = width img /\ height newData = height img /\
  image_in h' newData out /\
  data newData <> data img /\
  h' !! data img = Some arr /\
  (forall l, l <> data newData -> h' !! l = h !! l) /\
  forall p c a, pixel arr p = Some (c, a) ->
    exists a', pixel out p = Some (c, a') /\ (a' = a \/ a' = 0).

(** The offsets [(dy, dx)] of the eight neighbours of a pixel, in the order
    in which the two inner loops of [cleanEdges] visit them. *)
Definition neighbours : list (Z * Z) :=
  [(-1, -1); (-1, 0); (-1, 1); (0, -1); (0, 1); (1, -1); (1, 0); (1, 1)].

(** [c] is the palette color nearest to the neighbour at offset
    [off = (dy, dx)] of the pixel [(x, y)]. *)
Definition neighbor_rel (palette : list Color) (arr : list Z) (w x y : Z)
    (off : Z * Z) (c : Color) : Prop :=
  exists nc na,
    pixel arr (pixel_index w (x + off.2) (y + off.1)) = Some (nc, na) /\
    first_nearest nc palette c.

(** The colors of [ns] in the order in which they are first met. *)
Definition first_met (ns : list Color) : list Color :=
  foldl (fun acc c => if decide (c ∈ acc) then acc else acc ++ [c]) [] ns.

(** The number of occurrences of [c] in [ns]. *)
Definition occurrences (c : Color) (ns : list Color) : Z :=
  Z.of_nat (length (filter (fun c' => c' = c) ns)).

(** [best] is the most frequent color of [ns]; among the colors with the
    largest number of occurrences it is the one met first. *)
Definition plurality (ns : list Color) (best : Color) : Prop :=
  exists j : nat,
    first_met ns !! j = Some best /\
    (forall j' c', first_met ns !! j' = Some c' ->
                   occurrences c' ns <= occurrences best ns) /\
    (forall j' c', (j' < j)%nat -> first_met ns !! j' = Some c' ->
                   occurrences c' ns < occurrences best ns).

(** The pixels that [extractColors] samples: those at the byte offsets 0,
    [4 * step], [8 * step], ... whose alpha is at least 128. *)
Definition sampled (arr : list Z) : list Color :=
  let len := Z.of_nat (length arr) in
  let step := Z.max 1 (len / (4 * 10000)) in
  omap (fun i => match pixel arr (Z.to_nat (i / 4)) with
                 | Some (c, a) => if a <? 128 then None else Some c
                 | None => None
                 end)
       (zrange 0 len (4 * step)).

(** [q mod 2] for a number that is not negative. *)
Definition Qmod2 (q : Q) : Q := (q - 2 * inject_Z (Qfloor (q / 2)))%Q.

(** The usual conversion of a hue [H] in [[0, 360)], a saturation [S] and a
    lightness [L] in [[0, 1]] to red, green and blue in [[0, 1]]. *)
Definition hsl_standard (H S L : Q) : QColor :=
  let C := ((1 - Qabs (2 * L - 1)) * S)%Q in
  let H' := (H / 60)%Q in
  let X := (C * (1 - Qabs (Qmod2 H' - 1)))%Q in
  let m := (L - C / 2)%Q in
  let '(R1, G1, B1) :=
    match Qfloor H' with
    | 0 => (C, X, 0%Q)
    | 1 => (X, C, 0%Q)
    | 2 => (0%Q, C, X)
    | 3 => (0%Q, X, C)
    | 4 => (X, 0%Q, C)
    | _ => (C, 0%Q, X)
    end in
  (R1 + m, G1 + m, B1 + m)%Q.

(** The nearest integer to [255 * v]. *)
Definition round_channel (v : Q) : Z := Qfloor (255 * v + (1 # 2)).

(** The color of hue [hue], saturation 70% and lightness 50%. *)
Definition fallback_color (hue : Q) : Color :=
  let c := hsl_standard hue (70 / 100) (50 / 100) in
  (round_channel (red c), round_channel (green c), round_channel (blue c)).

(** [k] colors whose hues [i * 360 / k], for [i] from 0 to [k - 1], are
    evenly spaced around the hue wheel. *)
Definition fallback_palette (k : Z) : list Color :=
  map (fun i : nat => fallback_color (inject_Z (Z.of_nat i) * 360 / inject_Z k))
      (seq 0 (Z.to_nat k)).

(** The three channels of a color, as numbers none of which is [NaN]. *)
Definition numbers (c : Color) : option Z * option Z * option Z :=
  (Some (red c), Some (green c), Some (blue c)).

(** ** The loops read as functions on buffers *)

(** The buffer [arr] with the pixel [p] replaced. *)
Definition set_pixel (arr : list Z) (p : nat) (px : Color * Z) : list Z :=
  <[(4 * p + 3)%nat := px.2]>
    (<[(4 * p + 2)%nat := blue px.1]>
       (<[(4 * p + 1)%nat := green px.1]>
          (<[(4 * p)%nat := red px.1]> arr))).

(** What one round of the loop of [posterizeReplace] does to a pixel. *)
Definition posterize_pixel (palette : list Color) (px : Color * Z) : Color * Z :=
  if px.2 <? 128 then px
  else match Posterizer.findNearestColor px.1 palette with
       | Some nearest => (nearest, px.2)
       | None => px
       end.

(** What one round of the loop of [makeColorTransparent] does to a pixel. *)
Definition erase_pixel (targetColor : Color) (tolerance : Q) (px : Color * Z)
  : Color * Z :=
  if root_leb_num (Posterizer.colorDistance (toQ px.1) (toQ targetColor)) tolerance
  then (px.1, 0) else px.

(** What the loop of [makeRegionTransparent] does to the pixel of index
    [p]. *)
Definition erase_region (w : Z) (region : list (Z * Z)) (p : nat) (px : Color * Z)
  : Color * Z :=
  (px.1, if bool_decide (p ∈ (fun c => pixel_index w c.1 c.2) <$> region)
         then 0 else px.2).

(** All the pixels of an image, by index. *)
Definition grid (w ht : Z) : list (Z * Z) :=
  map (fun i => (Z.of_nat i mod w, Z.of_nat i / w)) (seq 0 (Z.to_nat (w * ht))).

(** The pixels of [cells] that the fill has not visited yet. *)
Definition unvisited (visited : gset (Z * Z)) (cells : list (Z * Z)) : list (Z * Z) :=
  filter (fun c => c ∉ visited) cells.

(** The cells [(y, x)] visited by the two outer loops of [cleanEdges]. *)
Definition interior_cells (w ht : Z) : list (Z * Z) :=
  y ← zrange 1 (ht - 1) 1; (fun x => (y, x)) <$> zrange 1 (w - 1) 1.

(** The palette color nearest to the neighbour at offset [off = (dy, dx)]
    of the pixel [(x, y)]. *)
Definition neighbor_color (palette : list Color) (arr : list Z) (w x y : Z)
    (off : Z * Z) : Color :=
  match pixel arr (pixel_index w (x + off.2) (y + off.1)) with
  | Some (c, _) => default c (Posterizer.findNearestColor c palette)
  | None => (0, 0, 0)
  end.

(** The object [neighborColors] after the keys [ns] were counted. *)
Definition tally (ns : list Color) : list (Color * Z) :=
  foldl (fun acc c => Posterizer.bump c acc) [] ns.

(** What the body of the loops of [cleanEdges] does to the pixel of index
    [p]. *)
Definition clean_pixel (palette : list Color) (arr : list Z) (w : Z) (p : nat)
    (px : Color * Z) : Color * Z :=
  let x := Z.of_nat p mod w in
  let y := Z.of_nat p / w in
  if Posterizer.exceeds (Posterizer.closestDistance px.1 palette) 5 then
    (default px.1
       (Posterizer.mostCommon palette
          (tally (neighbor_color palette arr w x y <$> Posterizer.neighborOffsets))),
     px.2)
  else px.

(** A channel of a centroid lies in [[0, 255]]. *)
Definition qchannel_ok (q : Q) : Prop := (0 <= q <= 255)%Q.

(** The three channels of a centroid lie in [[0, 255]]. *)
Definition qcolor_ok (c : QColor) : Prop :=
  qchannel_ok (red c) /\ qchannel_ok (green c) /\ qchannel_ok (blue c).

(** Every centroid is one of the pixels. *)
Definition seeded (pixels : list Color) (cs : list (option QColor)) : Prop :=
  Forall (fun c => exists px, px ∈ pixels /\ c = Some (toQ px)) cs.

(** There are [k] centroids, none is [undefined], and the channels of each
    lie in [[0, 255]]. *)
Definition centroids_ok (k : Z) (cs : list (option QColor)) : Prop :=
  Z.of_nat (length cs) = k /\
  Forall (fun c => exists q, c = Some q /\ qcolor_ok q) cs.

(** Every draw of the seeding picked a pixel: it returns [k] centroids, none
    of which is [undefined]. *)
Definition drawn (rnd : nat -> float) (pixels : list Color) (k : Z) : Prop :=
  exists cs,
    Posterizer.initializeCentroidsKMeansPlusPlus rnd pixels k = Ok cs /\
    Z.of_nat (length cs) = k /\ Forall is_Some cs.

(** ** Vocabulary of the further statements *)

(** The four cells next to [c], in the order in which [floodFill] queues
    them. *)
Definition fourNeighbours (c : Z * Z) : list (Z * Z) :=
  [(c.1 + 1, c.2); (c.1 - 1, c.2); (c.1, c.2 + 1); (c.1, c.2 - 1)].

(** The color of the cell [c = (x, y)] of an image of width [w]. *)
Definition cell_color (arr : list Z) (w : Z) (c : Z * Z) : option Color :=
  fst <$> pixel arr (pixel_index w c.1 c.2).

(** The cells that a walk from [start] reaches by steps to one of the four
    neighbours, through cells of the image whose color is within [tol] of
    [target]. *)
Inductive connected (img : ImageData) (arr : list Z) (target : Color) (tol : Q)
    (start : Z * Z) : Z * Z -> Prop :=
| connected_start (col : Color) :
    in_bounds img start ->
    cell_color arr (width img) start = Some col -> within col target tol ->
    connected img arr target tol start start
| connected_step (c n : Z * Z) (col : Color) :
    connected img arr target tol start c ->
    n ∈ fourNeighbours c -> in_bounds img n ->
    cell_color arr (width img) n = Some col -> within col target tol ->
    connected img arr target tol start n.

(** The test of [floodFill] on the cell [c]: its color is similar to
    [startColor]. *)
Definition alike (arr : list Z) (w : Z) (startColor : option Color) (tol : Q)
    (c : Z * Z) : bool :=
  match cell_color arr w c with
  | Some col => Posterizer.similar col startColor tol
  | None => false
  end.

(** What the loop of [floodFill] keeps true of [visited], [region] and
    [queue]: the region has no cell twice; its cells were visited and are
    connected to [start]; a visited cell lies within the image and is in
    the region when its color passes the test; the neighbours of a cell of
    the region are visited, or queued, or outside the image; a queued cell
    is [start] or the neighbour of a cell of the region; [start] is visited
    or queued; the region begins with [start]. *)
Definition fill_invariant (img : ImageData) (arr : list Z) (target : Color)
    (tol : Q) (start : Z * Z)
    (v : gset (Z * Z)) (r q : list (Z * Z)) : Prop :=
  NoDup r /\
  (forall c, c ∈ r -> c ∈ v /\ connected img arr target tol start c) /\
  (forall c, c ∈ v ->
     in_bounds img c /\ (alike arr (width img) (Some target) tol c = true -> c ∈ r)) /\
  (forall c n, c ∈ r -> n ∈ fourNeighbours c ->
     n ∈ v \/ n ∈ q \/ ~ in_bounds img n) /\
  (forall n, n ∈ q -> n = start \/ exists c, c ∈ r /\ n ∈ fourNeighbours c) /\
  (start ∈ v \/ start ∈ q) /\
  (r = [] \/ head r = Some start).

(** A digit in base 16 put in lower case; another character is left as it
    is. *)
Definition lower_hex (c : ascii) : ascii :=
  match hex_value c with
  | Some d => hex_digit d
  | None => c
  end.

(** The characters of a text. *)
Fixpoint characters (s : string) : list ascii :=
  match s with
  | EmptyString => []
  | String c s' => c :: characters s'
  end.

(** The text made of the characters [cs]. *)
Fixpoint text (cs : list ascii) : string :=
  match cs with
  | [] => EmptyString
  | c :: cs' => String c (text cs')
  end.

(** The color of the pixel at the offset [off = (dy, dx)] from the pixel
    [(x, y)]. *)
Definition box_color (arr : list Z) (w x y : Z) (off : Z * Z) : Color :=
  match pixel arr (pixel_index w (x + off.2) (y + off.1)) with
  | Some (c, _) => c
  | None => (0, 0, 0)
  end.

(** The sums [r], [g], [b] and the counter [count] of [applySmoothFilter]
    after the colors [cs] were added. *)
Definition add_colors (acc : Z * Z * Z * Z) (cs : list Color) : Z * Z * Z * Z :=
  foldl (fun '(r, g, b, count) c => (r + red c, g + green c, b + blue c, count + 1))
        acc cs.

(** What the body of the loops of [applySmoothFilter] does to the pixel of
    index [p]. *)
Definition smooth_pixel (arr : list Z) (w : Z) (p : nat) (px : Color * Z)
  : Color * Z :=
  let x := Z.of_nat p mod w in
  let y := Z.of_nat p / w in
  let '(r, g, b, count) :=
    add_colors (0, 0, 0, 0) (box_color arr w x y <$> Posterizer.boxOffsets) in
  ((Math_round (inject_Z r / inject_Z count),
    Math_round (inject_Z g / inject_Z count),
    Math_round (inject_Z b / inject_Z count)), px.2).

(** The sum of the channel [ch] over the block of 3 x 3 pixels around the
    pixel [(x, y)]. *)
Definition block_total (arr : list Z) (w x y : Z) (ch : Color -> Z) : Z :=
  foldr Z.add 0
    ((fun off : Z * Z => ch (box_color arr w x y off))
       <$> [(-1, -1); (-1, 0); (-1, 1); (0, -1); (0, 0); (0, 1); (1, -1); (1, 0); (1, 1)]).

(** The mean of the channel [ch] over the block of 3 x 3 pixels around the
    pixel [(x, y)], rounded to the nearest integer. *)
Definition block_mean (arr : list Z) (w x y : Z) (ch : Color -> Z) : Z :=
  Math_round (inject_Z (block_total arr w x y ch) / 9).

(** A mask of [height] rows of [width] entries, each 0 or 1. *)
Definition mask_ok (width height : Z) (mask : list (list Z)) : Prop :=
  length mask = Z.to_nat height /\
  Forall (fun row => length row = Z.to_nat width /\
                     Forall (fun v => v = 0 \/ v = 1) row) mask.

(** An array [visited] of [height] rows of [width] entries. *)
Definition visited_ok (width height : Z) (visited : list (list bool)) : Prop :=
  length visited = Z.to_nat height /\
  Forall (fun row => length row = Z.to_nat width) visited.

(** The test of [createColorMask] on a pixel. *)
Definition matches (targetColor : Color) (px : Color * Z) : bool :=
  (px.2 >? 128)
  && (Z.abs (red px.1 - red targetColor) <? 5)
  && (Z.abs (green px.1 - green targetColor) <? 5)
  && (Z.abs (blue px.1 - blue targetColor) <? 5).

(** The entry of the mask for the pixel [(x, y)]. *)
Definition mask_entry (arr : list Z) (w : Z) (targetColor : Color) (y x : Z) : Z :=
  match pixel arr (pixel_index w x y) with
  | Some px => if matches targetColor px then 1 else 0
  | None => 0
  end.

(** The point [p] lies in the rectangle of corners [(0, 0)] and
    [(width - 1, height - 1)]. *)
Definition in_rectangle (width height : Z) (p : SVGExporter.point) : Prop :=
  (0 <= p.1 <= inject_Z (width - 1))%Q /\ (0 <= p.2 <= inject_Z (height - 1))%Q.

(** The path [s] starts with the command [M] and ends with the command
    [Z]. *)
Definition closed_path (s : string) : Prop :=
  SVGExporter.startsWith s "M" = true /\ SVGExporter.endsWith s "Z" = true.

(** Each channel of the color [c] lies between that of [lo] and that of
    [hi]. *)
Definition in_box (lo hi c : Color) : Prop :=
  red lo <= red c <= red hi /\ green lo <= green c <= green hi /\
  blue lo <= blue c <= blue hi.

(** The same for a centroid. *)
Definition qin_box (lo hi : Color) (q : QColor) : Prop :=
  (inject_Z (red lo) <= red q <= inject_Z (red hi))%Q /\
  (inject_Z (green lo) <= green q <= inject_Z (green hi))%Q /\
  (inject_Z (blue lo) <= blue q <= inject_Z (blue hi))%Q.

(** ** The text of a number *)

(** The character of a decimal digit. *)
Definition digit (d : Z) : string :=
  String (ascii_of_nat (48 + Z.to_nat d)) EmptyString.

(** The decimal digits of a natural number. *)
Fixpoint show_nat (fuel : nat) (n : Z) (acc : string) : string :=
  match fuel with
  | O => acc
  | S fuel' =>
      let acc' := (digit (n mod 10) ++ acc)%string in
      if n / 10 =? 0 then acc' else show_nat fuel' (n / 10) acc'
  end.

(** The decimals of the fraction [r / d], at most [fuel] of them. *)
Fixpoint show_fraction (fuel : nat) (r d : Z) : string :=
  match fuel with
  | O => ""%string
  | S fuel' =>
      if r =? 0 then ""%string
      else (digit (10 * r / d) ++ show_fraction fuel' (10 * r mod d) d)%string
  end.

(** The text of a number with a short decimal expansion (an integer, a
    half, a quarter), as a template literal prints it. *)
Definition show_number (q : Q) : string :=
  let n := Z.abs (Qnum q) in
  let d := Zpos (Qden q) in
  let sign := if Qnum q <? 0 then "-"%string else ""%string in
  let whole := show_nat 20 (n / d) ""%string in
  let decimals :=
    if n mod d =? 0 then ""%string
    else ("." ++ show_fraction 20 (n mod d) d)%string in
  (sign ++ whole ++ decimals)%string.

(** ** Sample inputs *)

(** A 2 x 2 image; its second pixel is transparent. *)
Definition ex_arr : list Z :=
  [10; 10; 10; 255;  200; 0; 0; 100;  250; 250; 250; 128;  0; 0; 0; 255].

Definition ex_heap : heap := <[1%positive := ex_arr]> ∅.

Definition ex_img : ImageData := mkImageData 2 2 1%positive.

(** A palette of black, white and red. *)
Definition ex_palette : list Color := [(0, 0, 0); (255, 255, 255); (255, 0, 0)].

(** A 3 x 3 image; the corner and the middle are far from the palette. *)
Definition ex3_arr : list Z :=
  [10; 10; 10; 255;   200; 0; 0; 255;      250; 250; 250; 255;
   0; 0; 0; 255;      100; 100; 100; 255;  0; 0; 0; 255;
   0; 0; 0; 255;      255; 0; 0; 255;      255; 0; 0; 255].

Definition ex3_heap : heap := <[1%positive := ex3_arr]> ∅.

Definition ex3_img : ImageData := mkImageData 3 3 1%positive.

(** A contour of five points. *)
Definition ex_path : list SVGExporter.point :=
  [(0, 0); (1, 1); (2, 0); (3, 0); (4, 0)]%Q.

(** Three points on a line. *)
Definition ex_collinear : list SVGExporter.point := [(0, 0); (1, 0); (2, 0)]%Q.

(** A source of random numbers that always returns one half. *)
Definition ex_rnd : nat -> float := fun _ => 0.5%float.

(** A source that always returns the greatest double below 1, which is
    [1 - 2 ^ -53]. *)
Definition ex_rnd_top : nat -> float := fun _ => 0x1.fffffffffffffp-1%float.

(** A 2 x 2 image of four different colors, none transparent. *)
Definition ex_vivid_arr : list Z :=
  [155; 200; 18; 255;  255; 128; 24; 255;  88; 138; 72; 255;  158; 128; 155; 255].

Definition ex_vivid_heap : heap := <[1%positive := ex_vivid_arr]> ∅.

(** A palette with a color close to that of the image of a single color. *)
Definition ex_near_palette : list Color := [(0, 0, 0); (52, 60, 70)].

(** A 3 x 3 image of a single color. *)
Definition ex_plain_arr : list Z :=
  [50; 60; 70; 255;  50; 60; 70; 255;  50; 60; 70; 255;
   50; 60; 70; 255;  50; 60; 70; 255;  50; 60; 70; 255;
   50; 60; 70; 255;  50; 60; 70; 255;  50; 60; 70; 255].

Definition ex_plain_heap : heap := <[1%positive := ex_plain_arr]> ∅.

(** A 2 x 2 image without a pixel whose alpha is above 128. *)
Definition ex_faint_arr : list Z :=
  [10; 10; 10; 128;  200; 0; 0; 100;  250; 250; 250; 0;  0; 0; 0; 128].

Definition ex_faint_heap : heap := <[1%positive := ex_faint_arr]> ∅.

(** A contour that comes back to its first point. *)
Definition ex_closed : list SVGExporter.point := [(0, 0); (2, 0); (2, 2); (0, 0)]%Q.

(** A mask of 4 x 4 entries with a block of 2 x 2 in the middle, and an
    array [visited] of the same size. *)
Definition ex_mask : list (list Z) :=
  [[0; 0; 0; 0]; [0; 1; 1; 0]; [0; 1; 1; 0]; [0; 0; 0; 0]].

Definition ex_visited : list (list bool) := replicate 4 (replicate 4 false).

(** ** Lemmas on numbers *)

Lemma Qltb_lt (a b : Q) : Qltb a b = true <-> (a < b)%Q.
Proof.
  unfold Qltb. rewrite negb_true_iff.
  destruct (Qle_bool b a) eqn:E.
  - apply Qle_bool_iff in E. split; [discriminate | intros H; exfalso; lra].
  - split; [intros _ | reflexivity].
    apply Qnot_le_lt. intros H. apply Qle_bool_iff in H. congruence.
Qed.

Lemma Qltb_ge (a b : Q) : Qltb a b = false <-> (b <= a)%Q.
Proof.
  unfold Qltb. rewrite negb_false_iff. apply Qle_bool_iff.
Qed.

Lemma colorDistance_sqdist (a b : Color) :
  (radicand (Posterizer.colorDistance (toQ a) (toQ b)) == inject_Z (sqdist a b))%Q.
Proof.
  destruct a as [[r1 g1] b1], b as [[r2 g2] b2].
  unfold Posterizer.colorDistance, Posterizer.pow2, sqdist, toQ, red, green, blue; simpl.
  unfold Qeq; simpl. lia.
Qed.

Lemma colorDistance_ltb (p a b : Color) :
  root_ltb (Posterizer.colorDistance (toQ p) (toQ a))
           (Posterizer.colorDistance (toQ p) (toQ b)) = true
  <-> sqdist p a < sqdist p b.
Proof.
  unfold root_ltb. rewrite Qltb_lt, !colorDistance_sqdist, <- Zlt_Qlt. reflexivity.
Qed.

Lemma colorDistance_geb (p a b : Color) :
  root_ltb (Posterizer.colorDistance (toQ p) (toQ a))
           (Posterizer.colorDistance (toQ p) (toQ b)) = false
  <-> sqdist p b <= sqdist p a.
Proof.
  unfold root_ltb. rewrite Qltb_ge, !colorDistance_sqdist, <- Zle_Qle. reflexivity.
Qed.

Lemma sqdist_nonneg (a b : Color) : 0 <= sqdist a b.
Proof. unfold sqdist. nia. Qed.

Lemma sqdist_zero (a b : Color) : sqdist a b = 0 <-> a = b.
Proof.
  destruct a as [[r1 g1] b1], b as [[r2 g2] b2].
  unfold sqdist, red, green, blue; simpl. split.
  - intros H.
    assert (r1 - r2 = 0) by nia. assert (g1 - g2 = 0) by nia.
    assert (b1 - b2 = 0) by nia.
    f_equal; [f_equal |]; lia.
  - intros [= -> -> ->]. lia.
Qed.

Lemma clamp_id (v : Z) : channel_ok v -> clamp v = v.
Proof. unfold channel_ok, clamp. lia. Qed.

(** ** The nearest palette color *)

Section Nearest.

Variable px : Color.

Let dist (c : Color) : root := Posterizer.colorDistance (toQ px) (toQ c).

Let step : bound * option Color -> Color -> bound * option Color :=
  fun '(minDist, nearest) color =>
    if below (dist color) minDist then (Finite (dist color), Some color)
    else (minDist, nearest).

Lemma nearest_fold (n0 : option Color) (l : list Color) :
  l <> [] ->
  exists (j : nat) (c : Color),
    l !! j = Some c /\
    foldl step (Infinity, n0) l = (Finite (dist c), Some c) /\
    (forall j' c', l !! j' = Some c' -> sqdist px c <= sqdist px c') /\
    (forall j' c', (j' < j)%nat -> l !! j' = Some c' -> sqdist px c < sqdist px c').
Proof.
  induction l as [| x l' IH] using rev_ind; [congruence | intros _].
  rewrite foldl_app.
  destruct (decide (l' = [])) as [-> | Hne].
  - simpl. exists 0%nat, x. repeat split; try lia.
    intros [| j'] c' H; simpl in H; [| discriminate].
    injection H as <-. lia.
  - destruct (IH Hne) as (j & c & Hj & Hfold & Hmin & Hfirst).
    rewrite Hfold. cbn [foldl step below].
    destruct (root_ltb (dist x) (dist c)) eqn:E.
    + apply colorDistance_ltb in E.
      exists (length l'), x. repeat split.
      * rewrite lookup_app_r by lia. now rewrite Nat.sub_diag.
      * intros j' c' H. apply lookup_app_Some in H as [H | [_ H]].
        -- specialize (Hmin _ _ H). lia.
        -- destruct (j' - length l')%nat; simpl in H; [| discriminate].
           injection H as <-. lia.
      * intros j' c' Hlt H. rewrite lookup_app_l in H by exact Hlt.
        specialize (Hmin _ _ H). lia.
    + apply colorDistance_geb in E.
      exists j, c. repeat split.
      * apply lookup_app_l_Some. exact Hj.
      * intros j' c' H. apply lookup_app_Some in H as [H | [_ H]].
        -- exact (Hmin _ _ H).
        -- destruct (j' - length l')%nat; simpl in H; [| discriminate].
           injection H as <-. exact E.
      * intros j' c' Hlt H. apply Hfirst with j'; [exact Hlt |].
        apply lookup_lt_Some in Hj.
        rewrite lookup_app_l in H by lia. exact H.
Qed.

Lemma findNearestColor_first_nearest (palette : list Color) :
  palette <> [] ->
  exists c, Posterizer.findNearestColor px palette = Some c /\
            first_nearest px palette c.
Proof.
  intros Hne.
  destruct (nearest_fold (head palette) palette Hne) as (j & c & Hj & Hfold & Hmin & Hfirst).
  exists c. split.
  - unfold Posterizer.findNearestColor.
    change (foldl _ (Infinity, head palette) palette)
      with (foldl step (Infinity, head palette) palette).
    now rewrite Hfold.
  - exists j. auto.
Qed.

End Nearest.

Lemma first_nearest_elem (px : Color) (palette : list Color) (c : Color) :
  first_nearest px palette c -> c ∈ palette.
Proof.
  intros (j & Hj & _). apply list_elem_of_lookup. eauto.
Qed.

Lemma first_nearest_unique (px : Color) (palette : list Color) (c c' : Color) :
  first_nearest px palette c -> first_nearest px palette c' -> c = c'.
Proof.
  intros (j & Hj & Hmin & Hfirst) (j' & Hj' & Hmin' & Hfirst').
  destruct (lt_eq_lt_dec j j') as [[Hlt | ->] | Hlt].
  - specialize (Hfirst' _ _ Hlt Hj). specialize (Hmin _ _ Hj'). lia.
  - congruence.
  - specialize (Hfirst _ _ Hlt Hj'). specialize (Hmin' _ _ Hj). lia.
Qed.

Lemma findNearestColor_fixed (palette : list Color) (c : Color) :
  c ∈ palette -> Posterizer.findNearestColor c palette = Some c.
Proof.
  intros Hin.
  assert (Hne : palette <> []) by (intros ->; inversion Hin).
  destruct (findNearestColor_first_nearest c palette Hne) as (c' & Hc' & j & Hj & Hmin & _).
  apply list_elem_of_lookup in Hin as [i Hi].
  specialize (Hmin _ _ Hi).
  assert (sqdist c c = 0) by (apply sqdist_zero; reflexivity).
  pose proof (sqdist_nonneg c c').
  assert (c = c') by (apply sqdist_zero; lia).
  congruence.
Qed.

(** ** Running computations on the heap *)

Lemma bind_Ok {A B} (m : M A) (k : A -> M B) (h h' : heap) (a : A) :
  m h = Ok (a, h') -> bind m k h = k a h'.
Proof. intros H. unfold bind. now rewrite H. Qed.

Lemma contents_lookup (l : loc) (arr : list Z) (h : heap) :
  h !! l = Some arr -> contents l h = Ok (arr, h).
Proof. intros H. unfold contents. now rewrite H. Qed.

Lemma array_length_lookup (l : loc) (arr : list Z) (h : heap) :
  h !! l = Some arr -> array_length l h = Ok (Z.of_nat (length arr), h).
Proof.
  intros H. unfold array_length.
  now rewrite (bind_Ok _ _ _ _ _ (contents_lookup _ _ _ H)).
Qed.

Lemma get_lookup (l : loc) (arr : list Z) (h : heap) (i v : Z) :
  h !! l = Some arr -> nth_Z arr i = Some v -> get l i h = Ok (v, h).
Proof.
  intros H Hv. unfold get.
  rewrite (bind_Ok _ _ _ _ _ (contents_lookup _ _ _ H)). now rewrite Hv.
Qed.

Lemma get_opt_lookup (l : loc) (arr : list Z) (h : heap) (i : Z) :
  h !! l = Some arr -> Posterizer.get_opt l i h = Ok (nth_Z arr i, h).
Proof.
  intros H. unfold Posterizer.get_opt.
  now rewrite (bind_Ok _ _ _ _ _ (contents_lookup _ _ _ H)).
Qed.

Lemma set_insert (l : loc) (cur : list Z) (h : heap) (i v : Z) :
  set l i v (<[l := cur]> h) = Ok (tt, <[l := store_Z cur i v]> h).
Proof.
  unfold set.
  rewrite (bind_Ok _ _ _ _ cur (contents_lookup _ _ _ (lookup_insert_eq h l cur))).
  now rewrite insert_insert_eq.
Qed.

Lemma fresh_heap_None (h : heap) : h !! fresh (dom h) = None.
Proof. apply not_elem_of_dom. apply is_fresh. Qed.

Lemma fresh_heap_ne (h : heap) (l : loc) (arr : list Z) :
  h !! l = Some arr -> l <> fresh (dom h).
Proof. intros H ->. rewrite fresh_heap_None in H. discriminate. Qed.

Lemma new_Uint8ClampedArray_lookup (src : loc) (arr : list Z) (h : heap) :
  h !! src = Some arr ->
  new_Uint8ClampedArray src h = Ok (fresh (dom h), <[fresh (dom h) := arr]> h).
Proof.
  intros H. unfold new_Uint8ClampedArray.
  now rewrite (bind_Ok _ _ _ _ _ (contents_lookup _ _ _ H)).
Qed.

Lemma new_ImageData_lookup (l : loc) (arr : list Z) (h : heap) (w ht : Z) :
  h !! l = Some arr -> 0 < w -> 0 < ht -> Z.of_nat (length arr) = 4 * w * ht ->
  new_ImageData l w ht h = Ok (mkImageData w ht l, h).
Proof.
  intros H Hw Hh Hlen. unfold new_ImageData.
  rewrite (bind_Ok _ _ _ _ _ (array_length_lookup _ _ _ H)).
  rewrite (proj2 (Z.ltb_lt 0 w) Hw), (proj2 (Z.ltb_lt 0 ht) Hh).
  now rewrite (proj2 (Z.eqb_eq _ _) Hlen).
Qed.

Lemma forEach_map {A B} (g : A -> B) (xs : list A) (body : B -> M unit) (h : heap) :
  forEach (map g xs) body h = forEach xs (fun x => body (g x)) h.
Proof.
  revert h. induction xs as [| x xs IH]; intros h; [reflexivity |].
  simpl. unfold bind. destruct (body (g x) h) as [[[] h'] | e]; auto.
Qed.

Lemma forEach_fmap {A B} (g : A -> B) (xs : list A) (body : B -> M unit) (h : heap) :
  forEach (g <$> xs) body h = forEach xs (fun x => body (g x)) h.
Proof. exact (forEach_map g xs body h). Qed.

Lemma forEach_app {A} (xs ys : list A) (body : A -> M unit) (h : heap) :
  forEach (xs ++ ys) body h = bind (forEach xs body) (fun _ => forEach ys body) h.
Proof.
  revert h. induction xs as [| x xs IH]; intros h; [reflexivity |].
  simpl. unfold bind.
  destruct (body x h) as [[[] h'] | e]; [| reflexivity].
  rewrite IH. reflexivity.
Qed.

(** ** The counter of a loop *)

Lemma zrange_pixels (n : nat) :
  zrange 0 (4 * Z.of_nat n) 4 = map (fun p => 4 * Z.of_nat p) (seq 0 n).
Proof.
  unfold zrange.
  replace ((4 * Z.of_nat n - 0 + 4 - 1) / 4) with (Z.of_nat n).
  - rewrite Nat2Z.id. apply map_ext. intros p. lia.
  - apply Z.div_unique with 3; lia.
Qed.

Lemma zrange_unit (lo hi : Z) :
  zrange lo hi 1 = map (fun j => lo + Z.of_nat j) (seq 0 (Z.to_nat (hi - lo))).
Proof.
  unfold zrange. rewrite Z.div_1_r.
  replace (hi - lo + 1 - 1) with (hi - lo) by lia.
  apply map_ext. intros j. lia.
Qed.

Lemma zrange_empty (lo hi : Z) : hi <= lo -> zrange lo hi 1 = [].
Proof.
  intros H. rewrite zrange_unit. replace (Z.to_nat (hi - lo)) with 0%nat by lia.
  reflexivity.
Qed.

Lemma zrange_first (lo hi : Z) :
  lo < hi -> zrange lo hi 1 = lo :: zrange (lo + 1) hi 1.
Proof.
  intros H. rewrite !zrange_unit.
  replace (Z.to_nat (hi - lo)) with (S (Z.to_nat (hi - (lo + 1)))) by lia.
  cbn [seq map]. f_equal; [lia |].
  rewrite <- seq_shift, map_map. apply map_ext. intros j. lia.
Qed.

Lemma elem_of_zrange_unit (lo hi x : Z) :
  x ∈ zrange lo hi 1 <-> lo <= x < hi.
Proof.
  rewrite zrange_unit, list_elem_of_In, in_map_iff. split.
  - intros (j & <- & Hj). apply in_seq in Hj. lia.
  - intros H. exists (Z.to_nat (x - lo)). split; [lia |]. apply in_seq. lia.
Qed.

Lemma NoDup_zrange_unit (lo hi : Z) : NoDup (zrange lo hi 1).
Proof.
  rewrite zrange_unit. apply NoDup_fmap_2; [| apply NoDup_seq].
  intros a b H. lia.
Qed.

(** ** Pixels of a buffer *)

Lemma nth_Z_of_nat (arr : list Z) (n : nat) : nth_Z arr (Z.of_nat n) = arr !! n.
Proof.
  unfold nth_Z. destruct (Z.ltb_spec (Z.of_nat n) 0); [lia |].
  now rewrite Nat2Z.id.
Qed.

Lemma store_Z_of_nat (arr : list Z) (n : nat) (v : Z) :
  store_Z arr (Z.of_nat n) v = <[n := clamp v]> arr.
Proof.
  unfold store_Z. destruct (Z.ltb_spec (Z.of_nat n) 0); [lia |].
  now rewrite Nat2Z.id.
Qed.

Lemma pixel_Some (arr : list Z) (p : nat) (c : Color) (a : Z) :
  pixel arr p = Some (c, a) <->
  arr !! (4 * p)%nat = Some (red c) /\ arr !! (4 * p + 1)%nat = Some (green c) /\
  arr !! (4 * p + 2)%nat = Some (blue c) /\ arr !! (4 * p + 3)%nat = Some a.
Proof.
  unfold pixel. destruct c as [[r g] b]. unfold red, green, blue; simpl fst; simpl snd.
  destruct (arr !! (4 * p)%nat), (arr !! (4 * p + 1)%nat),
    (arr !! (4 * p + 2)%nat), (arr !! (4 * p + 3)%nat);
    (split; [intros H | intros (H0 & H1 & H2 & H3)]); try discriminate;
    try (injection H as -> -> -> ->; auto);
    try (injection H0 as ->; injection H1 as ->; injection H2 as ->;
         injection H3 as ->; reflexivity).
Qed.

Lemma pixel_is_Some (arr : list Z) (p n : nat) :
  length arr = (4 * n)%nat -> (p < n)%nat -> is_Some (pixel arr p).
Proof.
  intros Hlen Hp. unfold pixel.
  destruct (lookup_lt_is_Some_2 arr (4 * p)%nat) as [r ->]; [lia |].
  destruct (lookup_lt_is_Some_2 arr (4 * p + 1)%nat) as [g ->]; [lia |].
  destruct (lookup_lt_is_Some_2 arr (4 * p + 2)%nat) as [b ->]; [lia |].
  destruct (lookup_lt_is_Some_2 arr (4 * p + 3)%nat) as [a ->]; [lia |].
  eauto.
Qed.

Lemma pixel_lt (arr : list Z) (p : nat) (px : Color * Z) :
  pixel arr p = Some px -> (4 * p + 3 < length arr)%nat.
Proof.
  destruct px as [c a]. rewrite pixel_Some. intros (_ & _ & _ & H).
  now apply lookup_lt_Some in H.
Qed.

Lemma length_set_pixel (arr : list Z) (p : nat) (px : Color * Z) :
  length (set_pixel arr p px) = length arr.
Proof. unfold set_pixel. now rewrite !length_insert. Qed.

Lemma pixel_set_pixel_eq (arr : list Z) (p : nat) (px : Color * Z) :
  (4 * p + 3 < length arr)%nat -> pixel (set_pixel arr p px) p = Some px.
Proof.
  intros Hlt. destruct px as [c a]. apply pixel_Some. unfold set_pixel; simpl.
  repeat split.
  - rewrite !list_lookup_insert_ne by lia.
    apply list_lookup_insert_eq. lia.
  - rewrite !list_lookup_insert_ne by lia.
    apply list_lookup_insert_eq. rewrite !length_insert. lia.
  - rewrite !list_lookup_insert_ne by lia.
    apply list_lookup_insert_eq. rewrite !length_insert. lia.
  - apply list_lookup_insert_eq. rewrite !length_insert. lia.
Qed.

Lemma pixel_set_pixel_ne (arr : list Z) (p q : nat) (px : Color * Z) :
  p <> q -> pixel (set_pixel arr p px) q = pixel arr q.
Proof.
  intros Hne. unfold pixel, set_pixel.
  now rewrite !list_lookup_insert_ne by lia.
Qed.

Lemma set_pixel_id (arr : list Z) (p : nat) (px : Color * Z) :
  pixel arr p = Some px -> set_pixel arr p px = arr.
Proof.
  destruct px as [c a]. rewrite pixel_Some. intros (Hr & Hg & Hb & Ha).
  unfold set_pixel; cbn [fst snd].
  rewrite (list_insert_id arr _ _ Hr), (list_insert_id arr _ _ Hg),
    (list_insert_id arr _ _ Hb). now apply list_insert_id.
Qed.

Lemma Forall_set_pixel (arr : list Z) (p : nat) (c : Color) (a : Z) :
  Forall channel_ok arr -> color_ok c -> channel_ok a ->
  Forall channel_ok (set_pixel arr p (c, a)).
Proof.
  intros H (Hr & Hg & Hb) Ha. unfold set_pixel; cbn [fst snd].
  repeat apply Forall_insert; auto.
Qed.

Lemma pixel_channel_ok (arr : list Z) (p : nat) (c : Color) (a : Z) :
  Forall channel_ok arr -> pixel arr p = Some (c, a) -> color_ok c /\ channel_ok a.
Proof.
  intros H. rewrite pixel_Some. intros (Hr & Hg & Hb & Ha).
  rewrite Forall_lookup in H. unfold color_ok. eauto 10.
Qed.

(** Two buffers with the same pixels are equal. *)
Lemma pixels_ext (a b : list Z) (n : nat) :
  length a = (4 * n)%nat -> length b = (4 * n)%nat ->
  (forall p, (p < n)%nat -> pixel a p = pixel b p) -> a = b.
Proof.
  intros Ha Hb H. apply list_eq. intros i.
  destruct (decide (i < 4 * n)%nat) as [Hi |];
    [| rewrite !lookup_ge_None_2 by lia; reflexivity].
  assert (Hp : (i / 4 < n)%nat) by (apply Nat.Div0.div_lt_upper_bound; lia).
  specialize (H _ Hp).
  destruct (pixel_is_Some a _ _ Ha Hp) as [[c al] Hpa].
  rewrite Hpa in H. symmetry in H.
  apply pixel_Some in Hpa as (A0 & A1 & A2 & A3).
  apply pixel_Some in H as (B0 & B1 & B2 & B3).
  pose proof (Nat.div_mod_eq i 4) as Hdm.
  pose proof (Nat.mod_upper_bound i 4 ltac:(lia)) as Hm.
  destruct (i mod 4)%nat as [| [| [| [| ?]]]] eqn:E; try lia.
  - replace i with (4 * (i / 4))%nat by lia. congruence.
  - replace i with (4 * (i / 4) + 1)%nat by lia. congruence.
  - replace i with (4 * (i / 4) + 2)%nat by lia. congruence.
  - replace i with (4 * (i / 4) + 3)%nat by lia. congruence.
Qed.

(** ** Loops that rewrite one pixel per round *)

Section PixelLoop.

Context {A : Type}.
Variable pix : A -> nat.
Variable f : nat -> Color * Z -> Color * Z.
Variable body : A -> M unit.
Variable l : loc.
Variable h : heap.
Variable n : nat.

Lemma forEach_pixels (xs : list A) (arr : list Z) :
  NoDup (pix <$> xs) ->
  (forall x, x ∈ xs -> (pix x < n)%nat) ->
  (forall x px, x ∈ xs -> pixel arr (pix x) = Some px -> pixel_ok px ->
     pixel_ok (f (pix x) px)) ->
  (forall x cur px, x ∈ xs -> length cur = (4 * n)%nat -> Forall channel_ok cur ->
     pixel cur (pix x) = Some px -> pixel arr (pix x) = Some px ->
     body x (<[l := cur]> h) = Ok (tt, <[l := set_pixel cur (pix x) (f (pix x) px)]> h)) ->
  length arr = (4 * n)%nat -> Forall channel_ok arr ->
  exists out,
    forEach xs body (<[l := arr]> h) = Ok (tt, <[l := out]> h) /\
    length out = (4 * n)%nat /\ Forall channel_ok out /\
    forall p px, pixel arr p = Some px ->
      pixel out p = Some (if bool_decide (p ∈ pix <$> xs) then f p px else px).
Proof.
  revert arr. induction xs as [| x xs IH]; intros arr Hnd Hlt Hfok Hbody Hlen Hok.
  - exists arr. repeat split; auto.
  - rewrite fmap_cons in Hnd. apply NoDup_cons in Hnd as [Hx Hnd].
    destruct (pixel_is_Some arr (pix x) n Hlen) as [px0 Hpx0];
      [apply Hlt; left |].
    pose proof (Hbody x arr px0 (list_elem_of_here _ _) Hlen Hok Hpx0 Hpx0) as Hrun.
    set (arr1 := set_pixel arr (pix x) (f (pix x) px0)) in *.
    assert (Hlen1 : length arr1 = (4 * n)%nat)
      by (unfold arr1; now rewrite length_set_pixel).
    assert (Hok1 : Forall channel_ok arr1).
    { destruct px0 as [c0 a0].
      destruct (pixel_channel_ok _ _ _ _ Hok Hpx0) as [Hc Ha].
      destruct (Hfok x (c0, a0) (list_elem_of_here _ _) Hpx0 (conj Hc Ha)) as [Hc' Ha'].
      unfold arr1. destruct (f (pix x) (c0, a0)) as [c1 a1].
      now apply Forall_set_pixel. }
    assert (Hsame : forall y, y ∈ xs -> pixel arr1 (pix y) = pixel arr (pix y)).
    { intros y Hy. unfold arr1. apply pixel_set_pixel_ne.
      intros E. apply Hx. rewrite E. now apply list_elem_of_fmap_2. }
    destruct (IH arr1 Hnd) as (out & Hout & Hlo & Hoko & Hpix); auto.
    { intros y Hy. apply Hlt. now right. }
    { intros y px Hy Hy1. apply Hfok; [now right |]. now rewrite <- Hsame. }
    { intros y cur px Hy Hlc Hokc Hcur Hy1. apply Hbody; auto; [now right |].
      now rewrite <- Hsame. }
    exists out. repeat split; auto.
    + simpl. now rewrite (bind_Ok _ _ _ _ _ Hrun).
    + intros p px Hp. rewrite fmap_cons.
      destruct (decide (p = pix x)) as [-> | Hne].
      * assert (px = px0) by congruence. subst px.
        rewrite (Hpix (pix x) (f (pix x) px0)).
        -- rewrite (bool_decide_eq_false_2 _ Hx).
           rewrite bool_decide_eq_true_2 by left. reflexivity.
        -- unfold arr1. apply pixel_set_pixel_eq. now apply pixel_lt in Hpx0.
      * rewrite (Hpix p px).
        -- f_equal.
           rewrite (bool_decide_ext (p ∈ pix x :: (pix <$> xs)) (p ∈ pix <$> xs));
             [reflexivity |].
           rewrite elem_of_cons. split; [intros [? | ?]; [congruence | assumption] | now right].
        -- unfold arr1. rewrite pixel_set_pixel_ne by auto. exact Hp.
Qed.

End PixelLoop.

Lemma get_channel (l : loc) (cur : list Z) (h : heap) (i : Z) (k : nat) (v : Z) :
  i = Z.of_nat k -> cur !! k = Some v ->
  get l i (<[l := cur]> h) = Ok (v, <[l := cur]> h).
Proof.
  intros -> H. apply get_lookup with cur; [apply lookup_insert_eq |].
  now rewrite nth_Z_of_nat.
Qed.

Lemma set_channel (l : loc) (cur : list Z) (h : heap) (i : Z) (k : nat) (v : Z) :
  i = Z.of_nat k -> channel_ok v ->
  set l i v (<[l := cur]> h) = Ok (tt, <[l := <[k := v]> cur]> h).
Proof.
  intros -> H. rewrite set_insert, store_Z_of_nat. now rewrite clamp_id.
Qed.

Ltac run H := rewrite (bind_Ok _ _ _ _ _ H); cbn beta.

Lemma posterize_pixel_ok (palette : list Color) (px : Color * Z) :
  Forall color_ok palette -> pixel_ok px -> pixel_ok (posterize_pixel palette px).
Proof.
  intros Hpal [Hc Ha]. unfold posterize_pixel.
  destruct (px.2 <? 128); [now split |].
  destruct (Posterizer.findNearestColor px.1 palette) as [nearest |] eqn:E; [| now split].
  split; [| exact Ha]. simpl.
  destruct (decide (palette = [])) as [-> | Hne]; [discriminate |].
  destruct (findNearestColor_first_nearest px.1 palette Hne) as (c & Hc' & Hfn).
  assert (c = nearest) by congruence. subst c.
  rewrite Forall_forall in Hpal. apply Hpal. now apply first_nearest_elem in Hfn.
Qed.

Lemma posterizeReplace_run (h : heap) (img : ImageData) (arr : list Z)
    (palette : list Color) :
  image_in h img arr -> palette <> [] -> Forall color_ok palette ->
  exists out,
    Posterizer.posterizeReplace img palette h
    = Ok (mkImageData (width img) (height img) (fresh (dom h)),
          <[fresh (dom h) := out]> h) /\
    length out = length arr /\ Forall channel_ok out /\
    forall p px, pixel arr p = Some px -> pixel out p = Some (posterize_pixel palette px).
Proof.
  intros Himg Hne Hpal.
  pose proof Himg as (Hl & Hw & Hh & Hlen & Hok).
  set (n := Z.to_nat (width img * height img)).
  assert (Hn : length arr = (4 * n)%nat) by lia.
  set (l := fresh (dom h)).
  unfold Posterizer.posterizeReplace.
  run (new_Uint8ClampedArray_lookup _ _ _ Hl). fold l.
  run (new_ImageData_lookup l arr (<[l := arr]> h) _ _
         (lookup_insert_eq h l arr) Hw Hh Hlen).
  cbn [data].
  run (array_length_lookup l arr _ (lookup_insert_eq h l arr)).
  replace (Z.of_nat (length arr)) with (4 * Z.of_nat n) by lia.
  unfold for_loop. rewrite zrange_pixels.
  match goal with
  | |- context [forEach (map ?g ?xs) ?body] =>
      destruct (forEach_pixels id (fun _ => posterize_pixel palette)
                  (fun p => body (g p)) l h n xs arr)
        as (out & Hrun & Hlo & Hoko & Hpix); auto
  end.
  - rewrite list_fmap_id. apply NoDup_seq.
  - intros p Hp. apply elem_of_seq in Hp. unfold id. lia.
  - intros p px _ _. now apply posterize_pixel_ok.
  - intros p cur [c a] _ Hcur Hokc Hpx _. unfold id in *.
    pose proof Hpx as Hpx'. apply pixel_Some in Hpx' as (Hr & Hg & Hb & Ha).
    run (get_channel l cur h (4 * Z.of_nat p + 3) (4 * p + 3) a ltac:(lia) Ha).
    unfold posterize_pixel. cbn [fst snd].
    destruct (a <? 128); [now rewrite (set_pixel_id _ _ _ Hpx) |].
    run (get_channel l cur h (4 * Z.of_nat p) (4 * p) _ ltac:(lia) Hr).
    run (get_channel l cur h (4 * Z.of_nat p + 1) (4 * p + 1) _ ltac:(lia) Hg).
    run (get_channel l cur h (4 * Z.of_nat p + 2) (4 * p + 2) _ ltac:(lia) Hb).
    replace (red c, green c, blue c) with c by (now destruct c as [[? ?] ?]).
    destruct (findNearestColor_first_nearest c palette Hne) as (nearest & Hnear & Hfn).
    rewrite Hnear. unfold Posterizer.defined.
    assert (Hcn : color_ok nearest).
    { rewrite Forall_forall in Hpal. apply Hpal. now apply first_nearest_elem in Hfn. }
    destruct Hcn as (Hnr & Hng & Hnb).
    unfold bind at 1. unfold ret at 1.
    run (set_channel l cur h (4 * Z.of_nat p) (4 * p) _ ltac:(lia) Hnr).
    run (set_channel l (<[(4 * p)%nat := red nearest]> cur) h
           (4 * Z.of_nat p + 1) (4 * p + 1) _ ltac:(lia) Hng).
    rewrite (set_channel l _ h (4 * Z.of_nat p + 2) (4 * p + 2) _ ltac:(lia) Hnb).
    unfold set_pixel. cbn [fst snd].
    do 3 f_equal. symmetry. apply list_insert_id.
    now rewrite !list_lookup_insert_ne by lia.
  - exists out. repeat split; [| lia | auto |].
    + unfold bind at 1. rewrite forEach_map, Hrun. reflexivity.
    + intros p px Hp. rewrite (Hpix p px Hp).
      rewrite list_fmap_id, bool_decide_eq_true_2; [reflexivity |].
      apply elem_of_seq. apply pixel_lt in Hp. lia.
Qed.

(** ** Palette mapping *)

(** C1. For a well-formed buffer and a non-empty palette of colors,
    [posterizeReplace] returns a new well-formed buffer of the same
    dimensions in which every pixel keeps its alpha; a pixel whose alpha is
    at least 128 takes the palette color at the least Euclidean distance
    from its color, the first such color in the order of the palette, so
    that its color is an element of the palette; a pixel whose alpha is
    below 128 keeps its color. *)
Theorem posterizeReplace_nearest (h : heap) (img : ImageData) (arr : list Z)
    (palette : list Color) :
  image_in h img arr -> palette <> [] -> Forall color_ok palette ->
  exists newData h' out,
    Posterizer.posterizeReplace img palette h = Ok (newData, h') /\
    image_in h' newData out /\
    width newData = width img /\ height newData = height img /\
    forall p c a, pixel arr p = Some (c, a) ->
      (128 <= a ->
         exists c', pixel out p = Some (c', a) /\
                    first_nearest c palette c' /\ c' ∈ palette) /\
      (a < 128 -> pixel out p = Some (c, a)).
Proof.
  intros Himg Hne Hpal.
  destruct (posterizeReplace_run h img arr palette Himg Hne Hpal)
    as (out & Hrun & Hlen & Hok & Hpix).
  destruct Himg as (Hl & Hw & Hh & Hlen' & _).
  eexists _, _, out. split; [exact Hrun |].
  split; [| split; [reflexivity | split; [reflexivity |]]].
  - repeat split; auto; cbn [data width height].
    + apply lookup_insert_eq.
    + lia.
  - intros p c a Hp. specialize (Hpix _ _ Hp).
    unfold posterize_pixel in Hpix. cbn [fst snd] in Hpix.
    destruct (findNearestColor_first_nearest c palette Hne) as (c' & Hc' & Hfn).
    rewrite Hc' in Hpix.
    destruct (Z.ltb_spec a 128); split; intros Ha; try lia; auto.
    exists c'. repeat split; auto. now apply first_nearest_elem in Hfn.
Qed.

Lemma ex_image_in : image_in ex_heap ex_img ex_arr.
Proof.
  repeat split; try reflexivity.
  unfold ex_arr.
  repeat (apply List.Forall_cons; [unfold channel_ok; lia |]).
  apply List.Forall_nil.
Defined.

Lemma ex_palette_ok : Forall color_ok ex_palette.
Proof.
  unfold ex_palette.
  repeat (apply List.Forall_cons;
          [unfold color_ok, channel_ok, red, green, blue; simpl; lia |]).
  apply List.Forall_nil.
Defined.

Lemma posterizeReplace_nearest_witness :
  exists newData h' out,
    Posterizer.posterizeReplace ex_img ex_palette ex_heap = Ok (newData, h') /\
    image_in h' newData out /\
    width newData = width ex_img /\ height newData = height ex_img /\
    forall p c a, pixel ex_arr p = Some (c, a) ->
      (128 <= a ->
         exists c', pixel out p = Some (c', a) /\
                    first_nearest c ex_palette c' /\ c' ∈ ex_palette) /\
      (a < 128 -> pixel out p = Some (c, a)).
Proof.
  apply (posterizeReplace_nearest ex_heap ex_img ex_arr ex_palette).
  - exact ex_image_in.
  - discriminate.
  - exact ex_palette_ok.
Defined.

Lemma posterize_pixel_idem (palette : list Color) (px : Color * Z) :
  palette <> [] ->
  posterize_pixel palette (posterize_pixel palette px) = posterize_pixel palette px.
Proof.
  intros Hne. destruct px as [c a]. unfold posterize_pixel. cbn [fst snd].
  destruct (a <? 128) eqn:E; cbn [fst snd]; [now rewrite E |].
  destruct (findNearestColor_first_nearest c palette Hne) as (c' & Hc' & Hfn).
  rewrite Hc'. cbn [fst snd]. rewrite E.
  now rewrite (findNearestColor_fixed palette c' (first_nearest_elem _ _ _ Hfn)).
Qed.

(** C3. [posterizeReplace] is idempotent: mapping the result of a mapping
    again, with the same palette, yields a buffer with the same dimensions
    and the same contents. *)
Theorem posterizeReplace_idempotent (h : heap) (img : ImageData) (arr : list Z)
    (palette : list Color) :
  image_in h img arr -> palette <> [] -> Forall color_ok palette ->
  exists img1 h1 out1 img2 h2 out2,
    Posterizer.posterizeReplace img palette h = Ok (img1, h1) /\
    image_in h1 img1 out1 /\
    Posterizer.posterizeReplace img1 palette h1 = Ok (img2, h2) /\
    image_in h2 img2 out2 /\
    width img2 = width img1 /\ height img2 = height img1 /\
    out2 = out1.
Proof.
  intros Himg Hne Hpal.
  destruct (posterizeReplace_run h img arr palette Himg Hne Hpal)
    as (out1 & Hrun1 & Hlen1 & Hok1 & Hpix1).
  pose proof Himg as (Hl & Hw & Hh & Hlen & _).
  set (l1 := fresh (dom h)) in *.
  set (h1 := <[l1 := out1]> h) in *.
  set (img1 := mkImageData (width img) (height img) l1) in *.
  assert (Himg1 : image_in h1 img1 out1).
  { repeat split; auto; unfold img1, h1; cbn [data width height].
    - apply lookup_insert_eq.
    - lia. }
  destruct (posterizeReplace_run h1 img1 out1 palette Himg1 Hne Hpal)
    as (out2 & Hrun2 & Hlen2 & Hok2 & Hpix2).
  exists img1, h1, out1. eexists _, _, out2.
  split; [exact Hrun1 |]. split; [exact Himg1 |]. split; [exact Hrun2 |].
  split; [| split; [reflexivity | split; [reflexivity |]]].
  - repeat split; auto; cbn [data width height]; unfold img1; cbn [width height].
    + apply lookup_insert_eq.
    + lia.
  - set (n := Z.to_nat (width img * height img)).
    apply pixels_ext with n; try lia.
    intros p Hp.
    destruct (pixel_is_Some arr p n ltac:(lia) Hp) as [px Hpx].
    rewrite (Hpix2 _ _ (Hpix1 _ _ Hpx)), (Hpix1 _ _ Hpx).
    now rewrite posterize_pixel_idem.
Qed.

Lemma posterizeReplace_idempotent_witness :
  exists img1 h1 out1 img2 h2 out2,
    Posterizer.posterizeReplace ex_img ex_palette ex_heap = Ok (img1, h1) /\
    image_in h1 img1 out1 /\
    Posterizer.posterizeReplace img1 ex_palette h1 = Ok (img2, h2) /\
    image_in h2 img2 out2 /\
    width img2 = width img1 /\ height img2 = height img1 /\
    out2 = out1.
Proof.
  apply (posterizeReplace_idempotent ex_heap ex_img ex_arr ex_palette).
  - exact ex_image_in.
  - discriminate.
  - exact ex_palette_ok.
Defined.

(** ** Transparency tools *)

Lemma erase_pixel_ok (targetColor : Color) (tolerance : Q) (px : Color * Z) :
  pixel_ok px -> pixel_ok (erase_pixel targetColor tolerance px).
Proof.
  intros [Hc Ha]. unfold erase_pixel.
  destruct (root_leb_num _ _); split; auto. unfold channel_ok; simpl; lia.
Qed.

Lemma makeColorTransparent_run (h : heap) (img : ImageData) (arr : list Z)
    (targetColor : Color) (tolerance : Q) :
  image_in h img arr ->
  exists out,
    Posterizer.makeColorTransparent img targetColor tolerance h
    = Ok (mkImageData (width img) (height img) (fresh (dom h)),
          <[fresh (dom h) := out]> h) /\
    length out = length arr /\ Forall channel_ok out /\
    forall p px, pixel arr p = Some px ->
      pixel out p = Some (erase_pixel targetColor tolerance px).
Proof.
  intros Himg.
  pose proof Himg as (Hl & Hw & Hh & Hlen & Hok).
  set (n := Z.to_nat (width img * height img)).
  assert (Hn : length arr = (4 * n)%nat) by lia.
  set (l := fresh (dom h)).
  unfold Posterizer.makeColorTransparent.
  run (new_Uint8ClampedArray_lookup _ _ _ Hl). fold l.
  run (new_ImageData_lookup l arr (<[l := arr]> h) _ _
         (lookup_insert_eq h l arr) Hw Hh Hlen).
  cbn [data].
  run (array_length_lookup l arr _ (lookup_insert_eq h l arr)).
  replace (Z.of_nat (length arr)) with (4 * Z.of_nat n) by lia.
  unfold for_loop. rewrite zrange_pixels.
  match goal with
  | |- context [forEach (map ?g ?xs) ?body] =>
      destruct (forEach_pixels id (fun _ => erase_pixel targetColor tolerance)
                  (fun p => body (g p)) l h n xs arr)
        as (out & Hrun & Hlo & Hoko & Hpix); auto
  end.
  - rewrite list_fmap_id. apply NoDup_seq.
  - intros p Hp. apply elem_of_seq in Hp. unfold id. lia.
  - intros p px _ _. apply erase_pixel_ok.
  - intros p cur [c a] _ Hcur Hokc Hpx _. unfold id in *.
    pose proof Hpx as Hpx'. apply pixel_Some in Hpx' as (Hr & Hg & Hb & Ha).
    run (get_channel l cur h (4 * Z.of_nat p) (4 * p) _ ltac:(lia) Hr).
    run (get_channel l cur h (4 * Z.of_nat p + 1) (4 * p + 1) _ ltac:(lia) Hg).
    run (get_channel l cur h (4 * Z.of_nat p + 2) (4 * p + 2) _ ltac:(lia) Hb).
    replace (red c, green c, blue c) with c by (now destruct c as [[? ?] ?]).
    unfold erase_pixel. cbn [fst snd].
    destruct (root_leb_num _ _).
    + rewrite (set_channel l cur h (4 * Z.of_nat p + 3) (4 * p + 3) 0 ltac:(lia));
        [| unfold channel_ok; lia].
      unfold set_pixel. cbn [fst snd].
      rewrite (list_insert_id cur _ _ Hr), (list_insert_id cur _ _ Hg),
        (list_insert_id cur _ _ Hb). reflexivity.
    + now rewrite (set_pixel_id _ _ _ Hpx).
  - exists out. repeat split; [| lia | auto |].
    + unfold bind at 1. rewrite forEach_map, Hrun. reflexivity.
    + intros p px Hp. rewrite (Hpix p px Hp).
      rewrite list_fmap_id, bool_decide_eq_true_2; [reflexivity |].
      apply elem_of_seq. apply pixel_lt in Hp. lia.
Qed.

(** *** The flood fill terminates *)

Lemma length_grid (w ht : Z) : length (grid w ht) = Z.to_nat (w * ht).
Proof. unfold grid. now rewrite length_map, length_seq. Qed.

Lemma elem_of_grid (w ht cx cy : Z) :
  0 <= cx < w -> 0 <= cy < ht -> (cx, cy) ∈ grid w ht.
Proof.
  intros Hx Hy. unfold grid. apply list_elem_of_fmap.
  exists (Z.to_nat (cy * w + cx)). split.
  - rewrite Z2Nat.id by nia. f_equal.
    + apply Z.mod_unique with cy; lia.
    + apply Z.div_unique with cx; lia.
  - apply elem_of_seq. nia.
Qed.

Lemma unvisited_le (visited : gset (Z * Z)) (c : Z * Z) (cells : list (Z * Z)) :
  (length (unvisited ({[c]} ∪ visited) cells) <= length (unvisited visited cells))%nat.
Proof.
  unfold unvisited. induction cells as [| d cells IH]; [reflexivity |].
  rewrite !filter_cons.
  destruct (decide (d ∉ {[c]} ∪ visited)) as [H1 | H1];
    destruct (decide (d ∉ visited)) as [H2 | H2]; simpl; try lia.
  exfalso. apply H2. intros Hd. apply H1. apply elem_of_union_r. exact Hd.
Qed.

Lemma unvisited_lt (visited : gset (Z * Z)) (c : Z * Z) (cells : list (Z * Z)) :
  c ∈ cells -> c ∉ visited ->
  (length (unvisited ({[c]} ∪ visited) cells) < length (unvisited visited cells))%nat.
Proof.
  intros Hin Hc. induction Hin as [c cells | c d cells Hin IH].
  - pose proof (unvisited_le visited c cells) as Hle. unfold unvisited in *.
    rewrite !filter_cons.
    destruct (decide (c ∉ {[c]} ∪ visited)) as [H1 | H1];
      [exfalso; apply H1, elem_of_union_l, elem_of_singleton; reflexivity |].
    destruct (decide (c ∉ visited)) as [H2 | H2]; [simpl; lia | contradiction].
  - specialize (IH Hc). unfold unvisited in *.
    rewrite !filter_cons.
    destruct (decide (d ∉ {[c]} ∪ visited)) as [H1 | H1];
      destruct (decide (d ∉ visited)) as [H2 | H2]; simpl; try lia.
    exfalso. apply H2. intros Hd. apply H1. apply elem_of_union_r. exact Hd.
Qed.

Lemma unvisited_all (cells : list (Z * Z)) :
  (length (unvisited ∅ cells) <= length cells)%nat.
Proof. unfold unvisited. apply length_filter. Qed.

Lemma pixel_read (arr : list Z) (w ht cx cy : Z) :
  Z.of_nat (length arr) = 4 * w * ht -> 0 <= cx < w -> 0 <= cy < ht ->
  exists c a,
    pixel arr (pixel_index w cx cy) = Some (c, a) /\
    nth_Z arr ((cy * w + cx) * 4) = Some (red c) /\
    nth_Z arr ((cy * w + cx) * 4 + 1) = Some (green c) /\
    nth_Z arr ((cy * w + cx) * 4 + 2) = Some (blue c) /\
    nth_Z arr ((cy * w + cx) * 4 + 3) = Some a.
Proof.
  intros Hlen Hx Hy. unfold pixel_index.
  set (p := Z.to_nat (cy * w + cx)).
  assert (Hp : (p < Z.to_nat (w * ht))%nat) by (unfold p; nia).
  destruct (pixel_is_Some arr p (Z.to_nat (w * ht)) ltac:(lia) Hp) as [[c a] Hpx].
  exists c, a. split; [exact Hpx |].
  apply pixel_Some in Hpx as (Hr & Hg & Hb & Ha).
  replace ((cy * w + cx) * 4) with (Z.of_nat (4 * p)) by (unfold p; nia).
  replace (Z.of_nat (4 * p) + 1) with (Z.of_nat (4 * p + 1)) by lia.
  replace (Z.of_nat (4 * p) + 2) with (Z.of_nat (4 * p + 2)) by lia.
  replace (Z.of_nat (4 * p) + 3) with (Z.of_nat (4 * p + 3)) by lia.
  now rewrite !nth_Z_of_nat.
Qed.

Lemma bounds_test (img : ImageData) (cx cy : Z) :
  (cx <? 0) || (cx >=? width img) || (cy <? 0) || (cy >=? height img) = false
  <-> in_bounds img (cx, cy).
Proof.
  unfold in_bounds; simpl. rewrite !orb_false_iff, !Z.ltb_ge, !Z.geb_leb, !Z.leb_gt. lia.
Qed.

Lemma floodFill_loop_total (h : heap) (img : ImageData) (arr : list Z)
    (startColor : option Color) (tolerance : Q) :
  image_in h img arr ->
  forall (fuel : nat) (visited : gset (Z * Z)) (region queue : list (Z * Z)),
    (4 * length (unvisited visited (grid (width img) (height img))) + length queue
     <= fuel)%nat ->
    Forall (in_bounds img) region ->
    exists region',
      Posterizer.floodFill_loop fuel img startColor tolerance visited region queue h
      = Ok (Some region', h) /\
      Forall (in_bounds img) region'.
Proof.
  intros (Hl & Hw & Hh & Hlen & Hok).
  induction fuel as [| fuel IH]; intros visited region queue Hfuel Hreg.
  - destruct queue as [| [cx cy] queue]; [| simpl in Hfuel; lia].
    exists region. split; [reflexivity | exact Hreg].
  - destruct queue as [| [cx cy] queue].
    { exists region. split; [reflexivity | exact Hreg]. }
    cbn [Posterizer.floodFill_loop]. cbn [length] in Hfuel.
    destruct (bool_decide ((cx, cy) ∈ visited)) eqn:Hvis.
    { apply IH; [lia | exact Hreg]. }
    apply bool_decide_eq_false in Hvis.
    destruct ((cx <? 0) || (cx >=? width img) || (cy <? 0) || (cy >=? height img))
      eqn:Hout.
    { apply IH; [lia | exact Hreg]. }
    apply bounds_test in Hout. pose proof Hout as [Hx Hy]. simpl in Hx, Hy.
    destruct (pixel_read arr (width img) (height img) cx cy Hlen Hx Hy)
      as (c & a & _ & Hr & Hg & Hb & _).
    run (get_lookup _ _ _ _ _ Hl Hr).
    run (get_lookup _ _ _ _ _ Hl Hg).
    run (get_lookup _ _ _ _ _ Hl Hb).
    pose proof (unvisited_lt visited (cx, cy) _
                  (elem_of_grid _ _ _ _ Hx Hy) Hvis) as Hlt.
    destruct (Posterizer.similar _ startColor tolerance).
    + apply IH.
      * rewrite length_app. simpl. lia.
      * apply Forall_app. split; [exact Hreg |]. now constructor.
    + apply IH; [lia | exact Hreg].
Qed.

(** [floodFill] returns: the rounds granted are never used up.  It leaves
    the heap as it was, and the region lies within the image. *)
Lemma floodFill_total (h : heap) (img : ImageData) (arr : list Z)
    (x y : Z) (tolerance : Q) :
  image_in h img arr ->
  exists region,
    Posterizer.floodFill img x y tolerance h = Ok (Some region, h) /\
    Forall (in_bounds img) region.
Proof.
  intros Himg. pose proof Himg as (Hl & Hw & Hh & Hlen & Hok).
  unfold Posterizer.floodFill.
  run (get_opt_lookup _ _ _ ((y * width img + x) * 4) Hl).
  run (get_opt_lookup _ _ _ ((y * width img + x) * 4 + 1) Hl).
  run (get_opt_lookup _ _ _ ((y * width img + x) * 4 + 2) Hl).
  apply floodFill_loop_total with arr; [exact Himg | | constructor].
  unfold Posterizer.floodFill_fuel.
  pose proof (unvisited_all (grid (width img) (height img))) as Hle.
  rewrite length_grid in Hle. simpl. lia.
Qed.

Lemma pixel_erase_alpha (cur : list Z) (p0 p : nat) (c : Color) (a : Z) :
  pixel cur p = Some (c, a) ->
  pixel (<[(4 * p0 + 3)%nat := 0]> cur) p
  = Some (c, if bool_decide (p = p0) then 0 else a).
Proof.
  intros Hp. pose proof (pixel_lt _ _ _ Hp) as Hlt.
  apply pixel_Some in Hp as (Hr & Hg & Hb & Ha). apply pixel_Some.
  rewrite !list_lookup_insert_ne by lia. repeat split; auto.
  destruct (decide (p = p0)) as [-> | Hne].
  - rewrite bool_decide_eq_true_2 by reflexivity.
    apply list_lookup_insert_eq. lia.
  - rewrite bool_decide_eq_false_2 by exact Hne.
    rewrite list_lookup_insert_ne by lia. exact Ha.
Qed.

Lemma forEach_erase (l : loc) (h : heap) (img : ImageData) (n : nat)
    (region : list (Z * Z)) :
  n = Z.to_nat (width img * height img) ->
  Forall (in_bounds img) region ->
  forall cur, length cur = (4 * n)%nat -> Forall channel_ok cur ->
  exists out,
    forEach region (fun '(px, py) =>
      set l ((py * width img + px) * 4 + 3) 0) (<[l := cur]> h)
    = Ok (tt, <[l := out]> h) /\
    length out = (4 * n)%nat /\ Forall channel_ok out /\
    forall p c a, pixel cur p = Some (c, a) ->
      pixel out p
      = Some (c, if bool_decide
                      (p ∈ (fun c => pixel_index (width img) c.1 c.2) <$> region)
                 then 0 else a).
Proof.
  intros Hn Hreg. induction Hreg as [| [px py] region [Hx Hy] Hreg IH];
    intros cur Hlen Hok.
  - exists cur. repeat split; auto.
  - simpl in Hx, Hy.
    set (p0 := pixel_index (width img) px py).
    assert (Hidx : (py * width img + px) * 4 + 3 = Z.of_nat (4 * p0 + 3))
      by (unfold p0, pixel_index; nia).
    assert (Hzero : channel_ok 0) by (unfold channel_ok; lia).
    pose proof (set_channel l cur h _ _ 0 Hidx Hzero) as Hrun.
    destruct (IH (<[(4 * p0 + 3)%nat := 0]> cur)) as (out & Hout & Hlo & Hoko & Hpix).
    { now rewrite length_insert. }
    { now apply Forall_insert. }
    exists out. repeat split; auto.
    + cbn [forEach]. run Hrun. exact Hout.
    + intros p c a Hp.
      rewrite (Hpix p c _ (pixel_erase_alpha cur p0 p c a Hp)).
      rewrite fmap_cons. cbn [fst snd]. fold p0.
      do 2 f_equal.
      destruct (decide (p = p0)) as [-> | Hne].
      * rewrite (bool_decide_eq_true_2 (p0 = p0)) by reflexivity.
        rewrite (bool_decide_eq_true_2 (p0 ∈ p0 :: _)) by left.
        now destruct (bool_decide _).
      * rewrite (bool_decide_eq_false_2 (p = p0)) by exact Hne.
        apply (f_equal (fun b : bool => if b then 0 else a)).
        apply bool_decide_ext. rewrite elem_of_cons.
        split; [now right | intros [? | ?]; [contradiction | assumption]].
Qed.

Lemma makeRegionTransparent_run (h : heap) (img : ImageData) (arr : list Z)
    (x y : Z) (tolerance : Q) :
  image_in h img arr ->
  exists region out,
    Posterizer.floodFill img x y tolerance h = Ok (Some region, h) /\
    Forall (in_bounds img) region /\
    Posterizer.makeRegionTransparent img x y tolerance h
    = Ok (Some (mkImageData (width img) (height img) (fresh (dom h))),
          <[fresh (dom h) := out]> h) /\
    length out = length arr /\ Forall channel_ok out /\
    forall p px, pixel arr p = Some px ->
      pixel out p = Some (erase_region (width img) region p px).
Proof.
  intros Himg.
  destruct (floodFill_total h img arr x y tolerance Himg) as (region & Hfill & Hreg).
  pose proof Himg as (Hl & Hw & Hh & Hlen & Hok).
  set (n := Z.to_nat (width img * height img)).
  assert (Hn : length arr = (4 * n)%nat) by lia.
  set (l := fresh (dom h)).
  destruct (forEach_erase l h img n region eq_refl Hreg arr Hn Hok)
    as (out & Hrun & Hlo & Hoko & Hpix).
  exists region, out. split; [exact Hfill |]. split; [exact Hreg |].
  split; [| split; [lia | split; [exact Hoko |]]].
  - unfold Posterizer.makeRegionTransparent.
    run Hfill.
    run (new_Uint8ClampedArray_lookup _ _ _ Hl). fold l.
    run (new_ImageData_lookup l arr (<[l := arr]> h) _ _
           (lookup_insert_eq h l arr) Hw Hh Hlen).
    cbn [data]. run Hrun. reflexivity.
  - intros p [c a] Hp. exact (Hpix p c a Hp).
Qed.

(** C5. For a well-formed buffer, [posterizeReplace] (with a non-empty
    palette of colors), [makeRegionTransparent] and [makeColorTransparent]
    each return a buffer in which the alpha of every pixel is the alpha of
    the same pixel of the input or 0, hence never above the alpha of the
    input. *)
Theorem mapping_never_raises_alpha (h : heap) (img : ImageData) (arr : list Z)
    (palette : list Color) (x y : Z) (targetColor : Color) (tol tol' : Q) :
  image_in h img arr -> palette <> [] -> Forall color_ok palette ->
  (exists newData h' out,
     Posterizer.posterizeReplace img palette h = Ok (newData, h') /\
     h' !! data newData = Some out /\ alpha_kept_or_erased arr out) /\
  (exists newData h' out,
     Posterizer.makeRegionTransparent img x y tol h = Ok (Some newData, h') /\
     h' !! data newData = Some out /\ alpha_kept_or_erased arr out) /\
  (exists newData h' out,
     Posterizer.makeColorTransparent img targetColor tol' h = Ok (newData, h') /\
     h' !! data newData = Some out /\ alpha_kept_or_erased arr out).
Proof.
  intros Himg Hne Hpal.
  assert (Hch : forall p c a, pixel arr p = Some (c, a) -> 0 <= a).
  { intros p c a Hp. destruct Himg as (_ & _ & _ & _ & Hok).
    destruct (pixel_channel_ok _ _ _ _ Hok Hp) as [_ Ha]. unfold channel_ok in Ha. lia. }
  split; [| split].
  - destruct (posterizeReplace_run h img arr palette Himg Hne Hpal)
      as (out & Hrun & Hlen & _ & Hpix).
    eexists _, _, out. split; [exact Hrun |].
    split; [apply lookup_insert_eq |]. split; [exact Hlen |].
    intros p c a Hp. rewrite (Hpix _ _ Hp). unfold posterize_pixel. cbn [fst snd].
    destruct (a <? 128); [exists c, a; auto with zarith |].
    destruct (Posterizer.findNearestColor c palette) as [c' |];
      [exists c', a | exists c, a]; auto with zarith.
  - destruct (makeRegionTransparent_run h img arr x y tol Himg)
      as (region & out & _ & _ & Hrun & Hlen & _ & Hpix).
    eexists _, _, out. split; [exact Hrun |].
    split; [apply lookup_insert_eq |]. split; [exact Hlen |].
    intros p c a Hp. rewrite (Hpix _ _ Hp). unfold erase_region. cbn [fst snd].
    specialize (Hch _ _ _ Hp).
    destruct (bool_decide _); [exists c, 0 | exists c, a]; auto with zarith.
  - destruct (makeColorTransparent_run h img arr targetColor tol' Himg)
      as (out & Hrun & Hlen & _ & Hpix).
    eexists _, _, out. split; [exact Hrun |].
    split; [apply lookup_insert_eq |]. split; [exact Hlen |].
    intros p c a Hp. rewrite (Hpix _ _ Hp). unfold erase_pixel. cbn [fst snd].
    specialize (Hch _ _ _ Hp).
    destruct (root_leb_num _ _); [exists c, 0 | exists c, a]; auto with zarith.
Qed.

Lemma mapping_never_raises_alpha_witness :
  (exists newData h' out,
     Posterizer.posterizeReplace ex_img ex_palette ex_heap = Ok (newData, h') /\
     h' !! data newData = Some out /\ alpha_kept_or_erased ex_arr out) /\
  (exists newData h' out,
     Posterizer.makeRegionTransparent ex_img 0 0 30 ex_heap = Ok (Some newData, h') /\
     h' !! data newData = Some out /\ alpha_kept_or_erased ex_arr out) /\
  (exists newData h' out,
     Posterizer.makeColorTransparent ex_img (0, 0, 0) 10 ex_heap = Ok (newData, h') /\
     h' !! data newData = Some out /\ alpha_kept_or_erased ex_arr out).
Proof.
  apply (mapping_never_raises_alpha ex_heap ex_img ex_arr ex_palette).
  - exact ex_image_in.
  - discriminate.
  - exact ex_palette_ok.
Defined.

Lemma root_leb_num_within (c target : Color) (tol : Q) :
  root_leb_num (Posterizer.colorDistance (toQ c) (toQ target)) tol = true
  <-> within c target tol.
Proof.
  unfold root_leb_num, within.
  rewrite andb_true_iff, !Qle_bool_iff, colorDistance_sqdist. reflexivity.
Qed.

(** C10. For a well-formed buffer, [makeRegionTransparent] and
    [makeColorTransparent] return a new buffer of the same dimensions in
    which every pixel has the color of the same pixel of the input and its
    alpha or 0; the buffer of the input, as every other array, is left as
    it was.  The alpha is 0 for the pixels of the region found by
    [floodFill], and is the alpha of the input for the others.  For
    [makeColorTransparent] with a target color of channels in [[0, 255]]
    and a tolerance that is a whole number, the alpha is 0 for the pixels
    whose color is within the tolerance of the target color, and is the
    alpha of the input for the others. *)
Theorem transparency_changes_alpha_only (h : heap) (img : ImageData)
    (arr : list Z) (x y : Z) (tol : Q) (targetColor : Color) (tol' : Q) :
  image_in h img arr ->
  (exists region newData h' out,
     Posterizer.floodFill img x y tol h = Ok (Some region, h) /\
     Posterizer.makeRegionTransparent img x y tol h = Ok (Some newData, h') /\
     only_alpha_changed h img arr newData h' out /\
     forall cx cy c a, in_bounds img (cx, cy) ->
       pixel arr (pixel_index (width img) cx cy) = Some (c, a) ->
       pixel out (pixel_index (width img) cx cy)
       = Some (c, if bool_decide ((cx, cy) ∈ region) then 0 else a)) /\
  (exists newData h' out,
     Posterizer.makeColorTransparent img targetColor tol' h = Ok (newData, h') /\
     only_alpha_changed h img arr newData h' out /\
     forall (t : Z) p c a,
       color_ok targetColor -> tol' = inject_Z t -> pixel arr p = Some (c, a) ->
       (within c targetColor tol' -> pixel out p = Some (c, 0)) /\
       (~ within c targetColor tol' -> pixel out p = Some (c, a))).
Proof.
  intros Himg. pose proof Himg as (Hl & Hw & Hh & Hlen & Hok).
  pose proof (fresh_heap_ne h _ _ Hl) as Hfresh.
  assert (Hfresh' : fresh (dom h) <> data img) by (intros E; now apply Hfresh).
  assert (Hframe : forall out l, l <> fresh (dom h) ->
                     <[fresh (dom h) := out]> h !! l = h !! l)
    by (intros out l Hne; now apply lookup_insert_ne).
  split.
  - destruct (makeRegionTransparent_run h img arr x y tol Himg)
      as (region & out & Hfill & Hreg & Hrun & Hlo & Hoko & Hpix).
    exists region. eexists _, _, out.
    split; [exact Hfill |]. split; [exact Hrun |]. split.
    + split; [reflexivity | split; [reflexivity |]]. cbn [data].
      split; [| split; [exact Hfresh' | split; [| split; [apply Hframe |]]]].
      * repeat split; auto; cbn [data width height];
          [apply lookup_insert_eq | lia].
      * now rewrite lookup_insert_ne by exact Hfresh'.
      * intros p c a Hp. rewrite (Hpix _ _ Hp). unfold erase_region. cbn [fst snd].
        destruct (bool_decide _); eauto.
    + intros cx cy c a [Hx Hy] Hp. simpl in Hx, Hy.
      rewrite (Hpix _ _ Hp). unfold erase_region. cbn [fst snd].
      do 2 f_equal. apply (f_equal (fun b : bool => if b then 0 else a)).
      apply bool_decide_ext. rewrite list_elem_of_fmap. split.
      * intros ([dx dy] & Heq & Hin). cbn [fst snd] in Heq.
        rewrite Forall_forall in Hreg. destruct (Hreg _ Hin) as [Hdx Hdy].
        simpl in Hdx, Hdy. unfold pixel_index in Heq.
        assert (cy * width img + cx = dy * width img + dx) by nia.
        assert (cy = dy) by nia. assert (cx = dx) by nia. now subst.
      * intros Hin. exists (cx, cy). auto.
  - destruct (makeColorTransparent_run h img arr targetColor tol' Himg)
      as (out & Hrun & Hlo & Hoko & Hpix).
    eexists _, _, out. split; [exact Hrun |]. split.
    + split; [reflexivity | split; [reflexivity |]]. cbn [data].
      split; [| split; [exact Hfresh' | split; [| split; [apply Hframe |]]]].
      * repeat split; auto; cbn [data width height];
          [apply lookup_insert_eq | lia].
      * now rewrite lookup_insert_ne by exact Hfresh'.
      * intros p c a Hp. rewrite (Hpix _ _ Hp). unfold erase_pixel. cbn [fst snd].
        destruct (root_leb_num _ _); eauto.
    + intros _ p c a _ _ Hp. rewrite (Hpix _ _ Hp). unfold erase_pixel. cbn [fst snd].
      destruct (root_leb_num _ _) eqn:E.
      * apply root_leb_num_within in E. split; [auto | contradiction].
      * split; [| auto]. intros Hin. apply root_leb_num_within in Hin. congruence.
Qed.

Lemma transparency_changes_alpha_only_witness :
  (exists region newData h' out,
     Posterizer.floodFill ex_img 0 0 30 ex_heap = Ok (Some region, ex_heap) /\
     Posterizer.makeRegionTransparent ex_img 0 0 30 ex_heap = Ok (Some newData, h') /\
     only_alpha_changed ex_heap ex_img ex_arr newData h' out /\
     forall cx cy c a, in_bounds ex_img (cx, cy) ->
       pixel ex_arr (pixel_index (width ex_img) cx cy) = Some (c, a) ->
       pixel out (pixel_index (width ex_img) cx cy)
       = Some (c, if bool_decide ((cx, cy) ∈ region) then 0 else a)) /\
  (exists newData h' out,
     Posterizer.makeColorTransparent ex_img (0, 0, 0) 10 ex_heap = Ok (newData, h') /\
     only_alpha_changed ex_heap ex_img ex_arr newData h' out /\
     forall (t : Z) p c a,
       color_ok (0, 0, 0) -> 10%Q = inject_Z t -> pixel ex_arr p = Some (c, a) ->
       (within c (0, 0, 0) 10 -> pixel out p = Some (c, 0)) /\
       (~ within c (0, 0, 0) 10 -> pixel out p = Some (c, a))).
Proof.
  apply (transparency_changes_alpha_only ex_heap ex_img ex_arr 0 0 30 (0, 0, 0) 10).
  exact ex_image_in.
Defined.

(** ** Edge cleaning *)

Lemma occurrences_snoc (k c : Color) (ns : list Color) :
  occurrences k (ns ++ [c])
  = occurrences k ns + (if decide (c = k) then 1 else 0).
Proof.
  unfold occurrences. rewrite filter_app, length_app, filter_cons, filter_nil.
  destruct (decide (c = k)); simpl; lia.
Qed.

Lemma occurrences_pos (c : Color) (ns : list Color) :
  c ∈ ns -> 0 < occurrences c ns.
Proof.
  intros Hin. unfold occurrences.
  assert (H : c ∈ filter (fun c' => c' = c) ns) by (apply list_elem_of_filter; auto).
  destruct (filter (fun c' => c' = c) ns); [inversion H | simpl; lia].
Qed.

Lemma occurrences_zero (c : Color) (ns : list Color) :
  c ∉ ns -> occurrences c ns = 0.
Proof.
  intros Hnin. unfold occurrences.
  destruct (filter (fun c' => c' = c) ns) as [| d l] eqn:E; [reflexivity |].
  exfalso. assert (H : d ∈ filter (fun c' => c' = c) ns) by (rewrite E; left).
  apply list_elem_of_filter in H as [-> H]. contradiction.
Qed.

Lemma bump_counted (F : list Color) (g : Color -> Z) (c : Color) :
  NoDup F -> c ∈ F ->
  Posterizer.bump c (map (fun k => (k, g k)) F)
  = map (fun k => (k, if decide (k = c) then g k + 1 else g k)) F.
Proof.
  intros Hnd Hin. induction F as [| k F IH]; [inversion Hin |].
  apply NoDup_cons in Hnd as [Hk Hnd]. simpl.
  destruct (decide (k = c)) as [-> | Hne].
  - f_equal. apply map_ext_in. intros k Hk'. apply list_elem_of_In in Hk'.
    destruct (decide (k = c)) as [-> | ?]; [contradiction | reflexivity].
  - f_equal. apply IH; [exact Hnd |].
    apply elem_of_cons in Hin as [-> | Hin]; [contradiction | exact Hin].
Qed.

Lemma bump_new (F : list Color) (g : Color -> Z) (c : Color) :
  c ∉ F ->
  Posterizer.bump c (map (fun k => (k, g k)) F)
  = map (fun k => (k, g k)) F ++ [(c, 1)].
Proof.
  intros Hnin. induction F as [| k F IH]; [reflexivity |].
  apply not_elem_of_cons in Hnin as [Hne Hnin]. simpl.
  destruct (decide (k = c)) as [-> | _]; [contradiction |].
  f_equal. now apply IH.
Qed.

Lemma first_met_spec (ns : list Color) :
  NoDup (first_met ns) /\ forall c, c ∈ first_met ns <-> c ∈ ns.
Proof.
  unfold first_met. induction ns as [| c ns [Hnd Hel]] using rev_ind.
  - split; [constructor | reflexivity].
  - rewrite foldl_app. cbn [foldl].
    destruct (decide (c ∈ _)) as [Hin | Hnin].
    + split; [exact Hnd |]. intros d. rewrite elem_of_app, list_elem_of_singleton, Hel.
      split; [auto |]. intros [? | ->]; [assumption | now apply Hel].
    + split.
      * apply NoDup_app. repeat split; [exact Hnd | | apply NoDup_singleton].
        intros d Hd Hd'. apply list_elem_of_singleton in Hd' as ->. contradiction.
      * intros d. rewrite !elem_of_app, Hel. reflexivity.
Qed.

Lemma tally_first_met (ns : list Color) :
  tally ns = map (fun k => (k, occurrences k ns)) (first_met ns).
Proof.
  induction ns as [| c ns IH] using rev_ind; [reflexivity |].
  destruct (first_met_spec ns) as [Hnd Hel].
  unfold tally, first_met in *. rewrite !foldl_app. cbn [foldl]. rewrite IH.
  destruct (decide (c ∈ _)) as [Hin | Hnin].
  - rewrite bump_counted by assumption. apply map_ext. intros k.
    rewrite occurrences_snoc.
    destruct (decide (k = c)) as [Hkc | Hkc], (decide (c = k)) as [E | E];
      try congruence; f_equal; lia.
  - rewrite bump_new by assumption. rewrite map_app. cbn [map]. f_equal.
    + apply map_ext_in. intros k Hk. apply list_elem_of_In in Hk.
      rewrite occurrences_snoc. f_equal.
      destruct (decide (c = k)) as [<- | ?]; [contradiction | lia].
    + rewrite occurrences_snoc, occurrences_zero.
      * destruct (decide (c = c)); [reflexivity | congruence].
      * intros Hc. apply Hnin. now apply Hel.
Qed.

Lemma neighborOffsets_eq :
  Posterizer.neighborOffsets
  = [(-1, -1); (-1, 0); (-1, 1); (0, -1); (0, 1); (1, -1); (1, 0); (1, 1)].
Proof. reflexivity. Qed.

Section MostCommon.

Variable g : Color -> Z.

Let pick : Z * option Color -> Color * Z -> Z * option Color :=
  fun '(maxCount, bestColor) '(colorKey, count) =>
    if count >? maxCount then (count, Some colorKey)
    else (maxCount, bestColor).

Lemma most_fold (p0 : option Color) (F : list Color) :
  F <> [] -> (forall k, k ∈ F -> 0 < g k) ->
  exists (j : nat) (best : Color),
    F !! j = Some best /\
    foldl pick (0, p0) (map (fun k => (k, g k)) F) = (g best, Some best) /\
    (forall j' c', F !! j' = Some c' -> g c' <= g best) /\
    (forall j' c', (j' < j)%nat -> F !! j' = Some c' -> g c' < g best).
Proof.
  induction F as [| x F' IH] using rev_ind; [congruence | intros _ Hpos].
  rewrite map_app, foldl_app. cbn [map foldl].
  assert (Hx : 0 < g x) by (apply Hpos, elem_of_app; right; left).
  destruct (decide (F' = [])) as [-> | Hne].
  - cbn [map foldl pick].
    destruct (Z.gtb_spec (g x) 0) as [_ | ?]; [| lia].
    exists 0%nat, x. repeat split; try lia.
    intros [| j'] c' H; simpl in H; [| discriminate].
    injection H as <-. lia.
  - destruct (IH Hne) as (j & best & Hj & Hfold & Hmax & Hfirst).
    { intros k Hk. apply Hpos, elem_of_app. now left. }
    rewrite Hfold. cbn [pick].
    destruct (Z.gtb_spec (g x) (g best)) as [Hgt | Hle].
    + exists (length F'), x. repeat split.
      * rewrite lookup_app_r by lia. now rewrite Nat.sub_diag.
      * intros j' c' H. apply lookup_app_Some in H as [H | [_ H]].
        -- specialize (Hmax _ _ H). lia.
        -- destruct (j' - length F')%nat; simpl in H; [| discriminate].
           injection H as <-. lia.
      * intros j' c' Hlt H. rewrite lookup_app_l in H by exact Hlt.
        specialize (Hmax _ _ H). lia.
    + exists j, best. repeat split.
      * apply lookup_app_l_Some. exact Hj.
      * intros j' c' H. apply lookup_app_Some in H as [H | [_ H]].
        -- exact (Hmax _ _ H).
        -- destruct (j' - length F')%nat; simpl in H; [| discriminate].
           injection H as <-. exact Hle.
      * intros j' c' Hlt H. apply Hfirst with j'; [exact Hlt |].
        apply lookup_lt_Some in Hj.
        rewrite lookup_app_l in H by lia. exact H.
Qed.

End MostCommon.

Lemma mostCommon_plurality (palette : list Color) (ns : list Color) :
  ns <> [] ->
  exists best, Posterizer.mostCommon palette (tally ns) = Some best /\
               plurality ns best.
Proof.
  intros Hne. destruct (first_met_spec ns) as [_ Hel].
  assert (HF : first_met ns <> []).
  { destruct ns as [| c ns]; [congruence |].
    intros E. assert (H : c ∈ first_met (c :: ns)) by (apply Hel; left).
    rewrite E in H. inversion H. }
  destruct (most_fold (fun k => occurrences k ns) (head palette) (first_met ns) HF)
    as (j & best & Hj & Hfold & Hmax & Hfirst).
  { intros k Hk. apply occurrences_pos. now apply Hel. }
  exists best. split.
  - unfold Posterizer.mostCommon. rewrite tally_first_met.
    match goal with |- snd ?t = _ => replace t with (occurrences best ns, Some best) end.
    reflexivity.
  - exists j. auto.
Qed.

Lemma root_gtb_num_5 (d : root) : root_gtb_num d 5 = Qltb 25 (radicand d).
Proof. reflexivity. Qed.

Lemma Qltb_cases (a b : Q) :
  (Qltb a b = true /\ (a < b)%Q) \/ (Qltb a b = false /\ (b <= a)%Q).
Proof.
  destruct (Qltb a b) eqn:E; [left | right]; split; auto.
  - now apply Qltb_lt.
  - now apply Qltb_ge.
Qed.

Lemma exceeds_step (m : bound) (d : root) :
  Posterizer.exceeds (if below d m then Finite d else m) 5
  = Posterizer.exceeds m 5 && Qltb 25 (radicand d).
Proof.
  destruct m as [| m']; cbn [below Posterizer.exceeds]; [reflexivity |].
  unfold root_ltb. rewrite !root_gtb_num_5.
  destruct (Qltb_cases (radicand d) (radicand m')) as [[-> H1] | [-> H1]];
    cbn [Posterizer.exceeds]; rewrite ?root_gtb_num_5;
    destruct (Qltb_cases 25 (radicand d)) as [[-> H2] | [-> H2]];
    destruct (Qltb_cases 25 (radicand m')) as [[-> H3] | [-> H3]];
    try reflexivity; exfalso; lra.
Qed.

Lemma exceeds_fold (px : Color) (palette : list Color) (m : bound) :
  Posterizer.exceeds
    (foldl (fun minDist color =>
              let dist := Posterizer.colorDistance (toQ px) (toQ color) in
              if below dist minDist then Finite dist else minDist) m palette) 5
  = Posterizer.exceeds m 5 && forallb (fun c => 25 <? sqdist px c) palette.
Proof.
  revert m. induction palette as [| c palette IH]; intros m.
  - simpl. now rewrite andb_true_r.
  - cbn [foldl forallb]. rewrite IH. cbv zeta. rewrite exceeds_step.
    rewrite <- andb_assoc. do 2 f_equal.
    destruct (Qltb_cases 25 (radicand (Posterizer.colorDistance (toQ px) (toQ c))))
      as [[-> H] | [-> H]]; rewrite colorDistance_sqdist in H.
    + symmetry. apply Z.ltb_lt. rewrite Zlt_Qlt. exact H.
    + symmetry. apply Z.ltb_ge. rewrite Zle_Qle. exact H.
Qed.

Lemma exceeds_far_from (px : Color) (palette : list Color) :
  Posterizer.exceeds (Posterizer.closestDistance px palette) 5 = true
  <-> far_from px palette.
Proof.
  unfold Posterizer.closestDistance. rewrite exceeds_fold. cbn [Posterizer.exceeds andb].
  rewrite forallb_forall. unfold far_from. split.
  - intros H c Hc. apply Z.ltb_lt, H. now apply list_elem_of_In.
  - intros H c Hc. apply Z.ltb_lt, H. now apply list_elem_of_In.
Qed.

Lemma forEach_nested {A B} (ys : list A) (xs : list B) (body : A -> B -> M unit)
    (h : heap) :
  forEach ys (fun y => forEach xs (body y)) h
  = forEach (y ← ys; (fun x => (y, x)) <$> xs) (fun c => body c.1 c.2) h.
Proof.
  revert h. induction ys as [| y ys IH]; intros h; [reflexivity |].
  rewrite bind_cons, forEach_app. cbn [forEach]. unfold bind.
  rewrite (forEach_fmap (fun x => (y, x)) xs (fun c => body c.1 c.2) h). cbn [fst snd].
  destruct (forEach xs (fun x => body y x) h) as [[[] h'] | e] eqn:E.
  - replace (forEach xs (body y) h) with (@Ok (unit * heap) (tt, h')) by (rewrite <- E; reflexivity).
    apply IH.
  - replace (forEach xs (body y) h) with (@Throw (unit * heap) e) by (rewrite <- E; reflexivity).
    reflexivity.
Qed.

Lemma elem_of_interior_cells (w ht y x : Z) :
  (y, x) ∈ interior_cells w ht <-> 1 <= x < w - 1 /\ 1 <= y < ht - 1.
Proof.
  unfold interior_cells. rewrite list_elem_of_bind. split.
  - intros (y' & Hin & Hy'). apply list_elem_of_fmap in Hin as (x' & [= -> ->] & Hx').
    apply elem_of_zrange_unit in Hy', Hx'. lia.
  - intros [Hx Hy]. exists y. split.
    + apply list_elem_of_fmap. exists x. split; [reflexivity |].
      apply elem_of_zrange_unit. lia.
    + apply elem_of_zrange_unit. lia.
Qed.

Lemma NoDup_interior_cells (w ht : Z) : NoDup (interior_cells w ht).
Proof.
  unfold interior_cells. apply NoDup_bind.
  - intros y1 y2 c _ _ H1 H2.
    apply list_elem_of_fmap in H1 as (x1 & -> & _).
    apply list_elem_of_fmap in H2 as (x2 & [= -> _] & _). reflexivity.
  - intros y _. apply NoDup_fmap_2; [| apply NoDup_zrange_unit].
    intros a b [= ->]. reflexivity.
  - apply NoDup_zrange_unit.
Qed.

Lemma NoDup_interior_pixels (w ht : Z) :
  NoDup ((fun c => pixel_index w c.2 c.1) <$> interior_cells w ht).
Proof.
  apply NoDup_fmap_2_strong; [| apply NoDup_interior_cells].
  intros [y1 x1] [y2 x2] H1 H2 E. cbn [fst snd] in E.
  apply elem_of_interior_cells in H1, H2. unfold pixel_index in E.
  assert (y1 * w + x1 = y2 * w + x2) by nia.
  assert (y1 = y2) by nia. assert (x1 = x2) by nia. now subst.
Qed.

Lemma neighbors_run (h : heap) (src : loc) (arr : list Z) (palette : list Color)
    (w ht x y : Z) :
  h !! src = Some arr -> Z.of_nat (length arr) = 4 * w * ht -> palette <> [] ->
  1 <= x < w - 1 -> 1 <= y < ht - 1 ->
  forall offs acc,
    Forall (fun off : Z * Z => -1 <= off.1 <= 1 /\ -1 <= off.2 <= 1) offs ->
    foldM (fun neighborColors '(dy, dx) =>
             let nIdx := ((y + dy) * w + (x + dx)) * 4 in
             do nr <- get src nIdx;
             do ng <- get src (nIdx + 1);
             do nb <- get src (nIdx + 2);
             do closestColor <-
               Posterizer.defined (Posterizer.findNearestColor (nr, ng, nb) palette);
             ret (Posterizer.bump closestColor neighborColors)) acc offs h
    = Ok (foldl (fun acc c => Posterizer.bump c acc) acc
            (neighbor_color palette arr w x y <$> offs), h)
    /\ Forall2 (neighbor_rel palette arr w x y) offs
         (neighbor_color palette arr w x y <$> offs).
Proof.
  intros Hl Hlen Hne Hx Hy offs.
  induction offs as [| [dy dx] offs IH]; intros acc Hoffs.
  - split; [reflexivity | constructor].
  - apply Forall_cons in Hoffs as [[Hdy Hdx] Hoffs]. cbn [fst snd] in Hdy, Hdx.
    destruct (pixel_read arr w ht (x + dx) (y + dy) Hlen ltac:(lia) ltac:(lia))
      as (c & a & Hpx & Hr & Hg & Hb & _).
    destruct (findNearestColor_first_nearest c palette Hne) as (nearest & Hnear & Hfn).
    assert (Hnc : neighbor_color palette arr w x y (dy, dx) = nearest).
    { unfold neighbor_color. cbn [fst snd]. rewrite Hpx, Hnear. reflexivity. }
    destruct (IH (Posterizer.bump nearest acc) Hoffs) as [Hrun Hrel].
    split.
    + cbn [foldM]. cbv zeta. unfold bind at 1.
      run (get_lookup _ _ _ _ _ Hl Hr).
      run (get_lookup _ _ _ _ _ Hl Hg).
      run (get_lookup _ _ _ _ _ Hl Hb).
      replace (red c, green c, blue c) with c by (now destruct c as [[? ?] ?]).
      rewrite Hnear. cbn [Posterizer.defined].
      unfold bind at 1. unfold ret at 1 2.
      cbv zeta in Hrun. rewrite Hrun. rewrite fmap_cons. cbn [foldl]. now rewrite Hnc.
    + rewrite fmap_cons. constructor; [| exact Hrel].
      rewrite Hnc. exists c, a. auto.
Qed.

Lemma neighborOffsets_range :
  Forall (fun off : Z * Z => -1 <= off.1 <= 1 /\ -1 <= off.2 <= 1)
         Posterizer.neighborOffsets.
Proof.
  rewrite neighborOffsets_eq.
  repeat (apply List.Forall_cons; [simpl; lia |]). apply List.Forall_nil.
Qed.

Lemma index_coords (w x y : Z) :
  0 <= x < w -> 0 <= y ->
  Z.of_nat (pixel_index w x y) mod w = x /\ Z.of_nat (pixel_index w x y) / w = y.
Proof.
  intros Hx Hy. unfold pixel_index. rewrite Z2Nat.id by nia. split.
  - symmetry. apply Z.mod_unique with y; lia.
  - symmetry. apply Z.div_unique with x; lia.
Qed.

Section CleanPixel.

Variable palette : list Color.
Variable arr : list Z.
Variables w ht : Z.

Hypothesis Hlen : Z.of_nat (length arr) = 4 * w * ht.
Hypothesis Hne : palette <> [].
Hypothesis Hpal : Forall color_ok palette.

Lemma neighbor_colors_rel (x y : Z) :
  1 <= x < w - 1 -> 1 <= y < ht - 1 ->
  Forall2 (neighbor_rel palette arr w x y) Posterizer.neighborOffsets
          (neighbor_color palette arr w x y <$> Posterizer.neighborOffsets).
Proof.
  intros Hx Hy. apply Forall2_fmap_r, Forall_Forall2_diag.
  eapply Forall_impl; [apply neighborOffsets_range |].
  intros [dy dx] [Hdy Hdx]. cbn [fst snd] in Hdy, Hdx.
  destruct (pixel_read arr w ht (x + dx) (y + dy) Hlen ltac:(lia) ltac:(lia))
    as (c & a & Hpx & _).
  destruct (findNearestColor_first_nearest c palette Hne) as (nearest & Hnear & Hfn).
  exists c, a. cbn [fst snd]. split; [exact Hpx |].
  unfold neighbor_color. cbn [fst snd]. now rewrite Hpx, Hnear.
Qed.

Lemma neighbor_rel_elem (x y : Z) (offs : list (Z * Z)) (ns : list Color) (c : Color) :
  Forall2 (neighbor_rel palette arr w x y) offs ns -> c ∈ ns -> c ∈ palette.
Proof.
  intros H Hc. apply list_elem_of_lookup in Hc as [i Hi].
  destruct (Forall2_lookup_r _ _ _ _ _ H Hi) as (off & _ & nc & na & _ & Hfn).
  now apply first_nearest_elem in Hfn.
Qed.

Lemma plurality_elem (ns : list Color) (best : Color) :
  plurality ns best -> best ∈ ns.
Proof.
  intros (j & Hj & _). apply (proj2 (first_met_spec ns)).
  apply list_elem_of_lookup. eauto.
Qed.

Lemma clean_pixel_far (x y : Z) (c : Color) (a : Z) :
  1 <= x < w - 1 -> 1 <= y < ht - 1 -> far_from c palette ->
  exists best,
    Posterizer.mostCommon palette
      (tally (neighbor_color palette arr w x y <$> Posterizer.neighborOffsets))
    = Some best /\
    plurality (neighbor_color palette arr w x y <$> Posterizer.neighborOffsets) best /\
    color_ok best /\
    clean_pixel palette arr w (pixel_index w x y) (c, a) = (best, a).
Proof.
  intros Hx Hy Hfar.
  set (ns := neighbor_color palette arr w x y <$> Posterizer.neighborOffsets).
  assert (Hns : ns <> []) by (unfold ns; rewrite neighborOffsets_eq; discriminate).
  destruct (mostCommon_plurality palette ns Hns) as (best & Hbest & Hpl).
  exists best. split; [exact Hbest |]. split; [exact Hpl |]. split.
  - rewrite Forall_forall in Hpal. apply Hpal.
    apply (neighbor_rel_elem x y Posterizer.neighborOffsets ns);
      [apply neighbor_colors_rel; auto |].
    now apply plurality_elem.
  - unfold clean_pixel. cbn [fst snd].
    destruct (index_coords w x y ltac:(lia) ltac:(lia)) as [-> ->].
    rewrite (proj2 (exceeds_far_from c palette) Hfar).
    fold ns. now rewrite Hbest.
Qed.

Lemma clean_pixel_near (p : nat) (c : Color) (a : Z) :
  ~ far_from c palette -> clean_pixel palette arr w p (c, a) = (c, a).
Proof.
  intros Hnear. unfold clean_pixel. cbn [fst snd].
  destruct (Posterizer.exceeds _ 5) eqn:E; [| reflexivity].
  apply exceeds_far_from in E. contradiction.
Qed.

End CleanPixel.

Lemma cleanEdges_run (h : heap) (img : ImageData) (arr : list Z)
    (palette : list Color) :
  image_in h img arr -> palette <> [] -> Forall color_ok palette ->
  exists out,
    Posterizer.cleanEdges img palette h
    = Ok (mkImageData (width img) (height img) (fresh (dom h)),
          <[fresh (dom h) := out]> h) /\
    length out = length arr /\ Forall channel_ok out /\
    forall p px, pixel arr p = Some px ->
      pixel out p
      = Some (if bool_decide
                   (p ∈ (fun c => pixel_index (width img) c.2 c.1)
                        <$> interior_cells (width img) (height img))
              then clean_pixel palette arr (width img) p px else px).
Proof.
  intros Himg Hne Hpal.
  pose proof Himg as (Hl & Hw & Hh & Hlen & Hok).
  set (n := Z.to_nat (width img * height img)).
  assert (Hn : length arr = (4 * n)%nat) by lia.
  set (l := fresh (dom h)).
  assert (Hfresh : l <> data img)
    by (intros E; apply (fresh_heap_ne h _ _ Hl); now rewrite <- E).
  unfold Posterizer.cleanEdges. cbv zeta.
  run (new_Uint8ClampedArray_lookup _ _ _ Hl). fold l.
  run (new_ImageData_lookup l arr (<[l := arr]> h) _ _
         (lookup_insert_eq h l arr) Hw Hh Hlen).
  cbn [data]. unfold for_loop. unfold bind at 1.
  rewrite forEach_nested. fold (interior_cells (width img) (height img)).
  match goal with
  | |- context [forEach ?xs ?body] =>
      destruct (forEach_pixels (fun c : Z * Z => pixel_index (width img) c.2 c.1)
                  (clean_pixel palette arr (width img)) body l h n xs arr)
        as (out & Hrun & Hlo & Hoko & Hpix); auto
  end.
  - apply NoDup_interior_pixels.
  - intros [y x] Hc. apply elem_of_interior_cells in Hc as [Hx Hy].
    cbn [fst snd]. unfold pixel_index, n. nia.
  - intros [y x] [c a] Hc Hp [Hcok Ha]. cbn [fst snd] in *.
    apply elem_of_interior_cells in Hc as [Hx Hy].
    destruct (Posterizer.exceeds (Posterizer.closestDistance c palette) 5) eqn:E.
    + apply exceeds_far_from in E.
      destruct (clean_pixel_far palette arr _ _ Hlen Hne Hpal x y c a Hx Hy E)
        as (best & _ & _ & Hbok & ->). now split.
    + rewrite clean_pixel_near; [now split |].
      intros Hfar. apply exceeds_far_from in Hfar. congruence.
  - intros [y x] cur [c a] Hc Hcur Hokc Hpx Harr. cbn [fst snd] in *.
    apply elem_of_interior_cells in Hc as [Hx Hy].
    set (p := pixel_index (width img) x y) in *.
    assert (Hsrc : <[l := cur]> h !! data img = Some arr)
      by (now rewrite lookup_insert_ne).
    destruct (pixel_read arr _ _ x y Hlen ltac:(lia) ltac:(lia))
      as (c' & a' & Hpa & Hr & Hg & Hb & _).
    fold p in Hpa. assert (c' = c) by congruence. subst c'.
    run (get_lookup _ _ _ _ _ Hsrc Hr).
    run (get_lookup _ _ _ _ _ Hsrc Hg).
    run (get_lookup _ _ _ _ _ Hsrc Hb).
    replace (red c, green c, blue c) with c by (now destruct c as [[? ?] ?]).
    destruct (Posterizer.exceeds _ 5) eqn:E.
    + apply exceeds_far_from in E.
      destruct (clean_pixel_far palette arr _ _ Hlen Hne Hpal x y c a Hx Hy E)
        as (best & Hbest & _ & (Hbr & Hbg & Hbb) & Hclean).
      fold p in Hclean. rewrite Hclean.
      destruct (neighbors_run _ _ arr palette _ _ x y Hsrc Hlen Hne Hx Hy
                  Posterizer.neighborOffsets [] neighborOffsets_range) as [Hnb _].
      cbv zeta in Hnb. run Hnb.
      fold (tally (neighbor_color palette arr (width img) x y
                     <$> Posterizer.neighborOffsets)).
      rewrite Hbest. cbn [Posterizer.defined]. unfold bind at 1. unfold ret at 1.
      assert (Hi : (y * width img + x) * 4 = Z.of_nat (4 * p))
        by (unfold p, pixel_index; nia).
      run (set_channel l cur h _ (4 * p) _ Hi Hbr).
      run (set_channel l (<[(4 * p)%nat := red best]> cur) h
             ((y * width img + x) * 4 + 1) (4 * p + 1) _ ltac:(lia) Hbg).
      rewrite (set_channel l _ h ((y * width img + x) * 4 + 2) (4 * p + 2) _
                 ltac:(lia) Hbb).
      unfold set_pixel. cbn [fst snd].
      do 3 f_equal. symmetry. apply list_insert_id.
      apply pixel_Some in Hpx as (_ & _ & _ & Ha).
      now rewrite !list_lookup_insert_ne by lia.
    + rewrite clean_pixel_near.
      * now rewrite (set_pixel_id _ _ _ Hpx).
      * intros Hfar. apply exceeds_far_from in Hfar. congruence.
  - exists out. repeat split; [| lia | auto | exact Hpix].
    now rewrite Hrun.
Qed.

Lemma interior_pixel_index (img : ImageData) (x y : Z) :
  in_bounds img (x, y) ->
  pixel_index (width img) x y
    ∈ (fun c : Z * Z => pixel_index (width img) c.2 c.1)
        <$> interior_cells (width img) (height img)
  <-> interior img x y.
Proof.
  intros [Hx Hy]. cbn [fst snd] in Hx, Hy. rewrite list_elem_of_fmap. split.
  - intros ([y' x'] & E & Hc). cbn [fst snd] in E.
    apply elem_of_interior_cells in Hc as [Hx' Hy']. unfold pixel_index in E.
    assert (y * width img + x = y' * width img + x') by nia.
    assert (y = y') by nia. assert (x = x') by nia. subst. now split.
  - intros [Hx' Hy']. exists (y, x). split; [reflexivity |].
    now apply elem_of_interior_cells.
Qed.

(** C9, amended. For a well-formed buffer and a non-empty palette of
    colors, [cleanEdges] returns a new well-formed buffer of the same
    dimensions.  A pixel that is not on the border of the image and whose
    color is farther than 5 from every palette color takes the most
    frequent color among the nearest palette colors of its eight
    neighbours in the input buffer, the color met first (rows from top to
    bottom, each from left to right) winning a tie, and keeps its alpha.
    Every other pixel, in particular every pixel of the border, is
    unchanged. *)
Theorem cleanEdges_interior (h : heap) (img : ImageData) (arr : list Z)
    (palette : list Color) :
  image_in h img arr -> palette <> [] -> Forall color_ok palette ->
  exists newData h' out,
    Posterizer.cleanEdges img palette h = Ok (newData, h') /\
    image_in h' newData out /\
    width newData = width img /\ height newData = height img /\
    forall x y c a,
      in_bounds img (x, y) ->
      pixel arr (pixel_index (width img) x y) = Some (c, a) ->
      (interior img x y -> far_from c palette ->
         exists ns best,
           Forall2 (neighbor_rel palette arr (width img) x y) neighbours ns /\
           plurality ns best /\
           pixel out (pixel_index (width img) x y) = Some (best, a)) /\
      (~ (interior img x y /\ far_from c palette) ->
         pixel out (pixel_index (width img) x y) = Some (c, a)).
Proof.
  intros Himg Hne Hpal.
  destruct (cleanEdges_run h img arr palette Himg Hne Hpal)
    as (out & Hrun & Hlo & Hoko & Hpix).
  pose proof Himg as (Hl & Hw & Hh & Hlen & Hok).
  eexists _, _, out. split; [exact Hrun |].
  split; [| split; [reflexivity | split; [reflexivity |]]].
  - repeat split; auto; cbn [data width height]; [apply lookup_insert_eq | lia].
  - intros x y c a Hin Hp. rewrite (Hpix _ _ Hp).
    pose proof (interior_pixel_index img x y Hin) as Hint. split.
    + intros Hi Hfar. rewrite bool_decide_eq_true_2 by (now apply Hint).
      destruct Hi as [Hx Hy].
      destruct (clean_pixel_far palette arr _ _ Hlen Hne Hpal x y c a Hx Hy Hfar)
        as (best & _ & Hpl & _ & ->).
      eexists _, best. split; [| split; [exact Hpl | reflexivity]].
      unfold neighbours. rewrite <- neighborOffsets_eq.
      now apply (neighbor_colors_rel palette arr _ _ Hlen Hne).
    + intros Hnot. destruct (bool_decide _) eqn:E; [| reflexivity].
      apply bool_decide_eq_true in E. apply Hint in E.
      rewrite clean_pixel_near; [reflexivity |]. intros Hfar. apply Hnot. now split.
Qed.

Lemma ex3_image_in : image_in ex3_heap ex3_img ex3_arr.
Proof.
  repeat split; try reflexivity.
  unfold ex3_arr.
  repeat (apply List.Forall_cons; [unfold channel_ok; lia |]).
  apply List.Forall_nil.
Defined.

Lemma cleanEdges_interior_witness :
  exists newData h' out,
    Posterizer.cleanEdges ex3_img ex_palette ex3_heap = Ok (newData, h') /\
    image_in h' newData out /\
    width newData = width ex3_img /\ height newData = height ex3_img /\
    forall x y c a,
      in_bounds ex3_img (x, y) ->
      pixel ex3_arr (pixel_index (width ex3_img) x y) = Some (c, a) ->
      (interior ex3_img x y -> far_from c ex_palette ->
         exists ns best,
           Forall2 (neighbor_rel ex_palette ex3_arr (width ex3_img) x y) neighbours ns /\
           plurality ns best /\
           pixel out (pixel_index (width ex3_img) x y) = Some (best, a)) /\
      (~ (interior ex3_img x y /\ far_from c ex_palette) ->
         pixel out (pixel_index (width ex3_img) x y) = Some (c, a)).
Proof.
  apply (cleanEdges_interior ex3_heap ex3_img ex3_arr ex_palette).
  - exact ex3_image_in.
  - discriminate.
  - exact ex_palette_ok.
Defined.

(** C9 as stated fails on the border: the corner pixel of this 3 x 3 image
    is farther than 5 from every palette color, and [cleanEdges] leaves it
    with its color, which is no palette color; the pixel in the middle is
    reassigned. *)
Lemma cleanEdges_border_counterexample :
  exists newData h' out,
    Posterizer.cleanEdges ex3_img ex_palette ex3_heap = Ok (newData, h') /\
    h' !! data newData = Some out /\
    pixel ex3_arr 0 = Some ((10, 10, 10), 255) /\
    far_from (10, 10, 10) ex_palette /\
    pixel out 0 = Some ((10, 10, 10), 255) /\
    ((10, 10, 10) ∉ ex_palette) /\
    pixel ex3_arr 4 = Some ((100, 100, 100), 255) /\
    pixel out 4 = Some ((0, 0, 0), 255).
Proof.
  eexists _, _, _. split; [vm_compute; reflexivity |].
  split; [reflexivity |].
  split; [reflexivity |]. split.
  - intros c Hc. unfold ex_palette in Hc.
    repeat (apply elem_of_cons in Hc as [-> | Hc]); try reflexivity. inversion Hc.
  - split; [reflexivity |]. split; [| split; reflexivity].
    intros Hc. unfold ex_palette in Hc.
    repeat (apply elem_of_cons in Hc as [[=] | Hc]). inversion Hc.
Qed.

(** ** Path simplification *)

Section Simplify.

Import SVGExporter.

Lemma farthest_index (points : list point) (first last : point) (idxs : list nat)
    (m0 : root) (i0 : nat) :
  let visit : root * nat -> nat -> root * nat :=
    fun '(maxDist, maxIndex) i =>
      match points !! i with
      | Some p =>
          let dist := perpendicularDistance p first last in
          if root_gtb dist maxDist then (dist, i) else (maxDist, maxIndex)
      | None => (maxDist, maxIndex)
      end in
  foldl visit (m0, i0) idxs = (m0, i0) \/ (foldl visit (m0, i0) idxs).2 ∈ idxs.
Proof.
  intros visit. revert m0 i0.
  induction idxs as [| i idxs IH]; intros m0 i0; [now left |].
  cbn [foldl]. destruct (visit (m0, i0) i) as [m1 i1] eqn:E.
  assert (H1 : (m1, i1) = (m0, i0) \/ i1 = i).
  { unfold visit in E. destruct (points !! i) as [p |]; [| left; congruence].
    cbv zeta in E. destruct (root_gtb _ m0); [right | left]; congruence. }
  destruct (IH m1 i1) as [-> | H]; [| right; now right].
  destruct H1 as [-> | ->]; [now left | right; left].
Qed.

Lemma farthest_interior (points : list point) (first last : point) (tolerance : Q) :
  (0 <= tolerance)%Q ->
  root_gtb_num (farthest points first last).1 tolerance = true ->
  (1 <= (farthest points first last).2 <= length points - 2)%nat.
Proof.
  intros Htol Hgt. unfold farthest in *.
  destruct (farthest_index points first last (seq 1 (length points - 2)) (Sqrt 0) 0%nat)
    as [E | Hin].
  - exfalso. cbv zeta in E. rewrite E in Hgt. cbn [fst] in Hgt.
    unfold root_gtb_num, root_leb_num in Hgt. cbn [radicand] in Hgt.
    apply negb_true_iff, andb_false_iff in Hgt as [H | H].
    + apply not_true_iff_false in H. apply H, Qle_bool_iff, Htol.
    + apply not_true_iff_false in H. apply H, Qle_bool_iff. nra.
  - cbv zeta in Hin. apply elem_of_seq in Hin. lia.
Qed.

Lemma simplifyPath_returns (tolerance : Q) :
  (0 <= tolerance)%Q ->
  forall (fuel : nat) (points : list point),
    (length points <= fuel + 2)%nat ->
    exists r,
      simplifyPath fuel points tolerance = Some r /\
      (length r <= length points)%nat /\
      head r = head points /\ last r = last points /\
      (2 <= length points -> 2 <= length r)%nat.
Proof.
  intros Htol. induction fuel as [| fuel IH]; intros points Hfuel.
  - exists points. cbn [simplifyPath].
    destruct (Nat.leb_spec (length points) 2); [| lia]. auto.
  - cbn [simplifyPath].
    destruct (Nat.leb_spec (length points) 2) as [| Hlen]; [exists points; auto |].
    destruct points as [| first points'] eqn:Epts; [simpl in Hlen; lia |].
    rewrite <- Epts in *. assert (Hhead : head points = Some first) by (now subst).
    rewrite Hhead.
    destruct (last points) as [lst |] eqn:Hlast;
      [| apply last_None in Hlast; subst; discriminate].
    destruct (farthest points first lst) as [maxDist maxIndex] eqn:Efar.
    destruct (root_gtb_num maxDist tolerance) eqn:Egt.
    + pose proof (farthest_interior points first lst tolerance Htol) as Hi.
      rewrite Efar in Hi. cbn [fst snd] in Hi. specialize (Hi Egt).
      destruct (IH (take (maxIndex + 1) points)) as (lft & -> & Hll & Hlh & Hlt & Hl2);
        [rewrite length_take; lia |].
      destruct (IH (drop maxIndex points)) as (rgt & -> & Hrl & Hrh & Hrt & Hr2);
        [rewrite length_drop; lia |].
      rewrite length_take in Hll, Hl2. rewrite length_drop in Hrl, Hr2.
      specialize (Hl2 ltac:(lia)). specialize (Hr2 ltac:(lia)).
      eexists. split; [reflexivity |].
      rewrite length_app, length_take. repeat split; try lia.
      * rewrite head_lookup, lookup_app_l by (rewrite length_take; lia).
        rewrite lookup_take_lt by lia.
        rewrite <- head_lookup, Hlh, head_lookup, lookup_take_lt by lia.
        rewrite <- head_lookup. exact Hhead.
      * rewrite last_app. destruct (last rgt) as [q |] eqn:Eq.
        -- rewrite <- Hlast, Hrt.
           rewrite !last_lookup, lookup_drop, length_drop. f_equal. lia.
        -- apply last_None in Eq. subst rgt. simpl in Hr2. lia.
    + exists [first; lst]. split; [reflexivity |].
      cbn [length head]. repeat split; lia.
Qed.

End Simplify.

(** C7, amended. For every list of points and every tolerance that is not
    negative, [simplifyPath] returns (a depth of calls equal to the number
    of points is enough), the list returned is not longer than the input,
    and it starts with the first point and ends with the last point of the
    input. *)
Theorem simplifyPath_shrinks (points : list SVGExporter.point) (tolerance : Q)
    (fuel : nat) :
  (0 <= tolerance)%Q -> (length points <= fuel)%nat ->
  exists r,
    SVGExporter.simplifyPath fuel points tolerance = Some r /\
    (length r <= length points)%nat /\
    head r = head points /\ last r = last points.
Proof.
  intros Htol Hfuel.
  destruct (simplifyPath_returns tolerance Htol fuel points) as (r & Hr & Hlen & Hh & Hl & _);
    [lia |].
  exists r. auto.
Qed.

Lemma simplifyPath_shrinks_witness :
  exists r,
    SVGExporter.simplifyPath 5 ex_path (1 # 2) = Some r /\
    (length r <= length ex_path)%nat /\
    head r = head ex_path /\ last r = last ex_path.
Proof.
  apply (simplifyPath_shrinks ex_path (1 # 2) 5).
  - discriminate.
  - simpl. lia.
Defined.

Lemma simplifyPath_short (fuel : nat) (points : list SVGExporter.point) (tolerance : Q) :
  (length points <= 2)%nat ->
  SVGExporter.simplifyPath fuel points tolerance = Some points.
Proof.
  intros H. destruct fuel; cbn [SVGExporter.simplifyPath];
    destruct (Nat.leb_spec (length points) 2); auto; lia.
Qed.

Lemma simplifyPath_negative_diverges (fuel : nat) :
  SVGExporter.simplifyPath fuel ex_collinear (-1) = None.
Proof.
  induction fuel as [| fuel IH]; [reflexivity |].
  cbn [SVGExporter.simplifyPath].
  change (length ex_collinear <=? 2)%nat with false. cbv iota.
  change (head ex_collinear) with (Some (0, 0)%Q).
  change (last ex_collinear) with (Some (2, 0)%Q). cbv iota.
  replace (SVGExporter.farthest ex_collinear (0, 0)%Q (2, 0)%Q)
    with (Sqrt 0, 0%nat) by (vm_compute; reflexivity).
  cbv iota beta.
  change (root_gtb_num (Sqrt 0) (-1)) with true. cbv iota.
  rewrite simplifyPath_short by (simpl; lia).
  change (drop 0 ex_collinear) with ex_collinear. now rewrite IH.
Qed.

(** C7 as stated fails for a negative tolerance: on three collinear points
    no interior point is farther than 0 from the chord, [maxIndex] stays 0
    and the second recursive call receives the whole list again, so that
    no depth of calls is enough for [simplifyPath] to return. *)
Lemma simplifyPath_negative_tolerance_counterexample :
  ~ exists fuel r, SVGExporter.simplifyPath fuel ex_collinear (-1) = Some r.
Proof.
  intros (fuel & r & H). rewrite simplifyPath_negative_diverges in H. discriminate.
Qed.

(** ** Path smoothing *)

Lemma append_cons (c : ascii) (s u : string) :
  (String c s ++ u)%string = String c (s ++ u)%string.
Proof. reflexivity. Qed.

Lemma append_nil (u : string) : (EmptyString ++ u)%string = u.
Proof. reflexivity. Qed.

Lemma startsWith_append (s t u : string) :
  SVGExporter.startsWith s t = true -> SVGExporter.startsWith (s ++ u) t = true.
Proof.
  revert s. induction t as [| c t IH]; intros s H; [reflexivity |].
  destruct s as [| c' s]; [discriminate |]. rewrite append_cons.
  cbn [SVGExporter.startsWith] in *.
  destruct (Ascii.eqb c c'); [auto | discriminate].
Qed.

Lemma startsWith_self_append (t u : string) :
  SVGExporter.startsWith (t ++ u) t = true.
Proof.
  induction t as [| c t IH]; [reflexivity |]. rewrite append_cons.
  cbn [SVGExporter.startsWith]. now rewrite Ascii.eqb_refl.
Qed.

Lemma append_empty_r (s : string) : (s ++ "")%string = s.
Proof.
  induction s as [| c s IH]; [reflexivity |]. rewrite append_cons. now f_equal.
Qed.

Lemma append_assoc' (a b c : string) : ((a ++ b) ++ c)%string = (a ++ (b ++ c))%string.
Proof.
  induction a as [| x a IH]; [reflexivity |]. rewrite !append_cons. now f_equal.
Qed.

Lemma string_rev_append (a b : string) :
  SVGExporter.string_rev (a ++ b)
  = (SVGExporter.string_rev b ++ SVGExporter.string_rev a)%string.
Proof.
  induction a as [| x a IH].
  - rewrite append_nil. cbn [SVGExporter.string_rev]. now rewrite append_empty_r.
  - rewrite append_cons. cbn [SVGExporter.string_rev]. now rewrite IH, append_assoc'.
Qed.

Lemma endsWith_append (s t : string) : SVGExporter.endsWith (s ++ t) t = true.
Proof.
  unfold SVGExporter.endsWith. rewrite string_rev_append. apply startsWith_self_append.
Qed.

Lemma append_nonempty (s t : string) : t <> ""%string -> (s ++ t)%string <> ""%string.
Proof.
  destruct s; [rewrite append_nil; auto | rewrite append_cons; discriminate].
Qed.

Lemma smooth_segments_start (show : Q -> string) (points : list SVGExporter.point)
    (idxs : list nat) (path : string) :
  SVGExporter.startsWith path "M" = true ->
  SVGExporter.startsWith
    (foldl (SVGExporter.smooth_segment show points) path idxs) "M" = true.
Proof.
  revert path. induction idxs as [| i idxs IH]; intros path H; [exact H |].
  cbn [foldl]. apply IH. unfold SVGExporter.smooth_segment.
  destruct (points !! i); [| exact H].
  destruct (points !! (i + 1)%nat); [| exact H].
  now apply startsWith_append.
Qed.

(** C8, amended. For every list of at least two points the string returned
    by [smoothPath] starts with [M], ends with [Z], and is not empty.  For
    a single point it is the move command alone, [M x y], and for the empty
    list it is the empty string. *)
Theorem smoothPath_closed (show : Q -> string) (points : list SVGExporter.point) :
  ((2 <= length points)%nat ->
     SVGExporter.startsWith (SVGExporter.smoothPath show points) "M" = true /\
     SVGExporter.endsWith (SVGExporter.smoothPath show points) "Z" = true /\
     SVGExporter.smoothPath show points <> ""%string) /\
  (forall p, points = [p] ->
     SVGExporter.smoothPath show points
     = ("M " ++ show p.1 ++ " " ++ show p.2)%string) /\
  (points = [] -> SVGExporter.smoothPath show points = ""%string).
Proof.
  split; [| split].
  - intros Hlen. destruct points as [| p0 [| p1 rest]]; try (simpl in Hlen; lia).
    cbn [SVGExporter.smoothPath].
    destruct (last (p0 :: p1 :: rest)) as [lst |] eqn:Hlast;
      [| apply last_None in Hlast; discriminate].
    split; [| split].
    + repeat apply startsWith_append. apply smooth_segments_start. reflexivity.
    + change " Z"%string with (" " ++ "Z")%string.
      rewrite <- append_assoc'. apply endsWith_append.
    + apply append_nonempty. discriminate.
  - intros p ->. reflexivity.
  - intros ->. reflexivity.
Qed.

Lemma smoothPath_closed_witness :
  SVGExporter.startsWith (SVGExporter.smoothPath show_number ex_path) "M" = true /\
  SVGExporter.endsWith (SVGExporter.smoothPath show_number ex_path) "Z" = true /\
  SVGExporter.smoothPath show_number ex_path <> ""%string.
Proof.
  apply (proj1 (smoothPath_closed show_number ex_path)). simpl. lia.
Defined.

(** C8 as stated fails on the lists that [smoothPath] treats apart: for the
    empty list the result is the empty string, which does not start with
    [M]; for a single point it is [M x y], which does not end with [Z]. *)
Lemma smoothPath_short_counterexample :
  SVGExporter.smoothPath show_number [] = ""%string /\
  SVGExporter.startsWith (SVGExporter.smoothPath show_number []) "M" = false /\
  SVGExporter.smoothPath show_number [(1 # 2, 3)%Q] = "M 0.5 3"%string /\
  SVGExporter.endsWith (SVGExporter.smoothPath show_number [(1 # 2, 3)%Q]) "Z" = false.
Proof. repeat split; reflexivity. Qed.

(** ** Palette extraction *)

(** *** Rounding *)

Lemma Qfloor_between (q : Q) (n : Z) :
  (inject_Z n <= q)%Q -> (q < inject_Z (n + 1))%Q -> Qfloor q = n.
Proof.
  intros Hlo Hhi.
  pose proof (Qfloor_le q) as H1. pose proof (Qlt_floor q) as H2.
  assert (Qfloor q < n + 1).
  { rewrite Zlt_Qlt. eapply Qle_lt_trans; eauto. }
  assert (n < Qfloor q + 1).
  { rewrite Zlt_Qlt. eapply Qle_lt_trans; eauto. }
  lia.
Qed.

Lemma Math_round_ok (q : Q) : qchannel_ok q -> channel_ok (Math_round q).
Proof.
  intros [Hlo Hhi]. unfold Math_round, channel_ok.
  pose proof (Qfloor_le (q + (1 # 2))) as H1.
  pose proof (Qlt_floor (q + (1 # 2))) as H2.
  split.
  - assert (0 < Qfloor (q + (1 # 2)) + 1); [| lia].
    rewrite Zlt_Qlt. eapply Qle_lt_trans; [| exact H2].
    change (inject_Z 0) with 0%Q. lra.
  - assert (Qfloor (q + (1 # 2)) < 256); [| lia].
    rewrite Zlt_Qlt. eapply Qle_lt_trans; [exact H1 |].
    change (inject_Z 256) with 256%Q. lra.
Qed.

Lemma toQ_ok (c : Color) : color_ok c -> qcolor_ok (toQ c).
Proof.
  intros (Hr & Hg & Hb). unfold qcolor_ok, qchannel_ok, toQ, channel_ok in *.
  cbn [red green blue fst snd] in *.
  change 0%Q with (inject_Z 0). change 255%Q with (inject_Z 255).
  rewrite <- !Zle_Qle. lia.
Qed.

(** *** The fallback palette *)

Lemma Qtrunc_nonneg (q : Q) : (0 <= q)%Q -> Posterizer.Qtrunc q = Qfloor q.
Proof.
  intros H. unfold Posterizer.Qtrunc. now rewrite (proj2 (Qle_bool_iff 0 q) H).
Qed.

Lemma Qrem_mod2 (a : Q) : (0 <= a)%Q -> Posterizer.Qrem a 2 = Qmod2 a.
Proof.
  intros H. unfold Posterizer.Qrem, Qmod2. rewrite Qtrunc_nonneg; [reflexivity |].
  apply Qle_shift_div_l; [reflexivity | lra].
Qed.

Lemma Qmod2_range (a : Q) : (0 <= Qmod2 a < 2)%Q.
Proof.
  unfold Qmod2.
  pose proof (Qfloor_le (a / 2)) as H1. pose proof (Qlt_floor (a / 2)) as H2.
  rewrite inject_Z_plus in H2. change (inject_Z 1) with 1%Q in H2.
  assert (E : (2 * (a / 2) == a)%Q) by (apply Qmult_div_r; discriminate).
  revert H1 H2 E. generalize (a / 2)%Q. intros t H1 H2 E.
  split; lra.
Qed.

Lemma sector (h : Q) (n : Z) (lo hi : Q) :
  lo = (inject_Z n * 60)%Q -> hi = (inject_Z (n + 1) * 60)%Q ->
  (lo <= h)%Q -> (h < hi)%Q -> Qfloor (h / 60) = n.
Proof.
  intros -> -> Hlo Hhi.
  assert (E : (60 * (h / 60) == h)%Q) by (apply Qmult_div_r; discriminate).
  rewrite inject_Z_plus in Hhi. change (inject_Z 1) with 1%Q in Hhi.
  apply Qfloor_between; [| rewrite inject_Z_plus; change (inject_Z 1) with 1%Q];
    revert E; generalize (h / 60)%Q; intros t E; lra.
Qed.

Lemma round_channel_round (v : Q) : Math_round (v * 255) = round_channel v.
Proof.
  unfold Math_round, round_channel. apply Qfloor_comp. ring.
Qed.

Lemma hslToRgb_standard (h : Q) :
  (0 <= h < 360)%Q -> Posterizer.hslToRgb h 70 50 = fallback_color h.
Proof.
  intros [Hlo Hhi]. unfold Posterizer.hslToRgb, fallback_color, hsl_standard.
  rewrite Qrem_mod2 by (apply Qle_shift_div_l; [reflexivity | lra]).
  set (c := ((1 - Qabs (2 * (50 / 100) - 1)) * (70 / 100))%Q).
  set (x := (c * (1 - Qabs (Qmod2 (h / 60) - 1)))%Q).
  set (m := (50 / 100 - c / 2)%Q).
  destruct (Qltb_cases h 60) as [[-> H1] | [-> H1]].
  { rewrite (sector h 0 0 60 eq_refl eq_refl) by lra. cbn [red green blue fst snd].
    now rewrite !round_channel_round. }
  destruct (Qltb_cases h 120) as [[-> H2] | [-> H2]].
  { rewrite (sector h 1 60 120 eq_refl eq_refl) by lra. cbn [red green blue fst snd].
    now rewrite !round_channel_round. }
  destruct (Qltb_cases h 180) as [[-> H3] | [-> H3]].
  { rewrite (sector h 2 120 180 eq_refl eq_refl) by lra. cbn [red green blue fst snd].
    now rewrite !round_channel_round. }
  destruct (Qltb_cases h 240) as [[-> H4] | [-> H4]].
  { rewrite (sector h 3 180 240 eq_refl eq_refl) by lra. cbn [red green blue fst snd].
    now rewrite !round_channel_round. }
  destruct (Qltb_cases h 300) as [[-> H5] | [-> H5]].
  { rewrite (sector h 4 240 300 eq_refl eq_refl) by lra. cbn [red green blue fst snd].
    now rewrite !round_channel_round. }
  rewrite (sector h 5 300 360 eq_refl eq_refl) by lra. cbn [red green blue fst snd].
  now rewrite !round_channel_round.
Qed.

Lemma round_unit_ok (v : Q) : (0 <= v <= 1)%Q -> channel_ok (Math_round (v * 255)).
Proof.
  intros [Hlo Hhi]. apply Math_round_ok. unfold qchannel_ok. split; lra.
Qed.

Lemma hslToRgb_ok (h : Q) : (0 <= h)%Q -> color_ok (Posterizer.hslToRgb h 70 50).
Proof.
  intros Hlo. unfold Posterizer.hslToRgb.
  rewrite Qrem_mod2 by (apply Qle_shift_div_l; [reflexivity | lra]).
  pose proof (Qmod2_range (h / 60)) as [Ht0 Ht2].
  assert (Hu : (0 <= Qabs (Qmod2 (h / 60) - 1) <= 1)%Q).
  { split; [apply Qabs_nonneg |]. apply Qabs_Qle_condition. split; lra. }
  revert Hu. generalize (Qabs (Qmod2 (h / 60) - 1)). intros u [Hu0 Hu1].
  assert (Ec : ((1 - Qabs (2 * (50 / 100) - 1)) * (70 / 100) == 7 # 10)%Q)
    by reflexivity.
  assert (Em : (50 / 100 == 1 # 2)%Q) by reflexivity.
  set (c := ((1 - Qabs (2 * (50 / 100) - 1)) * (70 / 100))%Q) in *.
  assert (Hx : (0 <= c * (1 - u) <= 7 # 10)%Q) by (rewrite Ec; split; lra).
  assert (Hm : (50 / 100 - c / 2 == 3 # 20)%Q) by (rewrite Ec, Em; reflexivity).
  revert Hx Hm. generalize (c * (1 - u))%Q (50 / 100 - c / 2)%Q. intros x m [Hx0 Hx1] Hm.
  unfold color_ok.
  destruct (Qltb h 60); [| destruct (Qltb h 120); [| destruct (Qltb h 180);
    [| destruct (Qltb h 240); [| destruct (Qltb h 300)]]]];
    cbn [red green blue fst snd]; repeat split;
    apply round_unit_ok; rewrite ?Ec, Hm; split; lra.
Qed.

Lemma generateDefaultPalette_length (k : Z) :
  length (Posterizer.generateDefaultPalette k) = Z.to_nat k.
Proof.
  unfold Posterizer.generateDefaultPalette. rewrite length_map, zrange_unit.
  rewrite length_map, length_seq. f_equal. lia.
Qed.

Lemma hue_range (i k : Z) :
  0 <= i < k -> (0 <= inject_Z i / inject_Z k * 360 < 360)%Q.
Proof.
  intros [Hi Hk].
  assert (H0 : (0 <= inject_Z i)%Q) by (change 0%Q with (inject_Z 0); now rewrite <- Zle_Qle).
  assert (H1 : (inject_Z i < inject_Z k)%Q) by (now rewrite <- Zlt_Qlt).
  assert (Hq0 : (0 <= inject_Z i / inject_Z k)%Q)
    by (apply Qle_shift_div_l; lra).
  assert (Hq1 : (inject_Z i / inject_Z k < 1)%Q)
    by (apply Qlt_shift_div_r; lra).
  revert Hq0 Hq1. generalize (inject_Z i / inject_Z k)%Q. intros q Hq0 Hq1.
  split; lra.
Qed.

Lemma generateDefaultPalette_ok (k : Z) :
  Forall color_ok (Posterizer.generateDefaultPalette k).
Proof.
  unfold Posterizer.generateDefaultPalette. apply Forall_forall. intros c Hc.
  apply list_elem_of_In, in_map_iff in Hc as (i & <- & Hi).
  apply list_elem_of_In, elem_of_zrange_unit in Hi.
  apply hslToRgb_ok. apply (hue_range i k). lia.
Qed.

(** *** Sampling *)

Lemma elem_of_zrange (lo hi step x : Z) :
  0 < step -> x ∈ zrange lo hi step ->
  lo <= x < hi /\ exists j, 0 <= j /\ x = lo + step * j.
Proof.
  intros Hstep Hx. unfold zrange in Hx.
  apply list_elem_of_In, in_map_iff in Hx as (j & <- & Hj). apply in_seq in Hj.
  split; [| exists (Z.of_nat j); split; lia].
  destruct (Z.le_gt_cases 0 (hi - lo + step - 1)) as [Hpos | Hneg].
  - pose proof (Z.mul_div_le (hi - lo + step - 1) step Hstep).
    assert (Z.of_nat j < (hi - lo + step - 1) / step) by lia. nia.
  - assert ((hi - lo + step - 1) / step < 0) by (apply Z.div_lt_upper_bound; lia).
    lia.
Qed.

Lemma foldM_sample (h : heap) (src : loc) (arr : list Z) (n : nat) :
  h !! src = Some arr -> length arr = (4 * n)%nat ->
  forall idxs acc,
    (forall i, i ∈ idxs -> 0 <= i < Z.of_nat (length arr) /\ i mod 4 = 0) ->
    foldM (fun pixels i =>
             do a <- get src (i + 3);
             if a <? 128 then ret pixels else
             do r <- get src i;
             do g <- get src (i + 1);
             do b <- get src (i + 2);
             ret (pixels ++ [(r, g, b)])) acc idxs h
    = Ok (acc ++ omap (fun i => match pixel arr (Z.to_nat (i / 4)) with
                                | Some (c, a) => if a <? 128 then None else Some c
                                | None => None
                                end) idxs, h).
Proof.
  intros Hl Hlen idxs.
  set (g := fun i => match pixel arr (Z.to_nat (i / 4)) with
                     | Some (c, a) => if a <? 128 then None else Some c
                     | None => None
                     end).
  induction idxs as [| i idxs IH]; intros acc Hidx.
  - simpl. now rewrite app_nil_r.
  - destruct (Hidx i ltac:(left)) as [Hi Hmod].
    set (p := Z.to_nat (i / 4)).
    assert (Hip : i = Z.of_nat (4 * p)).
    { unfold p. pose proof (Z.div_mod i 4 ltac:(lia)). lia. }
    destruct (pixel_is_Some arr p n Hlen ltac:(lia)) as [[c a] Hpx].
    assert (Hg : g i = if a <? 128 then None else Some c)
      by (unfold g; fold p; now rewrite Hpx).
    apply pixel_Some in Hpx as (Hr & Hg' & Hb & Ha).
    rewrite <- !nth_Z_of_nat in Hr, Hg', Hb, Ha.
    replace (Z.of_nat (4 * p + 1)) with (i + 1) in Hg' by lia.
    replace (Z.of_nat (4 * p + 2)) with (i + 2) in Hb by lia.
    replace (Z.of_nat (4 * p + 3)) with (i + 3) in Ha by lia.
    rewrite <- Hip in Hr.
    change (omap g (i :: idxs))
      with (match g i with Some y => y :: omap g idxs | None => omap g idxs end).
    rewrite Hg. cbn [foldM]. unfold bind at 1.
    run (get_lookup _ _ _ _ _ Hl Ha).
    destruct (a <? 128).
    + unfold ret at 1. apply IH. intros j Hj. apply Hidx. now right.
    + run (get_lookup _ _ _ _ _ Hl Hr).
      run (get_lookup _ _ _ _ _ Hl Hg').
      run (get_lookup _ _ _ _ _ Hl Hb).
      unfold ret at 1.
      replace (red c, green c, blue c) with c by (now destruct c as [[? ?] ?]).
      rewrite IH by (intros j Hj; apply Hidx; now right).
      now rewrite <- app_assoc.
Qed.

Lemma sample_offsets (arr : list Z) (n : nat) (i : Z) :
  length arr = (4 * n)%nat ->
  i ∈ zrange 0 (Z.of_nat (length arr))
             (4 * Z.max 1 (Z.of_nat (length arr) / (4 * 10000))) ->
  0 <= i < Z.of_nat (length arr) /\ i mod 4 = 0.
Proof.
  intros Hlen Hi. apply elem_of_zrange in Hi as [Hr (j & Hj & ->)]; [| lia].
  split; [lia |]. rewrite Z.add_0_l, <- Z.mul_assoc, Z.mul_comm. apply Z_mod_mult.
Qed.

Lemma sampled_ok (arr : list Z) :
  Forall channel_ok arr -> Forall color_ok (sampled arr).
Proof.
  intros Hok. unfold sampled. apply Forall_forall. intros c Hc.
  apply list_elem_of_omap in Hc as (i & _ & Hi).
  destruct (pixel arr (Z.to_nat (i / 4))) as [[c' a] |] eqn:E; [| discriminate].
  destruct (a <? 128); [discriminate |]. injection Hi as ->.
  now destruct (pixel_channel_ok _ _ _ _ Hok E).
Qed.

Lemma extractColors_run (rnd : nat -> float) (this : Posterizer.Posterizer) (h : heap)
    (img : ImageData) (arr : list Z) (k : Z) :
  image_in h img arr ->
  Posterizer.extractColors rnd this img k h
  = if (length (sampled arr) =? 0)%nat
    then Ok ((Posterizer.generateDefaultPalette k, this), h)
    else match Posterizer.kMeans rnd (sampled arr) k with
         | Ok palette => Ok ((palette, Posterizer.mkPosterizer palette), h)
         | Throw e => Throw e
         end.
Proof.
  intros (Hl & Hw & Hh & Hlen & Hok).
  set (n := Z.to_nat (width img * height img)).
  assert (Hn : length arr = (4 * n)%nat) by lia.
  unfold Posterizer.extractColors.
  run (array_length_lookup _ _ _ Hl). cbv zeta.
  rewrite (bind_Ok _ _ _ _ _
             (foldM_sample h _ arr n Hl Hn _ [] (fun i => sample_offsets arr n i Hn))).
  rewrite app_nil_l. fold (sampled arr).
  destruct (sampled arr) as [| px pixels]; [reflexivity |].
  cbn [length Nat.eqb]. unfold bind, lift.
  destruct (Posterizer.kMeans rnd (px :: pixels) k); reflexivity.
Qed.

(** *** Loops that may throw *)

Lemma try_map_ok {A B} (f : A -> res B) (P : B -> Prop) (xs : list A) :
  (forall x, x ∈ xs -> exists y, f x = Ok y /\ P y) ->
  exists ys, try_map f xs = Ok ys /\ length ys = length xs /\ Forall P ys.
Proof.
  induction xs as [| x xs IH]; intros H.
  - exists []. repeat split; constructor.
  - destruct (H x ltac:(left)) as (y & Hy & HP).
    destruct IH as (ys & Hys & Hlen & HF); [intros z Hz; apply H; now right |].
    exists (y :: ys). cbn [try_map]. rewrite Hy. cbn [try_bind]. rewrite Hys.
    cbn [try_bind length]. repeat split; [lia | now constructor].
Qed.

Lemma try_fold_ok {A B} (f : B -> A -> res B) (I : nat -> B -> Prop) (xs : list A) :
  (forall j b x, I j b -> x ∈ xs -> exists b', f b x = Ok b' /\ I (S j) b') ->
  forall n b, I n b ->
  exists b', try_fold f b xs = Ok b' /\ I (n + length xs)%nat b'.
Proof.
  induction xs as [| x xs IH]; intros Hstep n b Hb.
  - exists b. rewrite Nat.add_0_r. now split.
  - destruct (Hstep n b x Hb ltac:(left)) as (b1 & Hf & Hb1).
    destruct (IH (fun j b x Hj Hx => Hstep j b x Hj (list_elem_of_further _ _ _ Hx))
                 (S n) b1 Hb1) as (b' & Hb' & HI).
    exists b'. cbn [try_fold]. rewrite Hf. cbn [try_bind]. split; [exact Hb' |].
    cbn [length]. now rewrite Nat.add_succ_r.
Qed.

(** *** Seeding *)

Lemma roulette_picks (pixels : list Color) :
  forall (distances : list float) (random : float) (px : Color),
    Posterizer.roulette random pixels distances = Some px -> px ∈ pixels.
Proof.
  induction pixels as [| p pixels IH]; intros distances random px H; [discriminate |].
  destruct distances as [| d distances]; [discriminate |].
  cbn [Posterizer.roulette] in H. cbv zeta in H.
  destruct (random - d <=? 0)%float.
  - injection H as <-. left.
  - right. eauto.
Qed.

Lemma distances_ok (pixels : list Color) (first : Color) (more : list (option Color)) :
  Forall is_Some more ->
  exists distances,
    try_map (fun px =>
               try d0 <- Posterizer.distanceTo_double px (Some first);
               try ds <- try_map (Posterizer.distanceTo_double px) more;
               let minDist := Posterizer.Math_min d0 ds in
               Ok (minDist * minDist)%float) pixels = Ok distances.
Proof.
  intros Hmore.
  match goal with
  | |- context [try_map ?f pixels] =>
      destruct (try_map_ok f (fun _ => True) pixels) as (distances & Hd & _)
  end; [| eauto].
  intros px _. cbn [Posterizer.distanceTo_double try_bind].
  destruct (try_map_ok (Posterizer.distanceTo_double px) (fun _ => True) more)
    as (ds & -> & _).
  { intros c Hc. rewrite Forall_forall in Hmore. destruct (Hmore c Hc) as [q ->].
    eexists. split; [reflexivity | exact I]. }
  cbn [try_bind]. eauto.
Qed.

Lemma nth_pixel_elem (pixels : list Color) (i : Z) (px : Color) :
  Posterizer.nth_pixel pixels i = Some px -> px ∈ pixels.
Proof.
  unfold Posterizer.nth_pixel. destruct (i <? 0); [discriminate |].
  intros H. apply list_elem_of_lookup. eauto.
Qed.

(** The seeding ends in one of three ways: with a [TypeError], when the
    first centroid is [undefined] and a distance to it is asked for; with
    that [undefined] centroid alone, when no further centroid is asked for;
    or with at least one and at most [k] centroids, each of which is a
    pixel. *)
Lemma initialize_outcome (rnd : nat -> float) (pixels : list Color) (k : Z) :
  pixels <> [] ->
  Posterizer.initializeCentroidsKMeansPlusPlus rnd pixels k = Throw TypeError \/
  Posterizer.initializeCentroidsKMeansPlusPlus rnd pixels k = Ok [None] \/
  exists cs,
    Posterizer.initializeCentroidsKMeansPlusPlus rnd pixels k = Ok cs /\
    seeded pixels cs /\ (1 <= length cs)%nat /\ Z.of_nat (length cs) <= Z.max 1 k.
Proof.
  intros Hne. unfold Posterizer.initializeCentroidsKMeansPlusPlus. cbv zeta.
  destruct (floor_double _ ≫= Posterizer.nth_pixel pixels) as [px0 |] eqn:Efirst.
  - right. right.
    assert (Hpx0 : px0 ∈ pixels).
    { destruct (floor_double _) as [i |]; [| discriminate].
      now apply nth_pixel_elem with i. }
    match goal with
    | |- context [try_fold ?f [] ?xs] =>
        destruct (try_fold_ok f
                    (fun j more => (length more <= j)%nat /\
                                   Forall (fun c => exists px, px ∈ pixels /\ c = Some px)
                                          more) xs)
          with (n := 0%nat) (b := @nil (option Color)) as (more & -> & Hlen & Hseed)
    end.
    + intros j more i [Hj Hmore] _.
      destruct (distances_ok pixels px0 more) as (distances & Hd).
      { eapply Forall_impl; [exact Hmore |]. intros c (px & _ & ->). eauto. }
      cbv zeta in Hd. rewrite Hd. cbn [try_bind].
      destruct (Posterizer.roulette _ pixels distances) as [px |] eqn:E.
      * eexists. split; [reflexivity |]. split.
        -- rewrite length_app. simpl. lia.
        -- apply Forall_app. split; [exact Hmore |]. constructor; [| constructor].
           exists px. split; [| reflexivity]. now apply roulette_picks in E.
      * eexists. split; [reflexivity |]. split; [lia | exact Hmore].
    + split; [simpl; lia | constructor].
    + cbn [try_bind]. eexists. split; [reflexivity |].
      rewrite zrange_unit, length_map, length_seq in Hlen.
      split; [| split].
      * unfold seeded. cbn [map option_map]. constructor; [eauto |].
        change (map (option_map toQ) more) with (option_map toQ <$> more).
        apply Forall_fmap. eapply Forall_impl; [exact Hseed |].
        intros c (px & Hpx & ->). cbn. eauto.
      * cbn [map length]. lia.
      * cbn [map length]. rewrite length_map. lia.
  - destruct (Z.le_gt_cases k 1) as [Hk | Hk].
    + right. left. now rewrite (zrange_empty 1 k) by lia.
    + left. rewrite (zrange_first 1 k) by lia. cbn [try_fold].
      destruct pixels as [| px pixels]; [congruence |]. reflexivity.
Qed.

(** When every draw picked a pixel the centroids are [k] pixels. *)
Lemma drawn_seeded (rnd : nat -> float) (pixels : list Color) (k : Z) :
  pixels <> [] -> drawn rnd pixels k ->
  exists cs,
    Posterizer.initializeCentroidsKMeansPlusPlus rnd pixels k = Ok cs /\
    Z.of_nat (length cs) = k /\ seeded pixels cs.
Proof.
  intros Hne (cs & Hrun & Hlen & Hall).
  destruct (initialize_outcome rnd pixels k Hne) as [H | [H | (cs' & H & Hseed & _)]];
    rewrite Hrun in H; try discriminate; injection H as ->.
  - apply Forall_inv in Hall. destruct Hall. discriminate.
  - eauto.
Qed.

(** *** Lloyd's rounds *)

Lemma seeded_ok (pixels : list Color) (cs : list (option QColor)) :
  Forall color_ok pixels -> seeded pixels cs ->
  Forall (fun c => exists q, c = Some q /\ qcolor_ok q) cs.
Proof.
  intros Hpix Hseed. eapply Forall_impl; [exact Hseed |].
  intros c (px & Hpx & ->). eexists. split; [reflexivity |].
  apply toQ_ok. rewrite Forall_forall in Hpix. auto.
Qed.

Lemma nearest_from_range (px : Color) (cs : list (option QColor)) :
  Forall (fun c => exists q, c = Some q /\ qcolor_ok q) cs ->
  forall i m ni,
    exists r, Posterizer.nearest_from px cs i m ni = Ok r /\
              (r = ni \/ (i <= r < i + length cs)%nat).
Proof.
  induction 1 as [| c cs (q & -> & _) _ IH]; intros i m ni.
  - exists ni. split; [reflexivity | now left].
  - cbn [Posterizer.nearest_from Posterizer.distanceTo try_bind].
    destruct (below _ m).
    + destruct (IH (S i) (Finite (Posterizer.colorDistance (toQ px) q)) i)
        as (r & -> & Hr).
      exists r. split; [reflexivity |]. right. cbn [length]. lia.
    + destruct (IH (S i) m ni) as (r & -> & Hr).
      exists r. split; [reflexivity |]. cbn [length].
      destruct Hr; [now left | right; lia].
Qed.

Lemma findNearestCentroid_ok (px : Color) (k : Z) (cs : list (option QColor)) :
  1 <= k -> centroids_ok k cs ->
  exists r, Posterizer.findNearestCentroid px cs = Ok r /\ (r < length cs)%nat.
Proof.
  intros Hk [Hlen Hcs]. unfold Posterizer.findNearestCentroid.
  destruct (nearest_from_range px cs Hcs 0 Infinity 0) as (r & -> & Hr).
  exists r. split; [reflexivity | lia].
Qed.

Lemma sum_bounds (cluster : list Color) :
  Forall color_ok cluster ->
  forall (acc : QColor) (m : Z),
    (0 <= red acc <= 255 * inject_Z m)%Q ->
    (0 <= green acc <= 255 * inject_Z m)%Q ->
    (0 <= blue acc <= 255 * inject_Z m)%Q ->
    let sum := foldl (fun acc px =>
                        (red acc + inject_Z (red px),
                         green acc + inject_Z (green px),
                         blue acc + inject_Z (blue px))%Q) acc cluster in
    let n := inject_Z (m + Z.of_nat (length cluster)) in
    (0 <= red sum <= 255 * n)%Q /\ (0 <= green sum <= 255 * n)%Q /\
    (0 <= blue sum <= 255 * n)%Q.
Proof.
  induction 1 as [| px cluster Hpx _ IH]; intros acc m Hr Hg Hb; cbv zeta.
  - cbn [foldl length]. rewrite Z.add_0_r. auto.
  - cbn [foldl length].
    replace (m + Z.of_nat (S (length cluster)))
      with ((m + 1) + Z.of_nat (length cluster)) by lia.
    apply toQ_ok in Hpx as (Hpr & Hpg & Hpb).
    unfold qchannel_ok, toQ in Hpr, Hpg, Hpb. cbn [red green blue fst snd] in *.
    apply IH; cbn [red green blue fst snd];
      rewrite inject_Z_plus; change (inject_Z 1) with 1%Q; split; lra.
Qed.

Lemma calculateMean_ok (cluster : list Color) :
  cluster <> [] -> Forall color_ok cluster ->
  qcolor_ok (Posterizer.calculateMean cluster).
Proof.
  intros Hne Hok. unfold Posterizer.calculateMean.
  pose proof (sum_bounds cluster Hok (0, 0, 0)%Q 0) as H.
  cbv zeta in H. cbn [red green blue fst snd] in H.
  destruct H as (Hr & Hg & Hb); try (change (inject_Z 0) with 0%Q; split; lra).
  rewrite Z.add_0_l in Hr, Hg, Hb.
  set (n := inject_Z (Z.of_nat (length cluster))) in *.
  assert (Hn : (0 < n)%Q).
  { unfold n. change 0%Q with (inject_Z 0). rewrite <- Zlt_Qlt.
    destruct cluster; [congruence | simpl; lia]. }
  cbv zeta. unfold qcolor_ok, qchannel_ok. cbn [red green blue fst snd].
  repeat split;
    try (apply Qle_shift_div_l; [exact Hn | lra]);
    try (apply Qle_shift_div_r; [exact Hn | lra]).
Qed.

Lemma centroidsEqual_from_returns (newC : list (option QColor))
    (old : list (option QColor)) :
  forall i,
    (forall j, (j < length old)%nat ->
       exists c1 c2, old !! j = Some (Some c1) /\ newC !! (i + j)%nat = Some (Some c2)) ->
    exists b, Posterizer.centroidsEqual_from old newC i = Ok b.
Proof.
  induction old as [| o old IH]; intros i H; [now exists true |].
  destruct (H 0%nat ltac:(simpl; lia)) as (c1 & c2 & H1 & H2).
  cbn in H1. injection H1 as ->. rewrite Nat.add_0_r in H2.
  cbn [Posterizer.centroidsEqual_from]. rewrite H2. cbn [mjoin option_join].
  destruct (root_gtb_num _ 1); [now exists false |].
  apply IH. intros j Hj.
  destruct (H (S j) ltac:(simpl; lia)) as (d1 & d2 & Hd1 & Hd2).
  exists d1, d2. split; [exact Hd1 |].
  now replace (S i + j)%nat with (i + S j)%nat by lia.
Qed.

Lemma ok_lookup (cs : list (option QColor)) (j : nat) :
  Forall (fun c => exists q, c = Some q /\ qcolor_ok q) cs -> (j < length cs)%nat ->
  exists q, cs !! j = Some (Some q) /\ qcolor_ok q.
Proof.
  intros Hcs Hj. destruct (lookup_lt_is_Some_2 cs j Hj) as [c Hc].
  rewrite Forall_lookup in Hcs. destruct (Hcs j c Hc) as (q & -> & Hq). eauto.
Qed.

Lemma kMeans_round_ok (pixels : list Color) (k : Z) (cs : list (option QColor)) :
  Forall color_ok pixels -> 1 <= k -> centroids_ok k cs ->
  exists newC b,
    Posterizer.kMeans_round pixels k cs = Ok (newC, b) /\ centroids_ok k newC.
Proof.
  intros Hpix Hk Hcs. pose proof Hcs as [Hlen Hall].
  unfold Posterizer.kMeans_round, Posterizer.emptyClusters.
  destruct (Z.ltb_spec k 0); [lia |]. cbn [try_bind].
  match goal with
  | |- context [try_fold ?f ?start ?xs] =>
      destruct (try_fold_ok f
                  (fun _ clusters => Z.of_nat (length clusters) = k /\
                                     Forall (Forall color_ok) clusters) xs)
        with (n := 0%nat) (b := start) as (clusters & -> & Hcl & Hclok)
  end.
  - intros _ clusters px [Hcl Hclok] Hpx.
    destruct (findNearestCentroid_ok px k cs Hk Hcs) as (r & -> & Hr).
    cbn [try_bind].
    destruct (lookup_lt_is_Some_2 clusters r ltac:(lia)) as [cluster Hcluster].
    rewrite Hcluster. eexists. split; [reflexivity |]. split.
    + now rewrite length_insert.
    + apply Forall_insert; [exact Hclok |]. apply Forall_app. split.
      * rewrite Forall_lookup in Hclok. eauto.
      * constructor; [| constructor]. rewrite Forall_forall in Hpix. auto.
  - split; [rewrite length_replicate; lia |].
    apply Forall_replicate. constructor.
  - cbn [try_bind].
    set (newC := imap _ clusters).
    assert (HnewC : centroids_ok k newC).
    { split; [unfold newC; now rewrite length_imap |].
      apply Forall_lookup. intros j c Hj. unfold newC in Hj.
      rewrite list_lookup_imap in Hj.
      destruct (clusters !! j) as [cluster |] eqn:Ecl; [| discriminate].
      cbn in Hj. injection Hj as <-.
      destruct cluster as [| px cluster].
      - destruct (ok_lookup cs j Hall) as (q & -> & Hq).
        + apply lookup_lt_Some in Ecl. lia.
        + cbn. eauto.
      - eexists. split; [reflexivity |]. apply calculateMean_ok; [discriminate |].
        rewrite Forall_lookup in Hclok. eauto. }
    destruct (centroidsEqual_from_returns newC cs 0) as [b Hb].
    { intros j Hj. destruct HnewC as [HlenC HallC].
      destruct (ok_lookup cs j Hall Hj) as (c1 & H1 & _).
      destruct (ok_lookup newC j HallC ltac:(lia)) as (c2 & H2 & _).
      exists c1, c2. auto. }
    unfold Posterizer.centroidsEqual. rewrite Hb. cbn [try_bind].
    exists newC, b. auto.
Qed.

Lemma kMeans_loop_ok (pixels : list Color) (k : Z) (remaining : nat) :
  Forall color_ok pixels -> 1 <= k ->
  forall cs, centroids_ok k cs ->
    exists final,
      Posterizer.kMeans_loop remaining pixels k cs = Ok final /\
      centroids_ok k final.
Proof.
  intros Hpix Hk. induction remaining as [| remaining IH]; intros cs Hcs.
  - exists cs. now split.
  - cbn [Posterizer.kMeans_loop].
    destruct (kMeans_round_ok pixels k cs Hpix Hk Hcs) as (newC & b & -> & HnewC).
    cbn [try_bind fst snd]. destruct b; [exists newC; now split |]. now apply IH.
Qed.

Lemma roundCentroids_ok (k : Z) (cs : list (option QColor)) :
  centroids_ok k cs ->
  exists palette,
    try_map Posterizer.roundCentroid cs = Ok palette /\
    Z.of_nat (length palette) = k /\ Forall color_ok palette.
Proof.
  intros [Hlen Hall].
  destruct (try_map_ok Posterizer.roundCentroid color_ok cs)
    as (palette & Hp & Hl & Hok).
  - intros c Hc. rewrite Forall_forall in Hall.
    destruct (Hall c Hc) as (q & -> & Hr & Hg & Hb).
    eexists. split; [reflexivity |].
    repeat split; cbn [red green blue fst snd]; now apply Math_round_ok.
  - exists palette. repeat split; [exact Hp | lia | exact Hok].
Qed.

(** *** Seeds that are missing *)

Lemma try_map_throw {A B} (f : A -> res B) (e : exn) (pre : list A) (x : A)
    (post : list A) :
  Forall (fun a => exists b, f a = Ok b) pre -> f x = Throw e ->
  try_map f (pre ++ x :: post) = Throw e.
Proof.
  intros Hpre Hx. induction Hpre as [| a pre (b & Hb) _ IH].
  - cbn [app try_map]. now rewrite Hx.
  - cbn [app try_map]. now rewrite Hb, IH.
Qed.

Lemma nearest_from_undefined (px : Color) (pre post : list (option QColor)) :
  Forall is_Some pre ->
  forall i m ni,
    Posterizer.nearest_from px (pre ++ None :: post) i m ni = Throw TypeError.
Proof.
  induction 1 as [| c pre [q ->] _ IH]; intros i m ni; [reflexivity |].
  cbn [app Posterizer.nearest_from Posterizer.distanceTo try_bind].
  destruct (below _ m); apply IH.
Qed.

(** A round on centroids one of which is [undefined] throws at the first
    pixel. *)
Lemma kMeans_round_undefined (pixels : list Color) (k : Z)
    (pre post : list (option QColor)) :
  pixels <> [] -> 0 <= k -> Forall is_Some pre ->
  Posterizer.kMeans_round pixels k (pre ++ None :: post) = Throw TypeError.
Proof.
  intros Hne Hk Hpre. unfold Posterizer.kMeans_round, Posterizer.emptyClusters.
  destruct (Z.ltb_spec k 0); [lia |]. cbn [try_bind].
  destruct pixels as [| px pixels]; [congruence |].
  cbn [try_fold]. unfold Posterizer.findNearestCentroid.
  now rewrite nearest_from_undefined.
Qed.

(** A round on fewer than [k] centroids returns [k] new centroids, of which
    those past the old ones are [undefined]: their clusters are empty and
    there is no old centroid to keep. *)
Lemma kMeans_round_short (pixels : list Color) (k : Z) (cs : list (option QColor)) :
  Forall (fun c => exists q, c = Some q /\ qcolor_ok q) cs ->
  (1 <= length cs)%nat -> Z.of_nat (length cs) < k ->
  exists newC b pre post,
    Posterizer.kMeans_round pixels k cs = Ok (newC, b) /\
    newC = pre ++ None :: post /\ Forall is_Some pre.
Proof.
  intros Hall Hm Hk.
  unfold Posterizer.kMeans_round, Posterizer.emptyClusters.
  destruct (Z.ltb_spec k 0); [lia |]. cbn [try_bind].
  set (m := length cs) in *.
  match goal with
  | |- context [try_fold ?f ?start ?xs] =>
      destruct (try_fold_ok f
                  (fun _ clusters =>
                     length clusters = Z.to_nat k /\
                     forall j, (m <= j)%nat -> (j < Z.to_nat k)%nat ->
                               clusters !! j = Some []) xs)
        with (n := 0%nat) (b := start) as (clusters & -> & Hcl & Hempty)
  end.
  - intros _ clusters px [Hcl Hempty] _. unfold Posterizer.findNearestCentroid.
    destruct (nearest_from_range px cs Hall 0 Infinity 0) as (r & -> & Hr).
    cbn [try_bind].
    assert (Hrm : (r < m)%nat) by (unfold m; lia).
    destruct (lookup_lt_is_Some_2 clusters r ltac:(lia)) as [cluster ->].
    eexists. split; [reflexivity |]. split.
    + now rewrite length_insert.
    + intros j Hj1 Hj2. rewrite list_lookup_insert_ne by lia. auto.
  - split; [apply length_replicate |]. intros j _ Hj. now apply lookup_replicate_2.
  - cbn [try_bind].
    set (newC := imap _ clusters).
    assert (Hlow : forall j, (j < m)%nat -> exists q, newC !! j = Some (Some q)).
    { intros j Hj. unfold newC. rewrite list_lookup_imap.
      destruct (lookup_lt_is_Some_2 clusters j ltac:(lia)) as [cluster ->]. cbn.
      destruct cluster; [| eauto].
      destruct (ok_lookup cs j Hall Hj) as (q & -> & _). cbn. eauto. }
    assert (Hmid : newC !! m = Some None).
    { unfold newC. rewrite list_lookup_imap, (Hempty m) by lia. cbn.
      now rewrite (lookup_ge_None_2 cs m) by (unfold m; lia). }
    destruct (centroidsEqual_from_returns newC cs 0) as [b Hb].
    { intros j Hj. destruct (ok_lookup cs j Hall Hj) as (c1 & H1 & _).
      destruct (Hlow j Hj) as (c2 & H2). exists c1, c2. auto. }
    unfold Posterizer.centroidsEqual. rewrite Hb. cbn [try_bind].
    exists newC, b, (take m newC), (drop (S m) newC).
    split; [reflexivity |]. split.
    + symmetry. now apply take_drop_middle.
    + apply Forall_lookup. intros j c Hj.
      apply lookup_take_Some in Hj as [Hj Hjm].
      destruct (Hlow j Hjm) as (q & Hq). rewrite Hq in Hj. injection Hj as <-. eauto.
Qed.

(** With fewer than [k] centroids, [kMeans] throws: when the first round
    reports convergence, on rounding the [undefined] centroid; otherwise in
    the second round, on the distance to it. *)
Lemma kMeans_loop_short (pixels : list Color) (k : Z) (cs : list (option QColor))
    (remaining : nat) :
  pixels <> [] ->
  Forall (fun c => exists q, c = Some q /\ qcolor_ok q) cs ->
  (1 <= length cs)%nat -> Z.of_nat (length cs) < k ->
  (try final <- Posterizer.kMeans_loop (S (S remaining)) pixels k cs;
   try_map Posterizer.roundCentroid final) = Throw TypeError.
Proof.
  intros Hne Hall Hm Hk.
  destruct (kMeans_round_short pixels k cs Hall Hm Hk)
    as (newC & b & pre & post & Hround & -> & Hpre).
  cbn [Posterizer.kMeans_loop]. rewrite Hround. cbn [try_bind fst snd].
  destruct b.
  - cbn [try_bind]. apply try_map_throw; [| reflexivity].
    eapply Forall_impl; [exact Hpre |]. intros c [q ->]. cbn. eauto.
  - now rewrite kMeans_round_undefined by (auto; lia).
Qed.

(** *** The palette of [kMeans] *)

(** For [1 <= k <= pixels.length], [kMeans] returns [k] colors when every
    draw of the seeding picked a pixel, and throws a [TypeError] when one
    did not. *)
Lemma kMeans_outcome (rnd : nat -> float) (pixels : list Color) (k : Z) :
  Forall color_ok pixels -> 1 <= k <= Z.of_nat (length pixels) ->
  (drawn rnd pixels k ->
   exists palette,
     Posterizer.kMeans rnd pixels k = Ok palette /\
     Z.of_nat (length palette) = k /\ Forall color_ok palette) /\
  (~ drawn rnd pixels k -> Posterizer.kMeans rnd pixels k = Throw TypeError).
Proof.
  intros Hpix Hk.
  assert (Hne : pixels <> []) by (intros ->; simpl in Hk; lia).
  unfold Posterizer.kMeans.
  destruct (Z.ltb_spec (Z.of_nat (length pixels)) k); [lia |]. cbv zeta. split.
  - intros Hdrawn.
    destruct (drawn_seeded rnd pixels k Hne Hdrawn) as (cs & -> & Hlen & Hseed).
    cbn [try_bind].
    destruct (kMeans_loop_ok pixels k 50 Hpix ltac:(lia) cs) as (final & -> & Hfinal).
    { split; [exact Hlen | now apply seeded_ok with pixels]. }
    cbn [try_bind]. now apply roundCentroids_ok.
  - intros Hno.
    destruct (initialize_outcome rnd pixels k Hne)
      as [Hi | [Hi | (cs & Hi & Hseed & Hlo & Hhi)]].
    + now rewrite Hi.
    + rewrite Hi. cbn [try_bind]. change 50%nat with (S 49).
      cbn [Posterizer.kMeans_loop].
      pose proof (kMeans_round_undefined pixels k [] [] Hne) as Hround.
      cbn [app] in Hround. now rewrite Hround by (auto; lia).
    + rewrite Hi. cbn [try_bind]. change 50%nat with (S (S 48)).
      apply kMeans_loop_short; [exact Hne | now apply seeded_ok with pixels | exact Hlo |].
      destruct (Z.eq_dec (Z.of_nat (length cs)) k) as [E | E]; [| lia].
      exfalso. apply Hno. exists cs. split; [exact Hi |]. split; [exact E |].
      eapply Forall_impl; [exact Hseed |]. intros c (px & _ & ->). eauto.
Qed.

(** *** The fallback palette, as the specification words it *)

Lemma Qmod2_comp (a b : Q) : (a == b)%Q -> (Qmod2 a == Qmod2 b)%Q.
Proof.
  intros H. unfold Qmod2.
  rewrite (Qfloor_comp (a / 2) (b / 2)) by (now rewrite H). now rewrite H.
Qed.

Lemma round_channel_comp (a b : Q) : (a == b)%Q -> round_channel a = round_channel b.
Proof. intros H. unfold round_channel. apply Qfloor_comp. now rewrite H. Qed.

Lemma sector_range (h : Q) : (0 <= h < 360)%Q -> 0 <= Qfloor (h / 60) <= 5.
Proof.
  intros [Hlo Hhi].
  assert (E : (60 * (h / 60) == h)%Q) by (apply Qmult_div_r; discriminate).
  pose proof (Qfloor_le (h / 60)) as H1. pose proof (Qlt_floor (h / 60)) as H2.
  revert E H1 H2. generalize (h / 60)%Q. intros t E H1 H2.
  assert (0 < Qfloor t + 1).
  { rewrite Zlt_Qlt. change (inject_Z 0) with 0%Q. lra. }
  assert (Qfloor t < 6).
  { rewrite Zlt_Qlt. change (inject_Z 6) with 6%Q. lra. }
  lia.
Qed.

Lemma fallback_color_comp (h1 h2 : Q) :
  (h1 == h2)%Q -> (0 <= h2 < 360)%Q -> fallback_color h1 = fallback_color h2.
Proof.
  intros H Hr. unfold fallback_color, hsl_standard.
  assert (HX : (Qabs (Qmod2 (h1 / 60) - 1) == Qabs (Qmod2 (h2 / 60) - 1))%Q).
  { rewrite (Qmod2_comp (h1 / 60) (h2 / 60)) by (now rewrite H). reflexivity. }
  rewrite (Qfloor_comp (h1 / 60) (h2 / 60)) by (now rewrite H).
  pose proof (sector_range h2 Hr) as Hn.
  revert HX. generalize (Qabs (Qmod2 (h1 / 60) - 1)) (Qabs (Qmod2 (h2 / 60) - 1)).
  intros u1 u2 HX.
  assert (Hcases : Qfloor (h2 / 60) = 0 \/ Qfloor (h2 / 60) = 1 \/
                   Qfloor (h2 / 60) = 2 \/ Qfloor (h2 / 60) = 3 \/
                   Qfloor (h2 / 60) = 4 \/ Qfloor (h2 / 60) = 5) by lia.
  destruct Hcases as [-> | [-> | [-> | [-> | [-> | ->]]]]];
    cbn [red green blue fst snd];
    (apply (f_equal2 pair); [apply (f_equal2 pair) |]);
    apply round_channel_comp; first [reflexivity | now rewrite HX].
Qed.

Lemma generateDefaultPalette_fallback (k : Z) :
  Posterizer.generateDefaultPalette k = fallback_palette k.
Proof.
  unfold Posterizer.generateDefaultPalette, fallback_palette.
  rewrite zrange_unit, map_map, Z.sub_0_r. apply map_ext_in. intros i Hi.
  apply in_seq in Hi. cbv zeta. rewrite Z.add_0_l.
  pose proof (hue_range (Z.of_nat i) k ltac:(lia)) as Hr.
  rewrite hslToRgb_standard by exact Hr.
  assert (E : (inject_Z (Z.of_nat i) / inject_Z k * 360
               == inject_Z (Z.of_nat i) * 360 / inject_Z k)%Q).
  { unfold Qdiv. ring. }
  symmetry. apply fallback_color_comp; [now symmetry |].
  exact Hr.
Qed.

(** *** The palette returned *)

(** With at least [k >= 1] sampled pixels, [extractColors] returns [k]
    colors, stores them and leaves the heap as it was when every draw of the
    seeding picked a pixel; it throws a [TypeError] when one did not. *)
Lemma extractColors_outcome (rnd : nat -> float) (this : Posterizer.Posterizer)
    (h : heap) (img : ImageData) (arr : list Z) (k : Z) :
  image_in h img arr -> 1 <= k <= Z.of_nat (length (sampled arr)) ->
  (drawn rnd (sampled arr) k ->
   exists palette,
     Posterizer.extractColors rnd this img k h
     = Ok ((palette, Posterizer.mkPosterizer palette), h) /\
     Z.of_nat (length palette) = k /\ Forall color_ok palette) /\
  (~ drawn rnd (sampled arr) k ->
   Posterizer.extractColors rnd this img k h = Throw TypeError).
Proof.
  intros Himg Hk. rewrite (extractColors_run rnd this h img arr k Himg).
  destruct Himg as (_ & _ & _ & _ & Hok).
  destruct (kMeans_outcome rnd (sampled arr) k (sampled_ok arr Hok) Hk) as [Hyes Hno].
  destruct (sampled arr) as [| px pixels] eqn:E; [simpl in Hk; lia |].
  cbn [length Nat.eqb]. split.
  - intros Hd. destruct (Hyes Hd) as (palette & -> & Hlen & Hpal). eauto.
  - intros Hd. now rewrite (Hno Hd).
Qed.

(** With fewer than [k] sampled pixels, [extractColors] returns the [k]
    colors of the fallback palette. *)
Lemma extractColors_few (rnd : nat -> float) (this : Posterizer.Posterizer)
    (h : heap) (img : ImageData) (arr : list Z) (k : Z) :
  image_in h img arr -> 0 <= k -> Z.of_nat (length (sampled arr)) < k ->
  exists palette this',
    Posterizer.extractColors rnd this img k h = Ok ((palette, this'), h) /\
    Z.of_nat (length palette) = k /\ Forall color_ok palette.
Proof.
  intros Himg Hk Hfew. rewrite (extractColors_run rnd this h img arr k Himg).
  destruct (sampled arr) as [| px pixels] eqn:E; cbn [length Nat.eqb].
  - eexists _, _. split; [reflexivity |].
    split; [rewrite generateDefaultPalette_length; lia | apply generateDefaultPalette_ok].
  - unfold Posterizer.kMeans. rewrite (proj2 (Z.ltb_lt _ _) Hfew).
    eexists _, _. split; [reflexivity |].
    split; [rewrite generateDefaultPalette_length; lia | apply generateDefaultPalette_ok].
Qed.

Lemma ex_vivid_image_in : image_in ex_vivid_heap ex_img ex_vivid_arr.
Proof.
  repeat split; try reflexivity.
  unfold ex_vivid_arr.
  repeat (apply List.Forall_cons; [unfold channel_ok; lia |]).
  apply List.Forall_nil.
Defined.

(** C2 fails on the code.  The image has four pixels, none transparent, and
    2 colors are asked for.  When [Math.random()] returns the greatest
    double below 1, the first centroid is the last pixel, and the draw of
    the second centroid ends without a pick: after the four rounded
    subtractions the running value is still above zero.  [kMeans] goes on
    with one centroid instead of two, and [extractColors] throws a
    [TypeError] where the claim promises a palette of 2 colors.  With
    [Math.random()] returning one half the same call returns 2 colors. *)
Theorem extractColors_draw_without_pick :
  Posterizer.initializeCentroidsKMeansPlusPlus ex_rnd_top (sampled ex_vivid_arr) 2
  = Ok [Some (toQ (158, 128, 155))] /\
  Posterizer.extractColors ex_rnd_top (Posterizer.mkPosterizer []) ex_img 2 ex_vivid_heap
  = Throw TypeError /\
  exists palette,
    Posterizer.extractColors ex_rnd (Posterizer.mkPosterizer []) ex_img 2 ex_vivid_heap
    = Ok ((palette, Posterizer.mkPosterizer palette), ex_vivid_heap) /\
    length palette = 2%nat.
Proof.
  split; [vm_compute; reflexivity |]. split; [vm_compute; reflexivity |].
  eexists. split; [vm_compute; reflexivity | reflexivity].
Qed.

(** C4, amended. [extractColors] does not check the range of [k]: a [k]
    outside 2..16 is neither rejected nor clamped.  For [k = 1] and for
    every [k] above 16 it returns a palette of exactly [k] colors, with
    channels in [[0, 255]]: the fallback palette when fewer than [k] pixels
    are sampled, the centroids of the clustering when every draw of the
    seeding picks a pixel. *)
Theorem extractColors_no_range_check (rnd : nat -> float)
    (this : Posterizer.Posterizer) (h : heap) (img : ImageData) (arr : list Z) (k : Z) :
  image_in h img arr -> 1 <= k -> k < 2 \/ 16 < k ->
  Z.of_nat (length (sampled arr)) < k \/ drawn rnd (sampled arr) k ->
  exists palette this',
    Posterizer.extractColors rnd this img k h = Ok ((palette, this'), h) /\
    Z.of_nat (length palette) = k /\ Forall color_ok palette.
Proof.
  intros Himg Hk _ Hcase.
  destruct (Z.lt_ge_cases (Z.of_nat (length (sampled arr))) k) as [Hfew | Hmany].
  - apply extractColors_few with arr; [exact Himg | lia | exact Hfew].
  - destruct Hcase as [Hfew | Hd]; [lia |].
    destruct (proj1 (extractColors_outcome rnd this h img arr k Himg ltac:(lia)) Hd)
      as (palette & Hrun & Hlen & Hpal).
    eauto.
Qed.

Lemma extractColors_no_range_check_witness :
  exists palette this',
    Posterizer.extractColors ex_rnd (Posterizer.mkPosterizer []) ex_img 1 ex_vivid_heap
    = Ok ((palette, this'), ex_vivid_heap) /\
    Z.of_nat (length palette) = 1 /\ Forall color_ok palette.
Proof.
  apply (extractColors_no_range_check ex_rnd (Posterizer.mkPosterizer []) ex_vivid_heap
           ex_img ex_vivid_arr 1).
  - exact ex_vivid_image_in.
  - lia.
  - left. lia.
  - right. eexists. split; [vm_compute; reflexivity |].
    split; [reflexivity |]. constructor; [eauto | constructor].
Defined.

(** C4 as stated fails: with 1 color and with 17 colors asked for,
    [extractColors] returns a palette of 1 and of 17 colors. *)
Lemma extractColors_out_of_range_counterexample :
  Posterizer.extractColors ex_rnd (Posterizer.mkPosterizer []) ex_img 1 ex_heap
  = Ok (([(87, 87, 87)], Posterizer.mkPosterizer [(87, 87, 87)]), ex_heap) /\
  exists palette,
    Posterizer.extractColors ex_rnd (Posterizer.mkPosterizer []) ex_img 17 ex_heap
    = Ok ((palette, Posterizer.mkPosterizer palette), ex_heap) /\
    length palette = 17%nat.
Proof.
  split; [vm_compute; reflexivity |].
  eexists. split; [vm_compute; reflexivity | reflexivity].
Qed.

(** For 2 to 16 colors the fallback palette computed on doubles, with the
    rounding of each operation, is the palette of the exact formula. *)
Lemma generateDefaultPalette_double_exact (k : Z) :
  2 <= k <= 16 ->
  Posterizer.generateDefaultPalette_double k
  = map numbers (Posterizer.generateDefaultPalette k).
Proof.
  intros Hk.
  assert (E : k ∈ zrange 2 17 1) by (apply elem_of_zrange_unit; lia).
  revert E. generalize k. apply Forall_forall.
  apply (bool_decide_unpack _). vm_compute. exact I.
Qed.

(** C6. For a number [k] of colors from 2 to 16: when no pixel is sampled,
    or fewer pixels than [k], [extractColors] does no clustering and
    returns, whatever [Math.random()] would return, the palette of [k]
    colors whose hues [i * 360 / k], for [i] from 0 to [k - 1], are evenly
    spaced, with saturation 70% and lightness 50%, each converted by the
    usual formula and rounded to integers; the palette that the code
    computes on doubles is the same. *)
Theorem extractColors_fallback (rnd : nat -> float) (this : Posterizer.Posterizer)
    (h : heap) (img : ImageData) (arr : list Z) (k : Z) :
  image_in h img arr -> 2 <= k <= 16 ->
  sampled arr = [] \/ Z.of_nat (length (sampled arr)) < k ->
  (exists this',
     Posterizer.extractColors rnd this img k h = Ok ((fallback_palette k, this'), h)) /\
  length (fallback_palette k) = Z.to_nat k /\
  (forall i : nat,
     Z.of_nat i < k ->
     fallback_palette k !! i
     = Some (let c := hsl_standard (inject_Z (Z.of_nat i) * 360 / inject_Z k)
                                   (70 / 100) (50 / 100) in
             (round_channel (red c), round_channel (green c), round_channel (blue c)))) /\
  Posterizer.generateDefaultPalette_double k = map numbers (fallback_palette k).
Proof.
  intros Himg Hk Hfew. split; [| split; [| split]];
    [| | | now rewrite <- generateDefaultPalette_fallback,
                       generateDefaultPalette_double_exact].
  - rewrite (extractColors_run rnd this h img arr k Himg).
    destruct (sampled arr) as [| px pixels] eqn:E.
    + cbn [length Nat.eqb]. rewrite generateDefaultPalette_fallback. eauto.
    + cbn [length Nat.eqb]. destruct Hfew as [? | Hlt]; [discriminate |].
      unfold Posterizer.kMeans.
      rewrite (proj2 (Z.ltb_lt _ _) Hlt), generateDefaultPalette_fallback. eauto.
  - unfold fallback_palette. now rewrite length_map, length_seq.
  - intros i Hi. unfold fallback_palette.
    change (map ?f ?l) with (f <$> l). rewrite list_lookup_fmap.
    rewrite lookup_seq_lt by lia. reflexivity.
Qed.

Lemma extractColors_fallback_witness :
  (exists this',
     Posterizer.extractColors ex_rnd (Posterizer.mkPosterizer []) ex_img 5 ex_heap
     = Ok ((fallback_palette 5, this'), ex_heap)) /\
  length (fallback_palette 5) = Z.to_nat 5 /\
  (forall i : nat,
     Z.of_nat i < 5 ->
     fallback_palette 5 !! i
     = Some (let c := hsl_standard (inject_Z (Z.of_nat i) * 360 / inject_Z 5)
                                   (70 / 100) (50 / 100) in
             (round_channel (red c), round_channel (green c), round_channel (blue c)))) /\
  Posterizer.generateDefaultPalette_double 5 = map numbers (fallback_palette 5).
Proof.
  apply (extractColors_fallback ex_rnd (Posterizer.mkPosterizer []) ex_heap
           ex_img ex_arr 5).
  - exact ex_image_in.
  - lia.
  - right. vm_compute. reflexivity.
Defined.

(** * Further properties of the code *)

(** ** More sample inputs *)

Lemma ex_plain_image_in : image_in ex_plain_heap ex3_img ex_plain_arr.
Proof.
  repeat split; try reflexivity.
  unfold ex_plain_arr.
  repeat (apply List.Forall_cons; [unfold channel_ok; lia |]).
  apply List.Forall_nil.
Defined.

Lemma ex_plain_pixel p c a :
  pixel ex_plain_arr p = Some (c, a) -> c = (50, 60, 70) /\ a = 255.
Proof.
  intros H. pose proof (pixel_lt _ _ _ H) as Hlt. simpl in Hlt.
  do 9 (destruct p as [| p]; [injection H as <- <-; split; reflexivity |]).
  lia.
Defined.

Lemma ex_near_palette_ok : Forall color_ok ex_near_palette.
Proof.
  unfold ex_near_palette.
  repeat (apply List.Forall_cons;
          [unfold color_ok, channel_ok, red, green, blue; simpl; lia |]).
  apply List.Forall_nil.
Defined.

Lemma ex_faint_image_in : image_in ex_faint_heap ex_img ex_faint_arr.
Proof.
  repeat split; try reflexivity.
  unfold ex_faint_arr.
  repeat (apply List.Forall_cons; [unfold channel_ok; lia |]).
  apply List.Forall_nil.
Defined.

Lemma ex_faint_alpha p c a : pixel ex_faint_arr p = Some (c, a) -> a <= 128.
Proof.
  intros H. pose proof (pixel_lt _ _ _ H) as Hlt. simpl in Hlt.
  do 4 (destruct p as [| p]; [injection H as <- <-; lia |]).
  lia.
Defined.

Lemma ex_mask_ok : mask_ok 4 4 ex_mask.
Proof.
  split; [reflexivity |]. unfold ex_mask.
  repeat (apply List.Forall_cons;
          [split; [reflexivity |];
           repeat (apply List.Forall_cons; [first [now left | now right] |]);
           apply List.Forall_nil |]).
  apply List.Forall_nil.
Defined.

Lemma ex_visited_ok : visited_ok 4 4 ex_visited.
Proof.
  split; [reflexivity |]. unfold ex_visited. cbn [replicate].
  repeat (apply List.Forall_cons; [reflexivity |]). apply List.Forall_nil.
Defined.

(** ** Palette mapping with an empty palette *)

Lemma forEach_skip {A} (xs : list A) (body : A -> M unit) (h : heap) :
  (forall x, x ∈ xs -> body x h = Ok (tt, h)) -> forEach xs body h = Ok (tt, h).
Proof.
  induction xs as [| x xs IH]; intros H; [reflexivity |].
  cbn [forEach]. rewrite (bind_Ok _ _ _ _ _ (H x ltac:(left))).
  apply IH. intros y Hy. apply H. now right.
Qed.

Lemma forEach_throw {A} (xs : list A) (body : A -> M unit) (h : heap) (e : exn) :
  (forall x, x ∈ xs -> body x h = Ok (tt, h) \/ body x h = Throw e) ->
  (exists x, x ∈ xs /\ body x h = Throw e) ->
  forEach xs body h = Throw e.
Proof.
  induction xs as [| x xs IH]; intros H (y & Hy & Hthrow); [inversion Hy |].
  cbn [forEach]. destruct (H x ltac:(left)) as [Hx | Hx].
  - rewrite (bind_Ok _ _ _ _ _ Hx). apply IH.
    + intros z Hz. apply H. now right.
    + apply elem_of_cons in Hy as [-> | Hy]; [congruence | eauto].
  - unfold bind. now rewrite Hx.
Qed.

Lemma findNearestColor_nil (px : Color) : Posterizer.findNearestColor px [] = None.
Proof. reflexivity. Qed.

(** X1. With an empty palette [posterizeReplace] throws a [TypeError] as
    soon as the image has a pixel whose alpha is at least 128, and returns a
    copy of the image when it has none. *)
Theorem posterizeReplace_empty_palette (h : heap) (img : ImageData) (arr : list Z) :
  image_in h img arr ->
  ((exists p c a, pixel arr p = Some (c, a) /\ 128 <= a) ->
   Posterizer.posterizeReplace img [] h = Throw TypeError) /\
  ((forall p c a, pixel arr p = Some (c, a) -> a < 128) ->
   Posterizer.posterizeReplace img [] h
   = Ok (mkImageData (width img) (height img) (fresh (dom h)),
         <[fresh (dom h) := arr]> h)).
Proof.
  intros Himg. pose proof Himg as (Hl & Hw & Hh & Hlen & Hok).
  set (n := Z.to_nat (width img * height img)).
  assert (Hn : length arr = (4 * n)%nat) by lia.
  set (l := fresh (dom h)).
  assert (Hbody : forall p : nat, (p < n)%nat ->
    exists c a, pixel arr p = Some (c, a) /\
      (do a <- get l (4 * Z.of_nat p + 3);
       if a <? 128 then ret tt else
       do r <- get l (4 * Z.of_nat p);
       do g <- get l (4 * Z.of_nat p + 1);
       do b <- get l (4 * Z.of_nat p + 2);
       do nearest <- Posterizer.defined (Posterizer.findNearestColor (r, g, b) []);
       do _ <- set l (4 * Z.of_nat p) (red nearest);
       do _ <- set l (4 * Z.of_nat p + 1) (green nearest);
       set l (4 * Z.of_nat p + 2) (blue nearest)) (<[l := arr]> h)
      = if a <? 128 then Ok (tt, <[l := arr]> h) else Throw TypeError).
  { intros p Hp. destruct (pixel_is_Some arr p n Hn Hp) as [[c a] Hpx].
    exists c, a. split; [exact Hpx |].
    apply pixel_Some in Hpx as (Hr & Hg & Hb & Ha).
    run (get_channel l arr h (4 * Z.of_nat p + 3) (4 * p + 3) a ltac:(lia) Ha).
    destruct (a <? 128); [reflexivity |].
    run (get_channel l arr h (4 * Z.of_nat p) (4 * p) _ ltac:(lia) Hr).
    run (get_channel l arr h (4 * Z.of_nat p + 1) (4 * p + 1) _ ltac:(lia) Hg).
    run (get_channel l arr h (4 * Z.of_nat p + 2) (4 * p + 2) _ ltac:(lia) Hb).
    reflexivity. }
  assert (Hstart : forall k : unit -> M ImageData,
    Posterizer.posterizeReplace img [] h
    = bind (forEach (seq 0 n) (fun p =>
       do a <- get l (4 * Z.of_nat p + 3);
       if a <? 128 then ret tt else
       do r <- get l (4 * Z.of_nat p);
       do g <- get l (4 * Z.of_nat p + 1);
       do b <- get l (4 * Z.of_nat p + 2);
       do nearest <- Posterizer.defined (Posterizer.findNearestColor (r, g, b) []);
       do _ <- set l (4 * Z.of_nat p) (red nearest);
       do _ <- set l (4 * Z.of_nat p + 1) (green nearest);
       set l (4 * Z.of_nat p + 2) (blue nearest)))
       (fun _ => ret (mkImageData (width img) (height img) l)) (<[l := arr]> h)).
  { intros _. unfold Posterizer.posterizeReplace.
    run (new_Uint8ClampedArray_lookup _ _ _ Hl). fold l.
    run (new_ImageData_lookup l arr (<[l := arr]> h) _ _
           (lookup_insert_eq h l arr) Hw Hh Hlen).
    cbn [data].
    run (array_length_lookup l arr _ (lookup_insert_eq h l arr)).
    replace (Z.of_nat (length arr)) with (4 * Z.of_nat n) by lia.
    unfold for_loop. rewrite zrange_pixels.
    unfold bind at 1. rewrite forEach_map. reflexivity. }
  rewrite (Hstart (fun _ => ret img)). clear Hstart. split.
  - intros (p & c & a & Hpx & Ha).
    unfold bind at 1. rewrite (forEach_throw _ _ _ TypeError); [reflexivity | |].
    + intros q Hq. apply elem_of_seq in Hq.
      destruct (Hbody q ltac:(lia)) as (c' & a' & _ & ->).
      destruct (a' <? 128); auto.
    + exists p. split; [apply elem_of_seq; apply pixel_lt in Hpx; lia |].
      destruct (Hbody p) as (c' & a' & Hpx' & ->); [apply pixel_lt in Hpx; lia |].
      assert (a' = a) by congruence. subst a'.
      destruct (Z.ltb_spec a 128); [lia | reflexivity].
  - intros Hall. unfold bind at 1. rewrite forEach_skip; [reflexivity |].
    intros q Hq. apply elem_of_seq in Hq.
    destruct (Hbody q ltac:(lia)) as (c' & a' & Hpx' & ->).
    specialize (Hall _ _ _ Hpx'). destruct (Z.ltb_spec a' 128); [reflexivity | lia].
Qed.

Lemma posterizeReplace_empty_palette_witness :
  Posterizer.posterizeReplace ex_img [] ex_heap = Throw TypeError.
Proof.
  apply (proj1 (posterizeReplace_empty_palette ex_heap ex_img ex_arr ex_image_in)).
  exists 0%nat, (10, 10, 10), 255. split; [reflexivity | lia].
Defined.

(** ** Edge cleaning: small images, empty palettes, fixed points *)

(** X2. On an image that is less than 3 pixels wide or less than 3 pixels
    high [cleanEdges] returns a copy of the image, whatever the palette. *)
Theorem cleanEdges_small_image (h : heap) (img : ImageData) (arr : list Z)
    (palette : list Color) :
  image_in h img arr -> width img < 3 \/ height img < 3 ->
  Posterizer.cleanEdges img palette h
  = Ok (mkImageData (width img) (height img) (fresh (dom h)),
        <[fresh (dom h) := arr]> h).
Proof.
  intros Himg Hsmall. pose proof Himg as (Hl & Hw & Hh & Hlen & Hok).
  set (l := fresh (dom h)).
  unfold Posterizer.cleanEdges. cbv zeta.
  run (new_Uint8ClampedArray_lookup _ _ _ Hl). fold l.
  run (new_ImageData_lookup l arr (<[l := arr]> h) _ _
         (lookup_insert_eq h l arr) Hw Hh Hlen).
  cbn [data]. unfold bind at 1. unfold for_loop.
  rewrite forEach_skip; [reflexivity |].
  intros y Hy. destruct Hsmall as [Hs | Hs].
  - rewrite (zrange_empty 1 (width img - 1)) by lia. reflexivity.
  - rewrite (zrange_empty 1 (height img - 1)) in Hy by lia. inversion Hy.
Qed.

Lemma cleanEdges_small_image_witness :
  Posterizer.cleanEdges ex_img ex_palette ex_heap
  = Ok (mkImageData (width ex_img) (height ex_img) (fresh (dom ex_heap)),
        <[fresh (dom ex_heap) := ex_arr]> ex_heap).
Proof.
  apply (cleanEdges_small_image ex_heap ex_img ex_arr ex_palette).
  - exact ex_image_in.
  - left. simpl. lia.
Defined.

(** X3. With an empty palette [cleanEdges] throws a [TypeError] on every
    image that is at least 3 pixels wide and 3 pixels high. *)
Theorem cleanEdges_empty_palette (h : heap) (img : ImageData) (arr : list Z) :
  image_in h img arr -> 3 <= width img -> 3 <= height img ->
  Posterizer.cleanEdges img [] h = Throw TypeError.
Proof.
  intros Himg Hw3 Hh3. pose proof Himg as (Hl & Hw & Hh & Hlen & Hok).
  set (l := fresh (dom h)).
  assert (Hl' : <[l := arr]> h !! data img = Some arr).
  { rewrite lookup_insert_ne; [exact Hl |]. intros E. symmetry in E. revert E.
    now apply fresh_heap_ne with arr. }
  unfold Posterizer.cleanEdges. cbv zeta.
  run (new_Uint8ClampedArray_lookup _ _ _ Hl). fold l.
  run (new_ImageData_lookup l arr (<[l := arr]> h) _ _
         (lookup_insert_eq h l arr) Hw Hh Hlen).
  cbn [data]. unfold bind at 1. unfold for_loop.
  rewrite (zrange_first 1 (height img - 1)) by lia.
  rewrite (zrange_first 1 (width img - 1)) by lia.
  cbn [forEach]. unfold bind at 1. unfold bind at 1.
  destruct (pixel_read arr (width img) (height img) 1 1 Hlen ltac:(lia) ltac:(lia))
    as (c & a & _ & Hr & Hg & Hb & _).
  run (get_lookup _ _ _ _ _ Hl' Hr).
  run (get_lookup _ _ _ _ _ Hl' Hg).
  run (get_lookup _ _ _ _ _ Hl' Hb).
  cbn [Posterizer.closestDistance foldl Posterizer.exceeds].
  unfold Posterizer.neighborOffsets.
  destruct (pixel_read arr (width img) (height img) (1 + -1) (1 + -1) Hlen
              ltac:(lia) ltac:(lia)) as (c0 & a0 & _ & Hr0 & Hg0 & Hb0 & _).
  match goal with
  | |- context [foldM ?f ?acc ?xs] =>
      assert (E : foldM f acc xs (<[l := arr]> h) = Throw TypeError)
  end.
  { vm_compute filter. cbn [foldM]. unfold bind at 1.
    run (get_lookup _ _ _ _ _ Hl' Hr0).
    run (get_lookup _ _ _ _ _ Hl' Hg0).
    run (get_lookup _ _ _ _ _ Hl' Hb0).
    reflexivity. }
  unfold bind at 1. rewrite E. reflexivity.
Qed.

Lemma cleanEdges_empty_palette_witness :
  Posterizer.cleanEdges ex3_img [] ex3_heap = Throw TypeError.
Proof.
  apply (cleanEdges_empty_palette ex3_heap ex3_img ex3_arr).
  - exact ex3_image_in.
  - simpl. lia.
  - simpl. lia.
Defined.

Lemma cleanEdges_near (h : heap) (img : ImageData) (arr : list Z)
    (palette : list Color) :
  image_in h img arr -> palette <> [] -> Forall color_ok palette ->
  (forall p c a, pixel arr p = Some (c, a) -> ~ far_from c palette) ->
  Posterizer.cleanEdges img palette h
  = Ok (mkImageData (width img) (height img) (fresh (dom h)),
        <[fresh (dom h) := arr]> h).
Proof.
  intros Himg Hne Hpal Hnear.
  destruct (cleanEdges_run h img arr palette Himg Hne Hpal) as (out & -> & Hlen & _ & Hpix).
  destruct Himg as (_ & Hw & Hh & Hlen' & _).
  do 3 f_equal.
  apply pixels_ext with (Z.to_nat (width img * height img)); [lia | lia |].
  intros p Hp.
  destruct (pixel_is_Some arr p (Z.to_nat (width img * height img)) ltac:(lia) Hp)
    as [[c a] Hpx].
  rewrite (Hpix _ _ Hpx), Hpx. f_equal.
  destruct (bool_decide _); [| reflexivity].
  apply clean_pixel_near. eauto.
Qed.

(** X4. [cleanEdges] returns a copy of the image when the color of every
    pixel is within 5 of some palette color. *)
Theorem cleanEdges_fixed_point (h : heap) (img : ImageData) (arr : list Z)
    (palette : list Color) :
  image_in h img arr -> palette <> [] -> Forall color_ok palette ->
  (forall p c a, pixel arr p = Some (c, a) ->
     exists c', c' ∈ palette /\ sqdist c c' <= 25) ->
  Posterizer.cleanEdges img palette h
  = Ok (mkImageData (width img) (height img) (fresh (dom h)),
        <[fresh (dom h) := arr]> h).
Proof.
  intros Himg Hne Hpal Hnear. apply cleanEdges_near; auto.
  intros p c a Hpx Hfar. destruct (Hnear _ _ _ Hpx) as (c' & Hc' & Hd).
  specialize (Hfar c' Hc'). lia.
Qed.

Lemma cleanEdges_fixed_point_witness :
  Posterizer.cleanEdges ex3_img ex_near_palette ex_plain_heap
  = Ok (mkImageData (width ex3_img) (height ex3_img) (fresh (dom ex_plain_heap)),
        <[fresh (dom ex_plain_heap) := ex_plain_arr]> ex_plain_heap).
Proof.
  apply (cleanEdges_fixed_point ex_plain_heap ex3_img ex_plain_arr ex_near_palette).
  - exact ex_plain_image_in.
  - discriminate.
  - exact ex_near_palette_ok.
  - intros p c a H. destruct (ex_plain_pixel p c a H) as [-> _].
    exists (52, 60, 70). split; [right; left | vm_compute; discriminate].
Defined.

(** X5. On an image all of whose pixels have an alpha of at least 128,
    [cleanEdges] after [posterizeReplace], with the same palette, changes
    nothing: it returns a copy of the posterized image. *)
Theorem cleanEdges_after_posterizeReplace (h : heap) (img : ImageData)
    (arr : list Z) (palette : list Color) :
  image_in h img arr -> palette <> [] -> Forall color_ok palette ->
  (forall p c a, pixel arr p = Some (c, a) -> 128 <= a) ->
  exists posterized h1 out cleaned h2,
    Posterizer.posterizeReplace img palette h = Ok (posterized, h1) /\
    h1 !! data posterized = Some out /\
    Posterizer.cleanEdges posterized palette h1 = Ok (cleaned, h2) /\
    data cleaned <> data posterized /\
    h2 !! data cleaned = Some out /\ h2 !! data posterized = Some out.
Proof.
  intros Himg Hne Hpal Hopaque.
  destruct (posterizeReplace_run h img arr palette Himg Hne Hpal)
    as (out & Hrun & Hlen & Hok & Hpix).
  pose proof Himg as (Hl & Hw & Hh & Hlen' & _).
  set (l := fresh (dom h)) in *. set (h1 := <[l := out]> h) in *.
  set (posterized := mkImageData (width img) (height img) l) in *.
  assert (Himg1 : image_in h1 posterized out).
  { unfold image_in, posterized. cbn [data width height].
    split; [apply lookup_insert_eq |].
    split; [exact Hw |]. split; [exact Hh |]. split; [lia | exact Hok]. }
  assert (Hfresh : fresh (dom h1) <> l).
  { intros E. symmetry in E. revert E. apply fresh_heap_ne with out.
    apply lookup_insert_eq. }
  exists posterized, h1, out. eexists _, _. split; [exact Hrun |].
  split; [apply lookup_insert_eq |]. split.
  - apply (cleanEdges_near h1 posterized out palette Himg1 Hne Hpal).
    intros p c' a' Hp Hfar.
    assert (Hp' : (p < Z.to_nat (width img * height img))%nat).
    { apply pixel_lt in Hp. lia. }
    destruct (pixel_is_Some arr p (Z.to_nat (width img * height img)) ltac:(lia) Hp')
      as [[c a] Hpx].
    pose proof (Hpix _ _ Hpx) as Hout. rewrite Hp in Hout.
    unfold posterize_pixel in Hout. cbn [fst snd] in Hout.
    specialize (Hopaque _ _ _ Hpx).
    destruct (Z.ltb_spec a 128); [lia |].
    destruct (findNearestColor_first_nearest c palette Hne) as (nearest & Hnear & Hfn).
    rewrite Hnear in Hout. injection Hout as -> ->.
    apply first_nearest_elem in Hfn. specialize (Hfar _ Hfn).
    assert (sqdist nearest nearest = 0) by (now apply sqdist_zero). lia.
  - cbn [data]. split; [exact Hfresh |].
    split; [apply lookup_insert_eq |].
    rewrite lookup_insert_ne by exact Hfresh. apply lookup_insert_eq.
Qed.

Lemma cleanEdges_after_posterizeReplace_witness :
  exists posterized h1 out cleaned h2,
    Posterizer.posterizeReplace ex3_img ex_palette ex_plain_heap = Ok (posterized, h1) /\
    h1 !! data posterized = Some out /\
    Posterizer.cleanEdges posterized ex_palette h1 = Ok (cleaned, h2) /\
    data cleaned <> data posterized /\
    h2 !! data cleaned = Some out /\ h2 !! data posterized = Some out.
Proof.
  apply (cleanEdges_after_posterizeReplace ex_plain_heap ex3_img ex_plain_arr ex_palette).
  - exact ex_plain_image_in.
  - discriminate.
  - exact ex_palette_ok.
  - intros p c a H. destruct (ex_plain_pixel p c a H) as [_ ->]. lia.
Defined.

(** ** Palette extraction: counts that are not positive *)

Lemma kMeans_zero (rnd : nat -> float) (px : Color) (pixels : list Color) :
  Posterizer.kMeans rnd (px :: pixels) 0 = Throw TypeError.
Proof.
  unfold Posterizer.kMeans.
  destruct (Z.ltb_spec (Z.of_nat (length (px :: pixels))) 0); [lia |].
  unfold Posterizer.initializeCentroidsKMeansPlusPlus. cbv zeta.
  rewrite (zrange_empty 1 0) by lia. cbn [try_fold try_bind].
  cbn [Posterizer.kMeans_loop]. unfold Posterizer.kMeans_round.
  cbn [Posterizer.emptyClusters Z.ltb Z.compare Z.to_nat replicate try_bind try_fold].
  unfold Posterizer.findNearestCentroid.
  destruct (floor_double _ ≫= Posterizer.nth_pixel _) as [first |]; reflexivity.
Qed.

Lemma kMeans_negative (rnd : nat -> float) (pixels : list Color) (k : Z) :
  k < 0 -> Posterizer.kMeans rnd pixels k = Throw RangeError.
Proof.
  intros Hk. unfold Posterizer.kMeans.
  destruct (Z.ltb_spec (Z.of_nat (length pixels)) k); [lia |].
  unfold Posterizer.initializeCentroidsKMeansPlusPlus. cbv zeta.
  rewrite (zrange_empty 1 k) by lia. cbn [try_fold try_bind].
  cbn [Posterizer.kMeans_loop]. unfold Posterizer.kMeans_round, Posterizer.emptyClusters.
  destruct (Z.ltb_spec k 0); [reflexivity | lia].
Qed.

(** X6. A number of colors that is not positive: on an image with a sampled
    pixel [extractColors] throws a [TypeError] for [k = 0] and a
    [RangeError] for [k < 0]; on an image without sampled pixel it returns
    the empty palette. *)
Theorem extractColors_nonpositive_count (rnd : nat -> float)
    (this : Posterizer.Posterizer) (h : heap) (img : ImageData) (arr : list Z) (k : Z) :
  image_in h img arr -> k <= 0 ->
  (sampled arr <> [] -> k = 0 ->
   Posterizer.extractColors rnd this img k h = Throw TypeError) /\
  (sampled arr <> [] -> k < 0 ->
   Posterizer.extractColors rnd this img k h = Throw RangeError) /\
  (sampled arr = [] ->
   Posterizer.extractColors rnd this img k h = Ok (([], this), h)).
Proof.
  intros Himg Hk. rewrite (extractColors_run rnd this h img arr k Himg).
  destruct (sampled arr) as [| px pixels]; cbn [length Nat.eqb].
  - split; [congruence |]. split; [congruence |]. intros _.
    unfold Posterizer.generateDefaultPalette. now rewrite (zrange_empty 0 k) by lia.
  - split; [| split; [| discriminate]].
    + intros _ ->. now rewrite kMeans_zero.
    + intros _ Hneg. now rewrite kMeans_negative.
Qed.

Lemma extractColors_nonpositive_count_witness :
  Posterizer.extractColors ex_rnd (Posterizer.mkPosterizer []) ex_img 0 ex_heap
  = Throw TypeError.
Proof.
  apply (proj1 (extractColors_nonpositive_count ex_rnd (Posterizer.mkPosterizer [])
                  ex_heap ex_img ex_arr 0 ex_image_in ltac:(lia))).
  - vm_compute. discriminate.
  - reflexivity.
Defined.

(** X7. [extractColors] stores the palette it returns in [this.palette] when
    a pixel was sampled; when none was, it returns the fallback palette and
    leaves [this.palette] as it was. *)
Theorem extractColors_stored_palette (rnd : nat -> float)
    (this : Posterizer.Posterizer) (h : heap) (img : ImageData) (arr : list Z) (k : Z) :
  image_in h img arr ->
  (sampled arr = [] ->
   Posterizer.extractColors rnd this img k h
   = Ok ((Posterizer.generateDefaultPalette k, this), h)) /\
  (sampled arr <> [] ->
   forall palette this' h',
     Posterizer.extractColors rnd this img k h = Ok ((palette, this'), h') ->
     Posterizer.palette this' = palette /\ h' = h).
Proof.
  intros Himg. rewrite (extractColors_run rnd this h img arr k Himg).
  destruct (sampled arr) as [| px pixels]; cbn [length Nat.eqb].
  - split; [reflexivity | congruence].
  - split; [discriminate |]. intros _ palette this' h' H.
    destruct (Posterizer.kMeans rnd (px :: pixels) k); [| discriminate].
    injection H as <- <- <-. auto.
Qed.

Lemma extractColors_stored_palette_witness :
  (sampled ex_faint_arr = [] ->
   Posterizer.extractColors ex_rnd (Posterizer.mkPosterizer ex_palette) ex_img 3
     ex_faint_heap
   = Ok ((Posterizer.generateDefaultPalette 3, Posterizer.mkPosterizer ex_palette),
         ex_faint_heap)) /\
  (sampled ex_faint_arr <> [] ->
   forall palette this' h',
     Posterizer.extractColors ex_rnd (Posterizer.mkPosterizer ex_palette) ex_img 3
       ex_faint_heap = Ok ((palette, this'), h') ->
     Posterizer.palette this' = palette /\ h' = ex_faint_heap).
Proof.
  apply (extractColors_stored_palette ex_rnd (Posterizer.mkPosterizer ex_palette)
           ex_faint_heap ex_img ex_faint_arr 3).
  exact ex_faint_image_in.
Defined.

(** ** Transparency by color *)

Lemma erase_pixel_idem (t : Color) (tol : Q) (px : Color * Z) :
  erase_pixel t tol (erase_pixel t tol px) = erase_pixel t tol px.
Proof.
  destruct px as [c a]. unfold erase_pixel. cbn [fst snd].
  destruct (root_leb_num (Posterizer.colorDistance (toQ c) (toQ t)) tol) eqn:E;
    cbn [fst snd]; now rewrite E.
Qed.

Lemma erase_pixel_comm (t1 t2 : Color) (tol1 tol2 : Q) (px : Color * Z) :
  erase_pixel t1 tol1 (erase_pixel t2 tol2 px)
  = erase_pixel t2 tol2 (erase_pixel t1 tol1 px).
Proof.
  destruct px as [c a]. unfold erase_pixel. cbn [fst snd].
  destruct (root_leb_num (Posterizer.colorDistance (toQ c) (toQ t2)) tol2) eqn:E2;
    destruct (root_leb_num (Posterizer.colorDistance (toQ c) (toQ t1)) tol1) eqn:E1;
    cbn [fst snd]; rewrite ?E1, ?E2; reflexivity.
Qed.

Lemma run_image_in (h : heap) (img : ImageData) (arr out : list Z) :
  image_in h img arr -> length out = length arr -> Forall channel_ok out ->
  image_in (<[fresh (dom h) := out]> h)
           (mkImageData (width img) (height img) (fresh (dom h))) out.
Proof.
  intros (Hl & Hw & Hh & Hlen & _) Hlo Hok. unfold image_in. cbn [data width height].
  split; [apply lookup_insert_eq |]. split; [exact Hw |]. split; [exact Hh |].
  split; [lia | exact Hok].
Qed.

Lemma pixels_same (a b : list Z) (w ht : Z) :
  Z.of_nat (length a) = 4 * w * ht -> length b = length a ->
  (forall p px, pixel a p = Some px -> pixel b p = Some px) -> b = a.
Proof.
  intros Ha Hb H. apply pixels_ext with (Z.to_nat (w * ht)); [lia | lia |].
  intros p Hp.
  destruct (pixel_is_Some a p (Z.to_nat (w * ht)) ltac:(lia) Hp) as [px Hpx].
  now rewrite Hpx, (H _ _ Hpx).
Qed.

(** X8. [makeColorTransparent] is idempotent: applied to its own result,
    with the same color and tolerance, it returns a buffer with the same
    bytes. *)
Theorem makeColorTransparent_idempotent (h : heap) (img : ImageData) (arr : list Z)
    (targetColor : Color) (tolerance : Q) :
  image_in h img arr ->
  exists once h1 out twice h2,
    Posterizer.makeColorTransparent img targetColor tolerance h = Ok (once, h1) /\
    h1 !! data once = Some out /\
    Posterizer.makeColorTransparent once targetColor tolerance h1 = Ok (twice, h2) /\
    h2 !! data twice = Some out.
Proof.
  intros Himg.
  destruct (makeColorTransparent_run h img arr targetColor tolerance Himg)
    as (out & Hrun & Hlen & Hok & Hpix).
  pose proof (run_image_in h img arr out Himg Hlen Hok) as Himg1.
  destruct (makeColorTransparent_run _ _ out targetColor tolerance Himg1)
    as (out2 & Hrun2 & Hlen2 & Hok2 & Hpix2).
  eexists _, _, out. eexists _, _. split; [exact Hrun |].
  split; [apply lookup_insert_eq |]. split; [exact Hrun2 |].
  cbn [data]. rewrite lookup_insert_eq. f_equal.
  destruct Himg1 as (_ & _ & _ & Hl1 & _). cbn [width height] in Hl1.
  apply (pixels_same out out2 _ _ Hl1 Hlen2).
  intros p px Hp.
  assert (Hp' : (p < Z.to_nat (width img * height img))%nat)
    by (apply pixel_lt in Hp; lia).
  destruct Himg as (_ & _ & _ & Hl0 & _).
  destruct (pixel_is_Some arr p (Z.to_nat (width img * height img)) ltac:(lia) Hp')
    as [px0 Hpx0].
  pose proof (Hpix _ _ Hpx0) as E. rewrite Hp in E. injection E as ->.
  rewrite (Hpix2 _ _ Hp). now rewrite erase_pixel_idem.
Qed.

Lemma makeColorTransparent_idempotent_witness :
  exists once h1 out twice h2,
    Posterizer.makeColorTransparent ex_img (0, 0, 0) 20 ex_heap = Ok (once, h1) /\
    h1 !! data once = Some out /\
    Posterizer.makeColorTransparent once (0, 0, 0) 20 h1 = Ok (twice, h2) /\
    h2 !! data twice = Some out.
Proof.
  apply (makeColorTransparent_idempotent ex_heap ex_img ex_arr (0, 0, 0) 20).
  exact ex_image_in.
Defined.

(** X9. Two applications of [makeColorTransparent] commute: erasing a first
    color and then a second one gives the same bytes as erasing them in the
    other order. *)
Theorem makeColorTransparent_commutes (h : heap) (img : ImageData) (arr : list Z)
    (c1 c2 : Color) (tol1 tol2 : Q) :
  image_in h img arr ->
  exists a1 h1 a2 h2 b1 h1' b2 h2' out,
    Posterizer.makeColorTransparent img c1 tol1 h = Ok (a1, h1) /\
    Posterizer.makeColorTransparent a1 c2 tol2 h1 = Ok (a2, h2) /\
    Posterizer.makeColorTransparent img c2 tol2 h = Ok (b1, h1') /\
    Posterizer.makeColorTransparent b1 c1 tol1 h1' = Ok (b2, h2') /\
    h2 !! data a2 = Some out /\ h2' !! data b2 = Some out.
Proof.
  intros Himg.
  destruct (makeColorTransparent_run h img arr c1 tol1 Himg)
    as (o1 & Hr1 & Hl1 & Hk1 & Hp1).
  pose proof (run_image_in h img arr o1 Himg Hl1 Hk1) as Hi1.
  destruct (makeColorTransparent_run _ _ o1 c2 tol2 Hi1)
    as (o12 & Hr12 & Hl12 & Hk12 & Hp12).
  destruct (makeColorTransparent_run h img arr c2 tol2 Himg)
    as (o2 & Hr2 & Hl2 & Hk2 & Hp2).
  pose proof (run_image_in h img arr o2 Himg Hl2 Hk2) as Hi2.
  destruct (makeColorTransparent_run _ _ o2 c1 tol1 Hi2)
    as (o21 & Hr21 & Hl21 & Hk21 & Hp21).
  eexists _, _, _, _, _, _, _, _, o12.
  split; [exact Hr1 |]. split; [exact Hr12 |]. split; [exact Hr2 |].
  split; [exact Hr21 |]. cbn [data]. rewrite !lookup_insert_eq.
  split; [reflexivity |]. f_equal.
  destruct Himg as (_ & _ & _ & Hl0 & _).
  apply pixels_ext with (Z.to_nat (width img * height img)); [lia | lia |].
  intros p Hp.
  destruct (pixel_is_Some arr p (Z.to_nat (width img * height img)) ltac:(lia) Hp)
    as [px0 Hpx0].
  rewrite (Hp21 _ _ (Hp2 _ _ Hpx0)), (Hp12 _ _ (Hp1 _ _ Hpx0)).
  now rewrite erase_pixel_comm.
Qed.

Lemma makeColorTransparent_commutes_witness :
  exists a1 h1 a2 h2 b1 h1' b2 h2' out,
    Posterizer.makeColorTransparent ex_img (0, 0, 0) 20 ex_heap = Ok (a1, h1) /\
    Posterizer.makeColorTransparent a1 (200, 0, 0) 10 h1 = Ok (a2, h2) /\
    Posterizer.makeColorTransparent ex_img (200, 0, 0) 10 ex_heap = Ok (b1, h1') /\
    Posterizer.makeColorTransparent b1 (0, 0, 0) 20 h1' = Ok (b2, h2') /\
    h2 !! data a2 = Some out /\ h2' !! data b2 = Some out.
Proof.
  apply (makeColorTransparent_commutes ex_heap ex_img ex_arr (0, 0, 0) (200, 0, 0) 20 10).
  exact ex_image_in.
Defined.

(** ** The region of the flood fill *)

Section FloodFill.

Variables (h : heap) (img : ImageData) (arr : list Z).
Variables (startColor : option Color) (tolerance : Q).
Hypothesis Himg : image_in h img arr.

Let passes : Z * Z -> bool := alike arr (width img) startColor tolerance.

Variable Inv : gset (Z * Z) -> list (Z * Z) -> list (Z * Z) -> Prop.

Hypothesis Inv_seen : forall v r c q, Inv v r (c :: q) -> c ∈ v -> Inv v r q.
Hypothesis Inv_outside : forall v r c q,
  Inv v r (c :: q) -> c ∉ v -> ~ in_bounds img c -> Inv v r q.
Hypothesis Inv_added : forall v r c q,
  Inv v r (c :: q) -> c ∉ v -> in_bounds img c -> passes c = true ->
  Inv ({[c]} ∪ v) (r ++ [c]) (q ++ fourNeighbours c).
Hypothesis Inv_rejected : forall v r c q,
  Inv v r (c :: q) -> c ∉ v -> in_bounds img c -> passes c = false ->
  Inv ({[c]} ∪ v) r q.

Lemma floodFill_loop_inv (fuel : nat) :
  forall (visited : gset (Z * Z)) (region queue : list (Z * Z)),
    (4 * length (unvisited visited (grid (width img) (height img))) + length queue
     <= fuel)%nat ->
    Inv visited region queue ->
    exists visited' region',
      Posterizer.floodFill_loop fuel img startColor tolerance visited region queue h
      = Ok (Some region', h) /\
      Inv visited' region' [].
Proof.
  pose proof Himg as (Hl & Hw & Hh & Hlen & Hok).
  induction fuel as [| fuel IH]; intros visited region queue Hfuel HI.
  - destruct queue as [| [cx cy] queue]; [| simpl in Hfuel; lia].
    exists visited, region. split; [reflexivity | exact HI].
  - destruct queue as [| [cx cy] queue].
    { exists visited, region. split; [reflexivity | exact HI]. }
    cbn [Posterizer.floodFill_loop]. cbn [length] in Hfuel.
    destruct (bool_decide ((cx, cy) ∈ visited)) eqn:Hvis.
    { apply bool_decide_eq_true in Hvis. apply IH; [lia | eauto]. }
    apply bool_decide_eq_false in Hvis.
    destruct ((cx <? 0) || (cx >=? width img) || (cy <? 0) || (cy >=? height img))
      eqn:Hout.
    { apply IH; [lia |]. apply Inv_outside with (cx, cy); auto.
      intros Hin. apply bounds_test in Hin. congruence. }
    apply bounds_test in Hout. pose proof Hout as [Hx Hy]. simpl in Hx, Hy.
    destruct (pixel_read arr (width img) (height img) cx cy Hlen Hx Hy)
      as (c & a & Hpx & Hr & Hg & Hb & _).
    run (get_lookup _ _ _ _ _ Hl Hr).
    run (get_lookup _ _ _ _ _ Hl Hg).
    run (get_lookup _ _ _ _ _ Hl Hb).
    pose proof (unvisited_lt visited (cx, cy) _
                  (elem_of_grid _ _ _ _ Hx Hy) Hvis) as Hlt.
    replace (red c, green c, blue c) with c by (now destruct c as [[? ?] ?]).
    assert (Halike : passes (cx, cy) = Posterizer.similar c startColor tolerance).
    { unfold passes, alike, cell_color. cbn [fst snd]. now rewrite Hpx. }
    destruct (Posterizer.similar c startColor tolerance) eqn:Esim.
    + apply IH.
      * rewrite length_app. simpl. lia.
      * apply (Inv_added visited region (cx, cy) queue); auto.
    + apply IH; [lia |]. apply (Inv_rejected visited region (cx, cy) queue); auto.
Qed.

End FloodFill.

Section Region.

Variables (img : ImageData) (arr : list Z) (target : Color) (tol : Q).
Variable start : Z * Z.
Hypothesis Hstart : in_bounds img start.

Let passes : Z * Z -> bool := alike arr (width img) (Some target) tol.

Let conn : Z * Z -> Prop := connected img arr target tol start.

Let Inv : gset (Z * Z) -> list (Z * Z) -> list (Z * Z) -> Prop :=
  fill_invariant img arr target tol start.

Lemma alike_within (c : Z * Z) :
  passes c = true <->
  exists col, cell_color arr (width img) c = Some col /\ within col target tol.
Proof.
  unfold passes, alike. destruct (cell_color arr (width img) c) as [col |].
  - cbn [Posterizer.similar]. rewrite root_leb_num_within. split; [eauto |].
    intros (col' & E & H). now injection E as <-.
  - split; [discriminate | intros (col & E & _); discriminate].
Qed.

Lemma Inv_initial : Inv ∅ [] [start].
Proof.
  unfold Inv, fill_invariant. split; [constructor |].
  split; [intros c Hc; inversion Hc |].
  split; [intros c Hc; now apply not_elem_of_empty in Hc |].
  split; [intros c n Hc; inversion Hc |].
  split; [intros n Hn; left; now apply list_elem_of_singleton in Hn |].
  split; [right; left | now left].
Qed.

Lemma Inv_seen (v : gset (Z * Z)) (r : list (Z * Z)) (c : Z * Z) (q : list (Z * Z)) :
  Inv v r (c :: q) -> c ∈ v -> Inv v r q.
Proof.
  intros (Hnd & Hr & Hv & Hn & Hq & Hs & Hh) Hc. unfold Inv, fill_invariant.
  split; [exact Hnd |]. split; [exact Hr |]. split; [exact Hv |].
  split; [| split; [| split; [| exact Hh]]].
  - intros c0 n Hc0 Hnb. destruct (Hn c0 n Hc0 Hnb) as [H | [H | H]]; auto.
    apply elem_of_cons in H as [-> | H]; auto.
  - intros n Hin. apply Hq. now right.
  - destruct Hs as [H | H]; auto.
    apply elem_of_cons in H as [-> | H]; auto.
Qed.

Lemma Inv_outside (v : gset (Z * Z)) (r : list (Z * Z)) (c : Z * Z) (q : list (Z * Z)) :
  Inv v r (c :: q) -> c ∉ v -> ~ in_bounds img c -> Inv v r q.
Proof.
  intros (Hnd & Hr & Hv & Hn & Hq & Hs & Hh) Hc Hout. unfold Inv, fill_invariant.
  split; [exact Hnd |]. split; [exact Hr |]. split; [exact Hv |].
  split; [| split; [| split; [| exact Hh]]].
  - intros c0 n Hc0 Hnb. destruct (Hn c0 n Hc0 Hnb) as [H | [H | H]]; auto.
    apply elem_of_cons in H as [-> | H]; auto.
  - intros n Hin. apply Hq. now right.
  - destruct Hs as [H | H]; auto.
    apply elem_of_cons in H as [E | H]; auto. subst c. contradiction.
Qed.

Lemma Inv_rejected (v : gset (Z * Z)) (r : list (Z * Z)) (c : Z * Z) (q : list (Z * Z)) :
  Inv v r (c :: q) -> c ∉ v -> in_bounds img c -> passes c = false ->
  Inv ({[c]} ∪ v) r q.
Proof.
  intros (Hnd & Hr & Hv & Hn & Hq & Hs & Hh) Hc Hin Hno. unfold Inv, fill_invariant.
  split; [exact Hnd |].
  split; [| split; [| split; [| split; [| split; [| exact Hh]]]]].
  - intros c0 Hc0. destruct (Hr c0 Hc0) as [H1 H2]. split; [| exact H2].
    now apply elem_of_union_r.
  - intros c0 Hc0. apply elem_of_union in Hc0 as [Hc0 | Hc0].
    + apply elem_of_singleton in Hc0. subst c0. split; [exact Hin |].
      intros E. unfold passes in Hno. congruence.
    + now apply Hv.
  - intros c0 n Hc0 Hnb. destruct (Hn c0 n Hc0 Hnb) as [H | [H | H]]; auto.
    + left. now apply elem_of_union_r.
    + apply elem_of_cons in H as [-> | H]; auto.
      left. apply elem_of_union_l. now apply elem_of_singleton.
  - intros n Hn'. apply Hq. now right.
  - destruct Hs as [H | H].
    + left. now apply elem_of_union_r.
    + apply elem_of_cons in H as [-> | H]; auto.
      left. apply elem_of_union_l. now apply elem_of_singleton.
Qed.

Lemma Inv_added (v : gset (Z * Z)) (r : list (Z * Z)) (c : Z * Z) (q : list (Z * Z)) :
  Inv v r (c :: q) -> c ∉ v -> in_bounds img c -> passes c = true ->
  Inv ({[c]} ∪ v) (r ++ [c]) (q ++ fourNeighbours c).
Proof.
  intros (Hnd & Hr & Hv & Hn & Hq & Hs & Hh) Hc Hin Hyes. unfold Inv, fill_invariant.
  assert (Hcr : c ∉ r) by (intros H; now apply Hr in H as [H _]).
  assert (Hconn : conn c).
  { apply alike_within in Hyes as (col & Hcol & Hw).
    destruct (Hq c ltac:(left)) as [-> | (c0 & Hc0 & Hnb)].
    - now apply connected_start with col.
    - apply connected_step with c0 col; auto. now apply Hr. }
  split; [| split; [| split; [| split; [| split; [| split]]]]].
  - apply NoDup_app. split; [exact Hnd |]. split; [| apply NoDup_singleton].
    intros c0 Hc0 Hc1. apply list_elem_of_singleton in Hc1. now subst c0.
  - intros c0 Hc0. apply elem_of_app in Hc0 as [Hc0 | Hc0].
    + destruct (Hr c0 Hc0) as [H1 H2]. split; [| exact H2]. now apply elem_of_union_r.
    + apply list_elem_of_singleton in Hc0. subst c0. split; [| exact Hconn].
      apply elem_of_union_l. now apply elem_of_singleton.
  - intros c0 Hc0. apply elem_of_union in Hc0 as [Hc0 | Hc0].
    + apply elem_of_singleton in Hc0. subst c0. split; [exact Hin |].
      intros _. apply elem_of_app. right. now apply list_elem_of_singleton.
    + destruct (Hv c0 Hc0) as [H1 H2]. split; [exact H1 |].
      intros H. apply elem_of_app. left. auto.
  - intros c0 n Hc0 Hnb. apply elem_of_app in Hc0 as [Hc0 | Hc0].
    + destruct (Hn c0 n Hc0 Hnb) as [H | [H | H]]; auto.
      * left. now apply elem_of_union_r.
      * apply elem_of_cons in H as [-> | H].
        -- left. apply elem_of_union_l. now apply elem_of_singleton.
        -- right. left. apply elem_of_app. now left.
    + apply list_elem_of_singleton in Hc0. subst c0.
      right. left. apply elem_of_app. now right.
  - intros n Hn'. apply elem_of_app in Hn' as [Hn' | Hn'].
    + destruct (Hq n ltac:(now right)) as [-> | (c0 & Hc0 & Hnb)]; [now left |].
      right. exists c0. split; [| exact Hnb]. apply elem_of_app. now left.
    + right. exists c. split; [| exact Hn'].
      apply elem_of_app. right. now apply list_elem_of_singleton.
  - destruct Hs as [H | H].
    + left. now apply elem_of_union_r.
    + apply elem_of_cons in H as [-> | H].
      * left. apply elem_of_union_l. now apply elem_of_singleton.
      * right. apply elem_of_app. now left.
  - right. destruct Hh as [-> | Hh].
    + cbn [app head].
      destruct (Hq c ltac:(left)) as [-> | (c0 & Hc0 & _)]; [reflexivity |].
      inversion Hc0.
    + destruct r; [discriminate | exact Hh].
Qed.

Lemma Inv_final (v : gset (Z * Z)) (r : list (Z * Z)) :
  Inv v r [] ->
  NoDup r /\ (forall c, c ∈ r <-> conn c) /\ (r = [] \/ head r = Some start).
Proof.
  intros (Hnd & Hr & Hv & Hn & Hq & Hs & Hh).
  split; [exact Hnd |]. split; [| exact Hh].
  assert (Hsv : start ∈ v) by (destruct Hs as [H | H]; [exact H | inversion H]).
  intros c. split; [intros Hc; now apply Hr |].
  intros Hc. induction Hc as [col Hin Hcol Hw | c n col Hc IH Hnb Hin Hcol Hw].
  - apply Hv; [exact Hsv |]. apply alike_within. eauto.
  - destruct (Hn c n IH Hnb) as [H | [H | H]]; [| inversion H | contradiction].
    apply Hv; [exact H |]. apply alike_within. eauto.
Qed.

End Region.

Lemma start_color (h : heap) (img : ImageData) (arr : list Z) (x y : Z) :
  image_in h img arr -> in_bounds img (x, y) ->
  exists c,
    cell_color arr (width img) (x, y) = Some c /\
    forall k : option Color -> M (option (list (Z * Z))),
      (do r <- Posterizer.get_opt (data img) ((y * width img + x) * 4);
       do g <- Posterizer.get_opt (data img) ((y * width img + x) * 4 + 1);
       do b <- Posterizer.get_opt (data img) ((y * width img + x) * 4 + 2);
       k (Posterizer.rgb_opt r g b)) h = k (Some c) h.
Proof.
  intros (Hl & Hw & Hh & Hlen & Hok) [Hx Hy]. cbn [fst snd] in Hx, Hy.
  destruct (pixel_read arr (width img) (height img) x y Hlen Hx Hy)
    as (c & a & Hpx & Hr & Hg & Hb & _).
  exists c. split; [unfold cell_color; cbn [fst snd]; now rewrite Hpx |].
  intros k.
  run (get_opt_lookup _ _ _ ((y * width img + x) * 4) Hl).
  run (get_opt_lookup _ _ _ ((y * width img + x) * 4 + 1) Hl).
  run (get_opt_lookup _ _ _ ((y * width img + x) * 4 + 2) Hl).
  rewrite Hr, Hg, Hb. cbn [Posterizer.rgb_opt].
  now destruct c as [[? ?] ?].
Qed.

Lemma floodFill_region (h : heap) (img : ImageData) (arr : list Z) (x y : Z)
    (tolerance : Q) :
  image_in h img arr -> in_bounds img (x, y) ->
  exists target region,
    cell_color arr (width img) (x, y) = Some target /\
    Posterizer.floodFill img x y tolerance h = Ok (Some region, h) /\
    NoDup region /\
    (forall c, c ∈ region <-> connected img arr target tolerance (x, y) c) /\
    (region = [] \/ head region = Some (x, y)).
Proof.
  intros Himg Hstart.
  destruct (start_color h img arr x y Himg Hstart) as (target & Hcol & Hread).
  exists target.
  destruct (floodFill_loop_inv h img arr (Some target) tolerance Himg
              (fill_invariant img arr target tolerance (x, y))
              ltac:(eauto using Inv_seen) ltac:(eauto using Inv_outside)
              ltac:(eauto using Inv_added) ltac:(eauto using Inv_rejected)
              (Posterizer.floodFill_fuel img) ∅ [] [(x, y)])
    as (v' & region & Hrun & Hfin).
  - unfold Posterizer.floodFill_fuel.
    pose proof (unvisited_all (grid (width img) (height img))) as Hle.
    rewrite length_grid in Hle. simpl. lia.
  - now apply Inv_initial.
  - exists region. split; [exact Hcol |].
    apply Inv_final in Hfin as (Hnd & Hiff & Hh).
    split; [| auto].
    unfold Posterizer.floodFill. cbv zeta.
    rewrite <- Hrun.
    exact (Hread (fun sc => Posterizer.floodFill_loop (Posterizer.floodFill_fuel img)
                              img sc tolerance ∅ [] [(x, y)])).
Qed.

Lemma connected_within (img : ImageData) (arr : list Z) (target : Color) (tol : Q)
    (start c : Z * Z) :
  connected img arr target tol start c ->
  in_bounds img c /\
  exists col, cell_color arr (width img) c = Some col /\ within col target tol.
Proof. intros H. destruct H; eauto. Qed.

Lemma within_self (c : Color) (tol : Q) : (0 <= tol)%Q -> within c c tol.
Proof.
  intros H. split; [exact H |].
  replace (sqdist c c) with 0 by (symmetry; now apply sqdist_zero).
  change (inject_Z 0) with 0%Q. nra.
Qed.

(** X10. For a tolerance that is a whole number, the region that
    [floodFill] returns from a start within the image is the set of the
    cells connected to the start, by steps to one of the four neighbours,
    through cells of the image whose color is within the tolerance of the
    color of the start; no cell is listed twice. *)
Theorem floodFill_connected_component (h : heap) (img : ImageData) (arr : list Z)
    (x y : Z) (tolerance : Z) (target : Color) :
  image_in h img arr -> in_bounds img (x, y) ->
  cell_color arr (width img) (x, y) = Some target ->
  exists region,
    Posterizer.floodFill img x y (inject_Z tolerance) h = Ok (Some region, h) /\
    NoDup region /\
    forall c, c ∈ region <-> connected img arr target (inject_Z tolerance) (x, y) c.
Proof.
  intros Himg Hstart Hcol.
  destruct (floodFill_region h img arr x y (inject_Z tolerance) Himg Hstart)
    as (target' & region & Hcol' & Hrun & Hnd & Hiff & _).
  assert (target' = target) by congruence. subst target'.
  exists region. auto.
Qed.

Lemma floodFill_connected_component_witness :
  exists region,
    Posterizer.floodFill ex_img 0 0 (inject_Z 30) ex_heap = Ok (Some region, ex_heap) /\
    NoDup region /\
    forall c, c ∈ region <-> connected ex_img ex_arr (10, 10, 10) (inject_Z 30) (0, 0) c.
Proof.
  apply (floodFill_connected_component ex_heap ex_img ex_arr 0 0 30 (10, 10, 10)).
  - exact ex_image_in.
  - split; simpl; lia.
  - reflexivity.
Defined.

Lemma floodFill_outside (h : heap) (img : ImageData) (arr : list Z)
    (x y : Z) (tolerance : Q) :
  image_in h img arr -> ~ in_bounds img (x, y) ->
  Posterizer.floodFill img x y tolerance h = Ok (Some [], h).
Proof.
  intros Himg Hno. pose proof Himg as (Hl & _).
  unfold Posterizer.floodFill. cbv zeta.
  run (get_opt_lookup _ _ _ ((y * width img + x) * 4) Hl).
  run (get_opt_lookup _ _ _ ((y * width img + x) * 4 + 1) Hl).
  run (get_opt_lookup _ _ _ ((y * width img + x) * 4 + 2) Hl).
  unfold Posterizer.floodFill_fuel. rewrite Nat.add_1_r.
  cbn [Posterizer.floodFill_loop].
  rewrite bool_decide_eq_false_2 by apply not_elem_of_empty.
  destruct ((x <? 0) || (x >=? width img) || (y <? 0) || (y >=? height img)) eqn:E;
    [| apply bounds_test in E; contradiction].
  now destruct (4 * Z.to_nat (width img * height img))%nat.
Qed.

Lemma floodFill_negative (h : heap) (img : ImageData) (arr : list Z)
    (x y : Z) (tolerance : Q) :
  image_in h img arr -> (tolerance < 0)%Q ->
  Posterizer.floodFill img x y tolerance h = Ok (Some [], h).
Proof.
  intros Himg Hneg.
  destruct (decide (in_bounds img (x, y))) as [Hin | Hno];
    [| now apply floodFill_outside with arr].
  destruct (floodFill_region h img arr x y tolerance Himg Hin)
    as (target & region & _ & Hrun & _ & Hiff & _).
  rewrite Hrun. destruct region as [| c region]; [reflexivity |].
  destruct (Hiff c) as [Hc _]. specialize (Hc ltac:(left)).
  apply connected_within in Hc as (_ & col & _ & Htol & _). lra.
Qed.

Lemma floodFill_begins (h : heap) (img : ImageData) (arr : list Z)
    (x y : Z) (tolerance : Q) :
  image_in h img arr -> in_bounds img (x, y) -> (0 <= tolerance)%Q ->
  exists rest,
    Posterizer.floodFill img x y tolerance h = Ok (Some ((x, y) :: rest), h).
Proof.
  intros Himg Hin Htol.
  destruct (floodFill_region h img arr x y tolerance Himg Hin)
    as (target & region & Hcol & Hrun & _ & Hiff & Hhead).
  rewrite Hrun.
  assert (Hs : (x, y) ∈ region).
  { apply Hiff. apply connected_start with target; auto. now apply within_self. }
  destruct Hhead as [-> | Hhead]; [inversion Hs |].
  destruct region as [| c rest]; [discriminate |].
  injection Hhead as ->. eauto.
Qed.

(** X11. [floodFill] returns the empty region when the start lies outside the
    image and when the tolerance is negative; from a start within the image
    and with a tolerance that is not negative the region begins with the
    start. *)
Theorem floodFill_start (h : heap) (img : ImageData) (arr : list Z)
    (x y : Z) (tolerance : Q) :
  image_in h img arr ->
  (~ in_bounds img (x, y) ->
   Posterizer.floodFill img x y tolerance h = Ok (Some [], h)) /\
  ((tolerance < 0)%Q ->
   Posterizer.floodFill img x y tolerance h = Ok (Some [], h)) /\
  (in_bounds img (x, y) -> (0 <= tolerance)%Q ->
   exists rest,
     Posterizer.floodFill img x y tolerance h = Ok (Some ((x, y) :: rest), h)).
Proof.
  intros Himg. split; [| split].
  - now apply floodFill_outside with arr.
  - now apply floodFill_negative with arr.
  - now apply floodFill_begins with arr.
Qed.

Lemma floodFill_start_witness :
  (~ in_bounds ex_img (0, 0) ->
   Posterizer.floodFill ex_img 0 0 30 ex_heap = Ok (Some [], ex_heap)) /\
  ((30 < 0)%Q ->
   Posterizer.floodFill ex_img 0 0 30 ex_heap = Ok (Some [], ex_heap)) /\
  (in_bounds ex_img (0, 0) -> (0 <= 30)%Q ->
   exists rest,
     Posterizer.floodFill ex_img 0 0 30 ex_heap = Ok (Some ((0, 0) :: rest), ex_heap)).
Proof.
  apply (floodFill_start ex_heap ex_img ex_arr 0 0 30). exact ex_image_in.
Defined.

(** X12. A click on a pixel of the image erases that pixel, with either
    tool: for a tolerance that is not negative, [makeRegionTransparent]
    started at the pixel, and [makeColorTransparent] called with the color
    of the pixel, both return a buffer in which the pixel has alpha 0. *)
Theorem clicked_pixel_erased (h : heap) (img : ImageData) (arr : list Z)
    (x y : Z) (c : Color) (a : Z) (tol tol' : Q) :
  image_in h img arr -> in_bounds img (x, y) ->
  pixel arr (pixel_index (width img) x y) = Some (c, a) ->
  (0 <= tol)%Q -> (0 <= tol')%Q ->
  (exists newData h' out,
     Posterizer.makeRegionTransparent img x y tol h = Ok (Some newData, h') /\
     h' !! data newData = Some out /\
     pixel out (pixel_index (width img) x y) = Some (c, 0)) /\
  (exists newData h' out,
     Posterizer.makeColorTransparent img c tol' h = Ok (newData, h') /\
     h' !! data newData = Some out /\
     pixel out (pixel_index (width img) x y) = Some (c, 0)).
Proof.
  intros Himg Hin Hpx Htol Htol'. split.
  - destruct (makeRegionTransparent_run h img arr x y tol Himg)
      as (region & out & Hfill & _ & Hrun & _ & _ & Hpix).
    destruct (floodFill_begins h img arr x y tol Himg Hin Htol) as (rest & Hfill').
    assert (region = (x, y) :: rest) by congruence. subst region.
    eexists _, _, out. split; [exact Hrun |]. split; [apply lookup_insert_eq |].
    rewrite (Hpix _ _ Hpx). unfold erase_region. cbn [fst snd fmap list_fmap].
    rewrite bool_decide_eq_true_2 by left. reflexivity.
  - destruct (makeColorTransparent_run h img arr c tol' Himg)
      as (out & Hrun & _ & _ & Hpix).
    eexists _, _, out. split; [exact Hrun |]. split; [apply lookup_insert_eq |].
    rewrite (Hpix _ _ Hpx). unfold erase_pixel. cbn [fst snd].
    now rewrite (proj2 (root_leb_num_within c c tol') (within_self c tol' Htol')).
Qed.

Lemma clicked_pixel_erased_witness :
  (exists newData h' out,
     Posterizer.makeRegionTransparent ex_img 0 0 30 ex_heap = Ok (Some newData, h') /\
     h' !! data newData = Some out /\
     pixel out (pixel_index (width ex_img) 0 0) = Some ((10, 10, 10), 0)) /\
  (exists newData h' out,
     Posterizer.makeColorTransparent ex_img (10, 10, 10) 10 ex_heap = Ok (newData, h') /\
     h' !! data newData = Some out /\
     pixel out (pixel_index (width ex_img) 0 0) = Some ((10, 10, 10), 0)).
Proof.
  apply (clicked_pixel_erased ex_heap ex_img ex_arr 0 0 (10, 10, 10) 255 30 10).
  - exact ex_image_in.
  - split; simpl; lia.
  - reflexivity.
  - discriminate.
  - discriminate.
Defined.

(** ** Conversion from hue, saturation and lightness *)

Lemma percent (s : Q) : (0 <= s <= 100)%Q -> (0 <= s / 100 <= 1)%Q.
Proof.
  intros [H0 H1].
  assert (E : (100 * (s / 100) == s)%Q) by (apply Qmult_div_r; discriminate).
  revert E. generalize (s / 100)%Q. intros t E. split; lra.
Qed.

(** X13. For a hue that is not negative and a saturation and a lightness
    between 0 and 100, the three channels that [hslToRgb] returns are
    integers between 0 and 255. *)
Theorem hslToRgb_in_range (h s l : Q) :
  (0 <= h)%Q -> (0 <= s <= 100)%Q -> (0 <= l <= 100)%Q ->
  color_ok (Posterizer.hslToRgb h s l).
Proof.
  intros Hh Hs Hl. unfold Posterizer.hslToRgb.
  rewrite Qrem_mod2 by (apply Qle_shift_div_l; [reflexivity | lra]).
  pose proof (Qmod2_range (h / 60)) as [Ht0 Ht2].
  assert (Hu : (0 <= Qabs (Qmod2 (h / 60) - 1) <= 1)%Q).
  { split; [apply Qabs_nonneg |]. apply Qabs_Qle_condition. split; lra. }
  revert Hu. generalize (Qabs (Qmod2 (h / 60) - 1)). intros u [Hu0 Hu1].
  apply percent in Hs, Hl. revert Hs Hl.
  generalize (s / 100)%Q (l / 100)%Q. clear s l. intros s l [Hs0 Hs1] [Hl0 Hl1].
  assert (Ha : (0 <= Qabs (2 * l - 1))%Q /\ (2 * l - 1 <= Qabs (2 * l - 1))%Q
               /\ (1 - 2 * l <= Qabs (2 * l - 1))%Q /\ (Qabs (2 * l - 1) <= 1)%Q).
  { split; [apply Qabs_nonneg |]. split; [apply Qle_Qabs |]. split.
    - rewrite <- (Qabs_opp (2 * l - 1)).
      apply Qle_trans with (- (2 * l - 1))%Q; [lra | apply Qle_Qabs].
    - apply Qabs_Qle_condition. split; lra. }
  revert Ha. generalize (Qabs (2 * l - 1)). intros a (Ha0 & Ha1 & Ha2 & Ha3).
  assert (Hc : (0 <= (1 - a) * s <= 1 - a)%Q) by (split; nra).
  revert Hc. generalize ((1 - a) * s)%Q. intros c [Hc0 Hc1].
  assert (Hx : (0 <= c * (1 - u) <= c)%Q) by (split; nra).
  revert Hx. generalize (c * (1 - u))%Q. intros x [Hx0 Hx1].
  assert (E : (2 * (c / 2) == c)%Q) by (apply Qmult_div_r; discriminate).
  revert E. generalize (c / 2)%Q. intros t E.
  unfold color_ok.
  destruct (Qltb h 60); [| destruct (Qltb h 120); [| destruct (Qltb h 180);
    [| destruct (Qltb h 240); [| destruct (Qltb h 300)]]]];
    cbn [red green blue fst snd]; repeat split;
    apply round_unit_ok; split; lra.
Qed.

Lemma hslToRgb_in_range_witness : color_ok (Posterizer.hslToRgb 30 70 50).
Proof.
  apply (hslToRgb_in_range 30 70 50).
  - discriminate.
  - split; discriminate.
  - split; discriminate.
Defined.

(** X14. With saturation 0 [hslToRgb] returns a grey, whatever the hue: the
    three channels are the lightness scaled to 255 and rounded. *)
Theorem hslToRgb_grey (h l : Q) :
  Posterizer.hslToRgb h 0 l
  = (Math_round (l / 100 * 255), Math_round (l / 100 * 255),
     Math_round (l / 100 * 255)).
Proof.
  unfold Posterizer.hslToRgb.
  set (c := ((1 - Qabs (2 * (l / 100) - 1)) * (0 / 100))%Q).
  assert (Ec : (c == 0)%Q).
  { unfold c. assert (E0 : (0 / 100 == 0)%Q) by reflexivity. rewrite E0. ring. }
  set (x := (c * (1 - Qabs (Posterizer.Qrem (h / 60) 2 - 1)))%Q).
  assert (Ex : (x == 0)%Q) by (unfold x; rewrite Ec; ring).
  assert (Em : (l / 100 - c / 2 == l / 100)%Q).
  { rewrite Ec. assert (E0 : (0 / 2 == 0)%Q) by reflexivity. rewrite E0. ring. }
  assert (R : forall v, (v == 0)%Q ->
            Math_round ((v + (l / 100 - c / 2)) * 255) = Math_round (l / 100 * 255)).
  { intros v Ev. unfold Math_round. apply Qfloor_comp. rewrite Ev, Em. ring. }
  destruct (Qltb h 60); [| destruct (Qltb h 120); [| destruct (Qltb h 180);
    [| destruct (Qltb h 240); [| destruct (Qltb h 300)]]]];
    cbn [red green blue fst snd]; rewrite ?(R c Ec), ?(R x Ex), ?(R 0%Q (Qeq_refl 0));
    reflexivity.
Qed.

(** X15. For 1 to 16 colors the fallback palette has no color twice. *)
Theorem generateDefaultPalette_distinct (k : Z) :
  1 <= k <= 16 -> NoDup (Posterizer.generateDefaultPalette k).
Proof.
  intros Hk.
  assert (E : k ∈ zrange 1 17 1) by (apply elem_of_zrange_unit; lia).
  revert E. generalize k. apply Forall_forall.
  apply (bool_decide_unpack _). vm_compute. exact I.
Qed.

Lemma generateDefaultPalette_distinct_witness :
  NoDup (Posterizer.generateDefaultPalette 5).
Proof. apply (generateDefaultPalette_distinct 5). lia. Defined.

(** ** More on path simplification *)

Section Simplified.

Import SVGExporter.

Lemma last_snoc_take {A} (l : list A) (x : A) :
  last l = Some x -> l = take (length l - 1) l ++ [x].
Proof.
  intros H. destruct (last_is_Some l) as [Hne _].
  destruct l as [| y l'] using rev_ind; [discriminate |].
  rewrite last_snoc in H. injection H as ->.
  rewrite length_app. cbn [length].
  replace (length l' + 1 - 1)%nat with (length l') by lia.
  now rewrite take_app_length.
Qed.

Lemma simplifyPath_sublist (tolerance : Q) :
  (0 <= tolerance)%Q ->
  forall (fuel : nat) (points r : list point),
    (length points <= fuel + 2)%nat ->
    simplifyPath fuel points tolerance = Some r ->
    r `sublist_of` points.
Proof.
  intros Htol. induction fuel as [| fuel IH]; intros points r Hfuel Hr.
  - rewrite simplifyPath_short in Hr by lia. now injection Hr as <-.
  - cbn [simplifyPath] in Hr.
    destruct (Nat.leb_spec (length points) 2) as [| Hlen];
      [now injection Hr as <- |].
    destruct (head points) as [first |] eqn:Hhead; [| discriminate].
    destruct (last points) as [lst |] eqn:Hlast; [| discriminate].
    destruct (farthest points first lst) as [maxDist maxIndex] eqn:Efar.
    destruct (root_gtb_num maxDist tolerance) eqn:Egt.
    + pose proof (farthest_interior points first lst tolerance Htol) as Hi.
      rewrite Efar in Hi. cbn [fst snd] in Hi. specialize (Hi Egt).
      destruct (simplifyPath_returns tolerance Htol fuel (take (maxIndex + 1) points))
        as (lft & El & _ & _ & Hlt & Hl2); [rewrite length_take; lia |].
      destruct (simplifyPath_returns tolerance Htol fuel (drop maxIndex points))
        as (rgt & Er & _ & _ & _ & _); [rewrite length_drop; lia |].
      rewrite El, Er in Hr. injection Hr as <-.
      assert (Sl : lft `sublist_of` take (maxIndex + 1) points)
        by (apply IH; [rewrite length_take; lia | exact El]).
      assert (Sr : rgt `sublist_of` drop maxIndex points)
        by (apply IH; [rewrite length_drop; lia | exact Er]).
      destruct (lookup_lt_is_Some_2 points maxIndex ltac:(lia)) as [pm Hpm].
      assert (Hsplit : take (maxIndex + 1) points = take maxIndex points ++ [pm]).
      { replace (maxIndex + 1)%nat with (S maxIndex) by lia.
        now apply take_S_r. }
      assert (Hlast_l : last lft = Some pm).
      { rewrite Hlt, Hsplit. apply last_snoc. }
      rewrite (last_snoc_take lft pm Hlast_l) in Sl. rewrite Hsplit in Sl.
      apply sublist_app_inv_r in Sl.
      rewrite <- (take_drop maxIndex points).
      now apply sublist_app.
    + injection Hr as <-.
      destruct points as [| p0 points']; [discriminate |].
      injection Hhead as ->.
      apply sublist_skip.
      destruct (last_is_Some points') as [_ Hsome].
      assert (Hl' : last points' = Some lst).
      { destruct points' as [| p1 ps]; [simpl in Hlen; lia |]. exact Hlast. }
      rewrite (last_snoc_take points' lst Hl').
      apply sublist_inserts_l. reflexivity.
Qed.

Lemma degenerate_distance (pt a b : point) :
  (a.1 == b.1)%Q -> (a.2 == b.2)%Q ->
  root_gtb (perpendicularDistance pt a b) (Sqrt 0) = false.
Proof.
  intros E1 E2. unfold perpendicularDistance. cbv zeta.
  assert (Ez : root_is_zero
                 (Math_sqrt ((b.1 - a.1) * (b.1 - a.1) + (b.2 - a.2) * (b.2 - a.2))) = true).
  { unfold root_is_zero, Math_sqrt. cbn [radicand]. apply Qeq_bool_iff.
    rewrite E1, E2. ring. }
  rewrite Ez. reflexivity.
Qed.

Lemma farthest_degenerate (points : list point) (a b : point) :
  (a.1 == b.1)%Q -> (a.2 == b.2)%Q -> farthest points a b = (Sqrt 0, 0%nat).
Proof.
  intros E1 E2. unfold farthest.
  generalize (seq 1 (length points - 2)). intros idxs.
  induction idxs as [| i idxs IH]; [reflexivity |].
  cbn [foldl]. destruct (points !! i) as [p |]; [| exact IH].
  cbv zeta. now rewrite (degenerate_distance p a b E1 E2).
Qed.

End Simplified.

(** X16. For a tolerance that is not negative [simplifyPath] returns, and
    it invents no point and keeps the order: the list it returns is a
    subsequence of the list of points it was given. *)
Theorem simplifyPath_subsequence (points : list SVGExporter.point)
    (tolerance : Q) (fuel : nat) :
  (0 <= tolerance)%Q -> (length points <= fuel)%nat ->
  exists r,
    SVGExporter.simplifyPath fuel points tolerance = Some r /\
    r `sublist_of` points.
Proof.
  intros Htol Hfuel.
  destruct (simplifyPath_returns tolerance Htol fuel points) as (r & Hr & _); [lia |].
  exists r. split; [exact Hr |].
  apply (simplifyPath_sublist tolerance Htol fuel points r); [lia | exact Hr].
Qed.

Lemma simplifyPath_subsequence_witness :
  exists r,
    SVGExporter.simplifyPath 5 ex_path (1 # 2) = Some r /\
    r `sublist_of` ex_path.
Proof.
  apply (simplifyPath_subsequence ex_path (1 # 2) 5).
  - discriminate.
  - simpl. lia.
Defined.

(** X17. A closed contour collapses: when the first and the last of three or
    more points have the same coordinates, every distance to the chord is
    0 and [simplifyPath] returns these two points alone, for every
    tolerance that is not negative. *)
Theorem simplifyPath_closed_contour (points : list SVGExporter.point)
    (first lst : SVGExporter.point) (tolerance : Q) (fuel : nat) :
  (0 <= tolerance)%Q -> (2 < length points)%nat ->
  head points = Some first -> last points = Some lst ->
  (first.1 == lst.1)%Q -> (first.2 == lst.2)%Q ->
  SVGExporter.simplifyPath (S fuel) points tolerance = Some [first; lst].
Proof.
  intros Htol Hlen Hhead Hlast E1 E2. cbn [SVGExporter.simplifyPath].
  destruct (Nat.leb_spec (length points) 2); [lia |].
  rewrite Hhead, Hlast, (farthest_degenerate points first lst E1 E2).
  unfold root_gtb_num, root_leb_num. cbn [radicand].
  rewrite (proj2 (Qle_bool_iff 0 tolerance) Htol).
  rewrite (proj2 (Qle_bool_iff 0 (tolerance * tolerance))) by nra.
  reflexivity.
Qed.

Lemma simplifyPath_closed_contour_witness :
  SVGExporter.simplifyPath 1 ex_closed 1 = Some [(0, 0); (0, 0)]%Q.
Proof.
  apply (simplifyPath_closed_contour ex_closed (0, 0)%Q (0, 0)%Q 1 0).
  - discriminate.
  - simpl. lia.
  - reflexivity.
  - reflexivity.
  - reflexivity.
  - reflexivity.
Defined.

(** ** Colors as text *)

Lemma Math_round_integer (v : Z) : Math_round (inject_Z v) = v.
Proof.
  unfold Math_round. apply Qfloor_between.
  - lra.
  - rewrite inject_Z_plus. change (inject_Z 1) with 1%Q. lra.
Qed.

(** The text of a channel, as [rgbToHex] pads it. *)
Lemma padded_digits (v : Z) :
  0 <= v <= 255 ->
  (if (String.length (toString16 v) =? 1)%nat
   then String "0"%char (toString16 v) else toString16 v)
  = String (hex_digit (v / 16)) (String (hex_digit (v mod 16)) EmptyString).
Proof.
  intros Hv.
  assert (E : v ∈ zrange 0 256 1) by (apply elem_of_zrange_unit; lia).
  revert E. generalize v. apply Forall_forall.
  apply (bool_decide_unpack _). vm_compute. exact I.
Qed.

Lemma hex_value_digit (d : Z) : 0 <= d < 16 -> hex_value (hex_digit d) = Some d.
Proof.
  intros Hd.
  assert (E : d ∈ zrange 0 16 1) by (apply elem_of_zrange_unit; lia).
  revert E. generalize d. apply Forall_forall.
  apply (bool_decide_unpack _). vm_compute. exact I.
Qed.

Lemma hex_value_range (c : ascii) (d : Z) : hex_value c = Some d -> 0 <= d < 16.
Proof.
  unfold hex_value. cbv zeta. generalize (Z.of_nat (nat_of_ascii c)). intros n.
  destruct ((48 <=? n) && (n <=? 57)) eqn:E1.
  { apply andb_true_iff in E1 as [?%Z.leb_le ?%Z.leb_le]. intros [= <-]; lia. }
  destruct ((97 <=? n) && (n <=? 102)) eqn:E2.
  { apply andb_true_iff in E2 as [?%Z.leb_le ?%Z.leb_le]. intros [= <-]; lia. }
  destruct ((65 <=? n) && (n <=? 70)) eqn:E3; [| discriminate].
  apply andb_true_iff in E3 as [?%Z.leb_le ?%Z.leb_le]. intros [= <-]; lia.
Qed.

Lemma parse_two (c1 c2 : ascii) (d1 d2 : Z) :
  hex_value c1 = Some d1 -> hex_value c2 = Some d2 ->
  parseInt16 (String c1 (String c2 EmptyString)) = Some (16 * d1 + d2).
Proof.
  intros H1 H2. unfold parseInt16. cbn [parse_digits]. rewrite H1, H2.
  cbn [default]. f_equal; lia.
Qed.

Lemma rgbToHex_channels (c : Color) :
  color_ok c ->
  Posterizer.rgbToHex (channels c)
  = String "#"%char
      (String (hex_digit (red c / 16)) (String (hex_digit (red c mod 16))
      (String (hex_digit (green c / 16)) (String (hex_digit (green c mod 16))
      (String (hex_digit (blue c / 16)) (String (hex_digit (blue c mod 16))
       EmptyString)))))).
Proof.
  intros (Hr & Hg & Hb). unfold Posterizer.rgbToHex, channels. cbn [map]. cbv zeta.
  rewrite !Math_round_integer.
  rewrite (padded_digits _ Hr), (padded_digits _ Hg), (padded_digits _ Hb).
  reflexivity.
Qed.

(** X18. Round trip: for a color whose channels are integers between 0 and
    255, [hexToRgb] gives back the color from the text that [rgbToHex]
    returns for it. *)
Theorem hexToRgb_rgbToHex (c : Color) :
  color_ok c ->
  Posterizer.hexToRgb (Posterizer.rgbToHex (channels c))
  = (Some (red c), Some (green c), Some (blue c)).
Proof.
  intros Hc. rewrite (rgbToHex_channels c Hc). destruct Hc as (Hr & Hg & Hb).
  unfold channel_ok in *.
  assert (D : forall v, 0 <= v <= 255 ->
              hex_value (hex_digit (v / 16)) = Some (v / 16) /\
              hex_value (hex_digit (v mod 16)) = Some (v mod 16)).
  { intros v Hv. split; apply hex_value_digit.
    - split; [apply Z.div_pos; lia | apply Z.div_lt_upper_bound; lia].
    - apply Z.mod_pos_bound. lia. }
  destruct (D _ Hr) as [R1 R2], (D _ Hg) as [G1 G2], (D _ Hb) as [B1 B2].
  unfold Posterizer.hexToRgb, Posterizer.exec_hex. cbn [forallb].
  unfold Posterizer.is_hex. rewrite R1, R2, G1, G2, B1, B2.
  repeat rewrite bool_decide_eq_true_2 by eauto. cbn [andb].
  rewrite (parse_two _ _ _ _ R1 R2), (parse_two _ _ _ _ G1 G2), (parse_two _ _ _ _ B1 B2).
  pose proof (Z.div_mod (red c) 16 ltac:(lia)).
  pose proof (Z.div_mod (green c) 16 ltac:(lia)).
  pose proof (Z.div_mod (blue c) 16 ltac:(lia)).
  repeat f_equal; lia.
Qed.

Lemma hexToRgb_rgbToHex_witness :
  Posterizer.hexToRgb (Posterizer.rgbToHex (channels (255, 0, 171)))
  = (Some 255, Some 0, Some 171).
Proof.
  apply (hexToRgb_rgbToHex (255, 0, 171)).
  unfold color_ok, channel_ok, red, green, blue. simpl. lia.
Defined.

Lemma is_hex_value (c : ascii) :
  Posterizer.is_hex c = true <-> exists d, hex_value c = Some d.
Proof.
  unfold Posterizer.is_hex. rewrite bool_decide_eq_true. reflexivity.
Qed.

Lemma parse_two_range (c1 c2 : ascii) :
  Posterizer.is_hex c1 = true -> Posterizer.is_hex c2 = true ->
  exists v, parseInt16 (String c1 (String c2 EmptyString)) = Some v /\ 0 <= v <= 255 /\
            hex_digit (v / 16) = lower_hex c1 /\ hex_digit (v mod 16) = lower_hex c2.
Proof.
  intros [d1 H1]%is_hex_value [d2 H2]%is_hex_value.
  pose proof (hex_value_range _ _ H1). pose proof (hex_value_range _ _ H2).
  exists (16 * d1 + d2). split; [now apply parse_two |]. split; [lia |].
  unfold lower_hex. rewrite H1, H2.
  replace ((16 * d1 + d2) / 16) with d1 by (apply Z.div_unique with d2; lia).
  replace ((16 * d1 + d2) mod 16) with d2 by (apply Z.mod_unique with d1; lia).
  auto.
Qed.

Lemma exec_hex_groups (hex : string) (g1 g2 g3 : string) :
  Posterizer.exec_hex hex = Some (g1, g2, g3) ->
  exists c1 c2 c3 c4 c5 c6,
    g1 = String c1 (String c2 EmptyString) /\
    g2 = String c3 (String c4 EmptyString) /\
    g3 = String c5 (String c6 EmptyString) /\
    Forall (fun c => Posterizer.is_hex c = true) [c1; c2; c3; c4; c5; c6] /\
    (hex = text [c1; c2; c3; c4; c5; c6] \/
     hex = String "#"%char (text [c1; c2; c3; c4; c5; c6])).
Proof.
  unfold Posterizer.exec_hex. cbv zeta.
  set (digits := match hex with String "#"%char rest => rest | _ => hex end).
  assert (Hd : hex = digits \/ hex = String "#"%char digits).
  { unfold digits. destruct hex as [| c rest]; [now left |].
    destruct (Ascii.eqb_spec c "#"%char) as [-> | Hne]; [now right |].
    left. destruct c as [[] [] [] [] [] [] [] []]; try reflexivity. congruence. }
  revert Hd. generalize digits. clear digits. intros digits Hd.
  destruct digits as [| c1 [| c2 [| c3 [| c4 [| c5 [| c6 [| c7 rest]]]]]]];
    try discriminate.
  destruct (forallb Posterizer.is_hex [c1; c2; c3; c4; c5; c6]) eqn:E; [| discriminate].
  intros [= <- <- <-]. exists c1, c2, c3, c4, c5, c6.
  repeat (split; [reflexivity |]). split; [| exact Hd].
  apply Forall_forall. intros c Hc. rewrite forallb_forall in E.
  apply E. now apply list_elem_of_In.
Qed.

(** X19. [hexToRgb] always returns three integers between 0 and 255, never
    [NaN]; for a text that is neither 6 nor 7 characters long they are
    0, 0, 0. *)
Theorem hexToRgb_total (hex : string) :
  (exists c, color_ok c /\
             Posterizer.hexToRgb hex = (Some (red c), Some (green c), Some (blue c))) /\
  (String.length hex <> 6%nat -> String.length hex <> 7%nat ->
   Posterizer.hexToRgb hex = (Some 0, Some 0, Some 0)).
Proof.
  unfold Posterizer.hexToRgb.
  destruct (Posterizer.exec_hex hex) as [[[g1 g2] g3] |] eqn:E.
  - apply exec_hex_groups in E
      as (c1 & c2 & c3 & c4 & c5 & c6 & -> & -> & -> & Hhex & Hs).
    repeat (apply Forall_cons in Hhex as [? Hhex]).
    destruct (parse_two_range c1 c2) as (r & -> & Hr & _); auto.
    destruct (parse_two_range c3 c4) as (g & -> & Hg & _); auto.
    destruct (parse_two_range c5 c6) as (b & -> & Hb & _); auto.
    split; [exists (r, g, b); now repeat split |].
    intros H6 H7. destruct Hs as [-> | ->]; simpl in H6, H7; congruence.
  - split; [| reflexivity]. exists (0, 0, 0). split; [| reflexivity].
    unfold color_ok, channel_ok, red, green, blue. cbn [fst snd]. lia.
Qed.

(** X20. Round trip from the text: for six digits in base 16, with or without
    [#] in front, [rgbToHex] applied to the color that [hexToRgb] reads
    returns [#] followed by the six digits in lower case. *)
Theorem rgbToHex_hexToRgb (hex : string) (digits : list ascii) :
  length digits = 6%nat -> Forall (fun c => Posterizer.is_hex c = true) digits ->
  hex = text digits \/ hex = String "#"%char (text digits) ->
  exists c,
    Posterizer.hexToRgb hex = (Some (red c), Some (green c), Some (blue c)) /\
    Posterizer.rgbToHex (channels c) = String "#"%char (text (lower_hex <$> digits)).
Proof.
  intros Hlen Hhex Hs.
  destruct digits as [| c1 [| c2 [| c3 [| c4 [| c5 [| c6 [| c7 rest]]]]]]];
    try discriminate.
  assert (Hall : forallb Posterizer.is_hex [c1; c2; c3; c4; c5; c6] = true).
  { apply forallb_forall. intros c Hc. rewrite Forall_forall in Hhex.
    apply Hhex. now apply list_elem_of_In. }
  repeat (apply Forall_cons in Hhex as [? Hhex]).
  destruct (parse_two_range c1 c2) as (r & Er & Hr & R1 & R2); auto.
  destruct (parse_two_range c3 c4) as (g & Eg & Hg & G1 & G2); auto.
  destruct (parse_two_range c5 c6) as (b & Eb & Hb & B1 & B2); auto.
  exists (r, g, b). split.
  - unfold Posterizer.hexToRgb.
    assert (E : Posterizer.exec_hex hex
                = Some (String c1 (String c2 EmptyString),
                        String c3 (String c4 EmptyString),
                        String c5 (String c6 EmptyString))).
    { destruct Hs as [-> | ->]; unfold Posterizer.exec_hex; cbn [text]; cbv zeta.
      - destruct (Ascii.eqb_spec c1 "#"%char) as [-> | Hne]; [discriminate |].
        replace (match String c1 (String c2 (String c3 (String c4 (String c5
                         (String c6 EmptyString))))) with
                 | String "#"%char rest => rest
                 | _ => String c1 (String c2 (String c3 (String c4 (String c5
                           (String c6 EmptyString)))))
                 end)
          with (String c1 (String c2 (String c3 (String c4 (String c5
                         (String c6 EmptyString))))));
          [now rewrite Hall |].
        destruct c1 as [[] [] [] [] [] [] [] []]; try reflexivity. congruence.
      - now rewrite Hall. }
    rewrite E, Er, Eg, Eb. reflexivity.
  - rewrite rgbToHex_channels by (now repeat split).
    cbn [red green blue fst snd fmap list_fmap text].
    now rewrite R1, R2, G1, G2, B1, B2.
Qed.

Lemma rgbToHex_hexToRgb_witness :
  exists c,
    Posterizer.hexToRgb "#FF00ab"
    = (Some (red c), Some (green c), Some (blue c)) /\
    Posterizer.rgbToHex (channels c) = "#ff00ab"%string.
Proof.
  apply (rgbToHex_hexToRgb "#FF00ab"
           ["F"%char; "F"%char; "0"%char; "0"%char; "a"%char; "b"%char]).
  - reflexivity.
  - repeat (apply List.Forall_cons; [vm_compute; reflexivity |]). apply List.Forall_nil.
  - right. reflexivity.
Defined.

(** ** The smoothing filter *)

Lemma boxOffsets_eq :
  Posterizer.boxOffsets
  = [(-1, -1); (-1, 0); (-1, 1); (0, -1); (0, 0); (0, 1); (1, -1); (1, 0); (1, 1)].
Proof. reflexivity. Qed.

Lemma boxOffsets_range :
  Forall (fun off : Z * Z => -1 <= off.1 <= 1 /\ -1 <= off.2 <= 1)
         Posterizer.boxOffsets.
Proof.
  rewrite boxOffsets_eq.
  repeat (apply List.Forall_cons; [simpl; lia |]). apply List.Forall_nil.
Qed.

Lemma box_run (h : heap) (src : loc) (arr : list Z) (w ht x y : Z) :
  h !! src = Some arr -> Z.of_nat (length arr) = 4 * w * ht ->
  1 <= x < w - 1 -> 1 <= y < ht - 1 ->
  forall offs acc,
    Forall (fun off : Z * Z => -1 <= off.1 <= 1 /\ -1 <= off.2 <= 1) offs ->
    foldM (fun '(r, g, b, count) '(dy, dx) =>
             let idx := ((y + dy) * w + (x + dx)) * 4 in
             do vr <- get src idx;
             do vg <- get src (idx + 1);
             do vb <- get src (idx + 2);
             ret (r + vr, g + vg, b + vb, count + 1)) acc offs h
    = Ok (add_colors acc (box_color arr w x y <$> offs), h).
Proof.
  intros Hl Hlen Hx Hy offs.
  induction offs as [| [dy dx] offs IH]; intros acc Hoffs; [reflexivity |].
  apply Forall_cons in Hoffs as [[Hdy Hdx] Hoffs]. cbn [fst snd] in Hdy, Hdx.
  destruct (pixel_read arr w ht (x + dx) (y + dy) Hlen ltac:(lia) ltac:(lia))
    as (c & a & Hpx & Hr & Hg & Hb & _).
  destruct acc as [[[r g] b] count].
  cbn [foldM]. cbv zeta. unfold bind at 1.
  run (get_lookup _ _ _ _ _ Hl Hr).
  run (get_lookup _ _ _ _ _ Hl Hg).
  run (get_lookup _ _ _ _ _ Hl Hb).
  unfold ret at 1. rewrite (IH _ Hoffs).
  rewrite fmap_cons. unfold add_colors at 2. cbn [foldl].
  unfold box_color at 2 3 4. cbn [fst snd]. rewrite Hpx. reflexivity.
Qed.

Lemma add_colors_bounds (cs : list Color) :
  Forall color_ok cs ->
  forall r g b count, 0 <= r <= 255 * count -> 0 <= g <= 255 * count ->
    0 <= b <= 255 * count -> 0 <= count ->
    exists r' g' b' count',
      add_colors (r, g, b, count) cs = (r', g', b', count') /\
      count' = count + Z.of_nat (length cs) /\
      0 <= r' <= 255 * count' /\ 0 <= g' <= 255 * count' /\ 0 <= b' <= 255 * count'.
Proof.
  induction 1 as [| c cs (Hr & Hg & Hb) Hcs IH]; intros r g b count Hr0 Hg0 Hb0 Hc0.
  - exists r, g, b, count. cbn [length]. repeat split; try lia.
  - unfold add_colors. cbn [foldl]. fold (add_colors (r + red c, g + green c, b + blue c, count + 1) cs).
    unfold channel_ok in *.
    destruct (IH (r + red c) (g + green c) (b + blue c) (count + 1))
      as (r' & g' & b' & count' & E & Hcount & H'); try lia.
    exists r', g', b', count'. split; [exact E |]. split; [cbn [length]; lia | exact H'].
Qed.

Lemma mean_ok (s n : Z) :
  0 < n -> 0 <= s <= 255 * n -> channel_ok (Math_round (inject_Z s / inject_Z n)).
Proof.
  intros Hn Hs. apply Math_round_ok. unfold qchannel_ok.
  assert (HnQ : (0 < inject_Z n)%Q)
    by (change 0%Q with (inject_Z 0); now rewrite <- Zlt_Qlt).
  assert (Hs0 : (0 <= inject_Z s)%Q)
    by (change 0%Q with (inject_Z 0); rewrite <- Zle_Qle; lia).
  assert (Hs1 : (inject_Z s <= 255 * inject_Z n)%Q).
  { change 255%Q with (inject_Z 255). rewrite <- inject_Z_mult, <- Zle_Qle. lia. }
  split.
  - apply Qle_shift_div_l; [exact HnQ | lra].
  - apply Qle_shift_div_r; [exact HnQ | lra].
Qed.

Lemma box_color_ok (arr : list Z) (w x y : Z) (off : Z * Z) :
  Forall channel_ok arr -> color_ok (box_color arr w x y off).
Proof.
  intros Hok. unfold box_color.
  destruct (pixel arr _) as [[c a] |] eqn:E.
  - now destruct (pixel_channel_ok _ _ _ _ Hok E).
  - unfold color_ok, channel_ok, red, green, blue. cbn [fst snd]. lia.
Qed.

Lemma smooth_sums (arr : list Z) (w x y : Z) :
  Forall channel_ok arr ->
  exists r g b,
    add_colors (0, 0, 0, 0) (box_color arr w x y <$> Posterizer.boxOffsets) = (r, g, b, 9) /\
    0 <= r <= 255 * 9 /\ 0 <= g <= 255 * 9 /\ 0 <= b <= 255 * 9.
Proof.
  intros Hok.
  destruct (add_colors_bounds (box_color arr w x y <$> Posterizer.boxOffsets))
    with (r := 0) (g := 0) (b := 0) (count := 0)
    as (r & g & b & count & E & Hcount & H'); try lia.
  { apply Forall_fmap, Forall_forall. intros off _. now apply box_color_ok. }
  rewrite length_fmap, boxOffsets_eq in Hcount. cbn [length] in Hcount.
  assert (count = 9) by lia. subst count. exists r, g, b. auto.
Qed.

Lemma smooth_pixel_ok (arr : list Z) (w : Z) (p : nat) (px : Color * Z) :
  Forall channel_ok arr -> pixel_ok px -> pixel_ok (smooth_pixel arr w p px).
Proof.
  intros Hok [_ Ha]. unfold smooth_pixel. cbv zeta.
  destruct (smooth_sums arr w (Z.of_nat p mod w) (Z.of_nat p / w) Hok)
    as (r & g & b & -> & Hr & Hg & Hb).
  split; [| exact Ha]. cbn [fst]. repeat split; cbn [red green blue fst snd];
    apply mean_ok; lia.
Qed.

Lemma applySmoothFilter_run (h : heap) (img : ImageData) (arr : list Z) :
  image_in h img arr ->
  exists out,
    Posterizer.applySmoothFilter img h
    = Ok (mkImageData (width img) (height img) (fresh (dom h)),
          <[fresh (dom h) := out]> h) /\
    length out = length arr /\ Forall channel_ok out /\
    forall p px, pixel arr p = Some px ->
      pixel out p
      = Some (if bool_decide
                   (p ∈ (fun c => pixel_index (width img) c.2 c.1)
                        <$> interior_cells (width img) (height img))
              then smooth_pixel arr (width img) p px else px).
Proof.
  intros Himg.
  pose proof Himg as (Hl & Hw & Hh & Hlen & Hok).
  set (n := Z.to_nat (width img * height img)).
  assert (Hn : length arr = (4 * n)%nat) by lia.
  set (l := fresh (dom h)).
  assert (Hfresh : l <> data img)
    by (intros E; apply (fresh_heap_ne h _ _ Hl); now rewrite <- E).
  unfold Posterizer.applySmoothFilter. cbv zeta.
  run (new_Uint8ClampedArray_lookup _ _ _ Hl). fold l.
  run (new_ImageData_lookup l arr (<[l := arr]> h) _ _
         (lookup_insert_eq h l arr) Hw Hh Hlen).
  cbn [data]. unfold for_loop. unfold bind at 1.
  rewrite forEach_nested. fold (interior_cells (width img) (height img)).
  match goal with
  | |- context [forEach ?xs ?body] =>
      destruct (forEach_pixels (fun c : Z * Z => pixel_index (width img) c.2 c.1)
                  (smooth_pixel arr (width img)) body l h n xs arr)
        as (out & Hrun & Hlo & Hoko & Hpix); auto
  end.
  - apply NoDup_interior_pixels.
  - intros [y x] Hc. apply elem_of_interior_cells in Hc as [Hx Hy].
    cbn [fst snd]. unfold pixel_index, n. nia.
  - intros [y x] px Hc Hp Hpok. now apply smooth_pixel_ok.
  - intros [y x] cur [c a] Hc Hcur Hokc Hpx Harr. cbn [fst snd] in *.
    apply elem_of_interior_cells in Hc as [Hx Hy].
    set (p := pixel_index (width img) x y) in *.
    assert (Hsrc : <[l := cur]> h !! data img = Some arr)
      by (now rewrite lookup_insert_ne).
    pose proof (box_run _ _ arr _ _ x y Hsrc Hlen Hx Hy
                  Posterizer.boxOffsets (0, 0, 0, 0) boxOffsets_range) as Hbox.
    run Hbox.
    unfold smooth_pixel. cbv zeta.
    destruct (index_coords (width img) x y ltac:(lia) ltac:(lia)) as [Ex Ey].
    fold p in Ex, Ey. rewrite Ex, Ey.
    destruct (smooth_sums arr (width img) x y Hok) as (r & g & b & -> & Hr & Hg & Hb).
    assert (Hi : (y * width img + x) * 4 = Z.of_nat (4 * p))
      by (unfold p, pixel_index; nia).
    pose proof (mean_ok r 9 ltac:(lia) ltac:(lia)) as Mr.
    pose proof (mean_ok g 9 ltac:(lia) ltac:(lia)) as Mg.
    pose proof (mean_ok b 9 ltac:(lia) ltac:(lia)) as Mb.
    set (vr := Math_round (inject_Z r / inject_Z 9)) in *.
    set (vg := Math_round (inject_Z g / inject_Z 9)) in *.
    set (vb := Math_round (inject_Z b / inject_Z 9)) in *.
    run (set_channel l cur h _ (4 * p) vr Hi Mr).
    run (set_channel l (<[(4 * p)%nat := vr]> cur) h
           ((y * width img + x) * 4 + 1) (4 * p + 1) vg ltac:(lia) Mg).
    run (set_channel l (<[(4 * p + 1)%nat := vg]> (<[(4 * p)%nat := vr]> cur)) h
           ((y * width img + x) * 4 + 2) (4 * p + 2) vb ltac:(lia) Mb).
    destruct (pixel_read arr _ _ x y Hlen ltac:(lia) ltac:(lia))
      as (c' & a' & Hpa & _ & _ & _ & Ha).
    fold p in Hpa. assert (a' = a) by congruence. subst a'.
    match goal with
    | |- context [<[l := ?cur']> h] =>
        assert (Hsrc' : <[l := cur']> h !! data img = Some arr)
          by (now rewrite lookup_insert_ne)
    end.
    run (get_lookup _ _ _ _ _ Hsrc' Ha).
    assert (Hca : channel_ok a).
    { destruct (pixel_channel_ok _ _ _ _ Hok Harr) as [_ H]. exact H. }
    rewrite (set_channel l _ h ((y * width img + x) * 4 + 3) (4 * p + 3) _
               ltac:(lia) Hca).
    unfold set_pixel. cbn [fst snd red green blue]. reflexivity.
  - exists out. repeat split; [| lia | auto | exact Hpix].
    now rewrite Hrun.
Qed.

Lemma add_colors_totals (arr : list Z) (w x y : Z) :
  add_colors (0, 0, 0, 0) (box_color arr w x y <$> Posterizer.boxOffsets)
  = (block_total arr w x y red, block_total arr w x y green,
     block_total arr w x y blue, 9).
Proof.
  rewrite boxOffsets_eq. unfold add_colors, block_total.
  cbn [fmap list_fmap foldl foldr]. repeat (apply (f_equal2 pair)); lia.
Qed.

Lemma smooth_pixel_mean (arr : list Z) (w x y : Z) (px : Color * Z) :
  0 <= x < w -> 0 <= y ->
  smooth_pixel arr w (pixel_index w x y) px
  = ((block_mean arr w x y red, block_mean arr w x y green,
      block_mean arr w x y blue), px.2).
Proof.
  intros Hx Hy. unfold smooth_pixel. cbv zeta.
  destruct (index_coords w x y Hx Hy) as [-> ->].
  rewrite add_colors_totals. reflexivity.
Qed.

(** X21. [applySmoothFilter] is a box blur on the pixels that are not on the
    border: it returns a new well-formed buffer of the same dimensions and
    leaves its input as it was; each channel of such a pixel is the mean of
    that channel over the 3 x 3 block of the input around it, rounded to
    the nearest integer; the alpha of every pixel and the color of the
    pixels of the border are kept. *)
Theorem applySmoothFilter_box_blur (h : heap) (img : ImageData) (arr : list Z) :
  image_in h img arr ->
  exists newData h' out,
    Posterizer.applySmoothFilter img h = Ok (newData, h') /\
    image_in h' newData out /\
    width newData = width img /\ height newData = height img /\
    data newData <> data img /\ h' !! data img = Some arr /\
    forall x y c a,
      in_bounds img (x, y) ->
      pixel arr (pixel_index (width img) x y) = Some (c, a) ->
      (interior img x y ->
       pixel out (pixel_index (width img) x y)
       = Some ((block_mean arr (width img) x y red,
                block_mean arr (width img) x y green,
                block_mean arr (width img) x y blue), a)) /\
      (~ interior img x y ->
       pixel out (pixel_index (width img) x y) = Some (c, a)).
Proof.
  intros Himg.
  destruct (applySmoothFilter_run h img arr Himg) as (out & Hrun & Hlen & Hok & Hpix).
  pose proof (run_image_in h img arr out Himg Hlen Hok) as Himg'.
  pose proof Himg as (Hl & Hw & Hh & _).
  assert (Hfresh : fresh (dom h) <> data img)
    by (intros E; apply (fresh_heap_ne h _ _ Hl); now rewrite <- E).
  eexists _, _, out. split; [exact Hrun |]. split; [exact Himg' |].
  cbn [width height data]. split; [reflexivity |]. split; [reflexivity |].
  split; [exact Hfresh |]. split; [now rewrite lookup_insert_ne |].
  intros x y c a Hin Hpx. rewrite (Hpix _ _ Hpx).
  pose proof (interior_pixel_index img x y Hin) as Hint.
  destruct Hin as [Hx Hy]. cbn [fst snd] in Hx, Hy. split.
  - intros Hi. rewrite bool_decide_eq_true_2 by (now apply Hint).
    now rewrite smooth_pixel_mean by lia.
  - intros Hi. rewrite bool_decide_eq_false_2; [reflexivity |].
    intros H. now apply Hint in H.
Qed.

Lemma applySmoothFilter_box_blur_witness :
  exists newData h' out,
    Posterizer.applySmoothFilter ex3_img ex3_heap = Ok (newData, h') /\
    image_in h' newData out /\
    width newData = width ex3_img /\ height newData = height ex3_img /\
    data newData <> data ex3_img /\ h' !! data ex3_img = Some ex3_arr /\
    forall x y c a,
      in_bounds ex3_img (x, y) ->
      pixel ex3_arr (pixel_index (width ex3_img) x y) = Some (c, a) ->
      (interior ex3_img x y ->
       pixel out (pixel_index (width ex3_img) x y)
       = Some ((block_mean ex3_arr (width ex3_img) x y red,
                block_mean ex3_arr (width ex3_img) x y green,
                block_mean ex3_arr (width ex3_img) x y blue), a)) /\
      (~ interior ex3_img x y ->
       pixel out (pixel_index (width ex3_img) x y) = Some (c, a)).
Proof.
  apply (applySmoothFilter_box_blur ex3_heap ex3_img ex3_arr). exact ex3_image_in.
Defined.

Lemma mean_of_equal (v : Z) : Math_round (inject_Z (9 * v) / 9) = v.
Proof.
  unfold Math_round. apply Qfloor_between.
  - apply Qle_trans with (inject_Z (9 * v) / 9)%Q; [| lra].
    apply Qle_shift_div_l; [reflexivity |].
    rewrite inject_Z_mult. change (inject_Z 9) with 9%Q. lra.
  - assert (E : (inject_Z (9 * v) / 9 == inject_Z v)%Q).
    { rewrite inject_Z_mult. change (inject_Z 9) with 9%Q. field. }
    rewrite E, inject_Z_plus. change (inject_Z 1) with 1%Q. lra.
Qed.

(** X22. On an image all of whose pixels have the same color
    [applySmoothFilter] changes nothing: it returns a copy of the image. *)
Theorem applySmoothFilter_single_color (h : heap) (img : ImageData) (arr : list Z)
    (c : Color) :
  image_in h img arr ->
  (forall p c' a, pixel arr p = Some (c', a) -> c' = c) ->
  Posterizer.applySmoothFilter img h
  = Ok (mkImageData (width img) (height img) (fresh (dom h)),
        <[fresh (dom h) := arr]> h).
Proof.
  intros Himg Hsame.
  destruct (applySmoothFilter_run h img arr Himg) as (out & -> & Hlen & _ & Hpix).
  pose proof Himg as (_ & Hw & Hh & Hlen' & _).
  do 3 f_equal. apply (pixels_same arr out _ _ Hlen' Hlen).
  intros p [c' a] Hpx. rewrite (Hpix _ _ Hpx). f_equal.
  destruct (bool_decide _) eqn:E; [| reflexivity].
  apply bool_decide_eq_true in E.
  apply list_elem_of_fmap in E as ([y x] & -> & Hc). cbn [fst snd] in *.
  apply elem_of_interior_cells in Hc as [Hx Hy].
  rewrite smooth_pixel_mean by lia. cbn [snd].
  assert (c' = c) by eauto. subst c'.
  assert (Hbox : forall off : Z * Z, -1 <= off.1 <= 1 -> -1 <= off.2 <= 1 ->
                 box_color arr (width img) x y off = c).
  { intros off H1 H2. unfold box_color.
    destruct (pixel_read arr (width img) (height img) (x + off.2) (y + off.1) Hlen'
                ltac:(lia) ltac:(lia)) as (c1 & a1 & Hp1 & _).
    rewrite Hp1. exact (Hsame _ _ _ Hp1). }
  assert (Htot : forall ch, block_total arr (width img) x y ch = 9 * ch c).
  { intros ch. unfold block_total. cbn [fmap list_fmap foldr].
    rewrite !Hbox by (cbn [fst snd]; lia). lia. }
  unfold block_mean. rewrite !Htot, !mean_of_equal.
  now destruct c as [[? ?] ?].
Qed.

Lemma applySmoothFilter_single_color_witness :
  Posterizer.applySmoothFilter ex3_img ex_plain_heap
  = Ok (mkImageData (width ex3_img) (height ex3_img) (fresh (dom ex_plain_heap)),
        <[fresh (dom ex_plain_heap) := ex_plain_arr]> ex_plain_heap).
Proof.
  apply (applySmoothFilter_single_color ex_plain_heap ex3_img ex_plain_arr (50, 60, 70)).
  - exact ex_plain_image_in.
  - intros p c a H. now destruct (ex_plain_pixel p c a H).
Defined.

(** ** The mask of a color *)

Lemma foldM_collect {A B} (f : A -> M B) (g : A -> B) (h : heap) (xs : list A) :
  (forall x, x ∈ xs -> f x h = Ok (g x, h)) ->
  forall acc,
    foldM (fun acc x => do v <- f x; ret (acc ++ [v])) acc xs h
    = Ok (acc ++ (g <$> xs), h).
Proof.
  induction xs as [| x xs IH]; intros Hf acc.
  - cbn [foldM fmap list_fmap]. now rewrite app_nil_r.
  - cbn [foldM]. unfold bind at 1. unfold bind at 1.
    rewrite (Hf x ltac:(left)). unfold ret at 1.
    rewrite IH by (intros z Hz; apply Hf; now right).
    rewrite fmap_cons, <- app_assoc. reflexivity.
Qed.

Lemma createColorMask_run (h : heap) (img : ImageData) (arr : list Z)
    (targetColor : Color) :
  image_in h img arr ->
  SVGExporter.createColorMask img targetColor h
  = Ok ((fun y => mask_entry arr (width img) targetColor y <$> zrange 0 (width img) 1)
          <$> zrange 0 (height img) 1, h).
Proof.
  intros (Hl & Hw & Hh & Hlen & Hok).
  unfold SVGExporter.createColorMask. cbv zeta.
  refine (foldM_collect
           (fun y => foldM (fun row x =>
              do r <- get (data img) ((y * width img + x) * 4);
              do g <- get (data img) ((y * width img + x) * 4 + 1);
              do b <- get (data img) ((y * width img + x) * 4 + 2);
              do a <- get (data img) ((y * width img + x) * 4 + 3);
              ret (row ++ [if (a >? 128)
                              && (Z.abs (r - red targetColor) <? 5)
                              && (Z.abs (g - green targetColor) <? 5)
                              && (Z.abs (b - blue targetColor) <? 5)
                           then 1 else 0])) [] (zrange 0 (width img) 1))
           (fun y => mask_entry arr (width img) targetColor y <$> zrange 0 (width img) 1)
           h (zrange 0 (height img) 1) _ []).
  intros y Hy. apply elem_of_zrange_unit in Hy.
  assert (Hrow : forall xs acc,
    (forall x, x ∈ xs -> 0 <= x < width img) ->
    foldM (fun row x =>
              do r <- get (data img) ((y * width img + x) * 4);
              do g <- get (data img) ((y * width img + x) * 4 + 1);
              do b <- get (data img) ((y * width img + x) * 4 + 2);
              do a <- get (data img) ((y * width img + x) * 4 + 3);
              ret (row ++ [if (a >? 128)
                              && (Z.abs (r - red targetColor) <? 5)
                              && (Z.abs (g - green targetColor) <? 5)
                              && (Z.abs (b - blue targetColor) <? 5)
                           then 1 else 0])) acc xs h
    = Ok (acc ++ (mask_entry arr (width img) targetColor y <$> xs), h)).
  { induction xs as [| x xs IH]; intros acc Hxs.
    - cbn [foldM fmap list_fmap]. now rewrite app_nil_r.
    - destruct (pixel_read arr (width img) (height img) x y Hlen
                  (Hxs x ltac:(left)) ltac:(lia))
        as (c & a & Hpx & Hr & Hg & Hb & Ha).
      cbn [foldM]. unfold bind at 1.
      run (get_lookup _ _ _ _ _ Hl Hr).
      run (get_lookup _ _ _ _ _ Hl Hg).
      run (get_lookup _ _ _ _ _ Hl Hb).
      run (get_lookup _ _ _ _ _ Hl Ha).
      unfold ret at 1. rewrite IH by (intros z Hz; apply Hxs; now right).
      rewrite fmap_cons, <- app_assoc. cbn [app].
      unfold mask_entry at 2. rewrite Hpx. reflexivity. }
  rewrite Hrow; [reflexivity |].
  intros x Hx. now apply elem_of_zrange_unit in Hx.
Qed.

Lemma zrange_lookup (n : Z) (i : Z) :
  0 <= i < n -> zrange 0 n 1 !! Z.to_nat i = Some i.
Proof.
  intros Hi. rewrite zrange_unit. change (map ?f ?l) with (f <$> l).
  rewrite list_lookup_fmap, lookup_seq_lt by lia. cbn. f_equal. lia.
Qed.

Lemma length_zrange (n : Z) : length (zrange 0 n 1) = Z.to_nat n.
Proof. rewrite zrange_unit, length_map, length_seq. f_equal. lia. Qed.

Lemma mask_entry_bit (arr : list Z) (w : Z) (t : Color) (y x : Z) :
  mask_entry arr w t y x = 0 \/ mask_entry arr w t y x = 1.
Proof.
  unfold mask_entry. destruct (pixel arr _) as [px |]; [| now left].
  destruct (matches t px); auto.
Qed.

Lemma mask_of_ok (arr : list Z) (w ht : Z) (t : Color) :
  mask_ok w ht ((fun y => mask_entry arr w t y <$> zrange 0 w 1) <$> zrange 0 ht 1).
Proof.
  split; [now rewrite length_fmap, length_zrange |].
  apply Forall_fmap, Forall_forall. intros y _. cbn.
  split; [now rewrite length_fmap, length_zrange |].
  apply Forall_fmap, Forall_forall. intros x _. apply mask_entry_bit.
Qed.

(** X23. [createColorMask] returns, without touching the heap, a mask of
    [height] rows of [width] entries 0 or 1; the entry of a pixel is 1
    exactly when its alpha is above 128 and each of its channels differs
    from that of the target color by less than 5. *)
Theorem createColorMask_entries (h : heap) (img : ImageData) (arr : list Z)
    (targetColor : Color) :
  image_in h img arr ->
  exists mask,
    SVGExporter.createColorMask img targetColor h = Ok (mask, h) /\
    mask_ok (width img) (height img) mask /\
    forall x y c a,
      in_bounds img (x, y) ->
      pixel arr (pixel_index (width img) x y) = Some (c, a) ->
      exists row v,
        mask !! Z.to_nat y = Some row /\ row !! Z.to_nat x = Some v /\
        (v = 0 \/ v = 1) /\
        (v = 1 <-> 128 < a /\ Z.abs (red c - red targetColor) < 5 /\
                   Z.abs (green c - green targetColor) < 5 /\
                   Z.abs (blue c - blue targetColor) < 5).
Proof.
  intros Himg. eexists. split; [apply (createColorMask_run _ _ arr); exact Himg |].
  split; [apply mask_of_ok |].
  intros x y c a [Hx Hy] Hpx. cbn [fst snd] in Hx, Hy.
  eexists _, _. rewrite list_lookup_fmap, (zrange_lookup _ y Hy). cbn [fmap option_fmap option_map].
  split; [reflexivity |].
  rewrite list_lookup_fmap, (zrange_lookup _ x Hx). cbn [fmap option_fmap option_map].
  split; [reflexivity |]. split; [apply mask_entry_bit |].
  unfold mask_entry. rewrite Hpx. unfold matches. cbn [fst snd].
  destruct ((a >? 128) && (Z.abs (red c - red targetColor) <? 5)
            && (Z.abs (green c - green targetColor) <? 5)
            && (Z.abs (blue c - blue targetColor) <? 5)) eqn:E.
  - rewrite !andb_true_iff, Z.gtb_ltb, !Z.ltb_lt in E.
    split; [intros _; tauto | reflexivity].
  - split; [discriminate |]. intros (H1 & H2 & H3 & H4).
    rewrite <- Z.ltb_lt in H1, H2, H3, H4. rewrite Z.gtb_ltb, H1, H2, H3, H4 in E.
    discriminate.
Qed.

Lemma createColorMask_entries_witness :
  exists mask,
    SVGExporter.createColorMask ex_img (10, 10, 10) ex_heap = Ok (mask, ex_heap) /\
    mask_ok (width ex_img) (height ex_img) mask /\
    forall x y c a,
      in_bounds ex_img (x, y) ->
      pixel ex_arr (pixel_index (width ex_img) x y) = Some (c, a) ->
      exists row v,
        mask !! Z.to_nat y = Some row /\ row !! Z.to_nat x = Some v /\
        (v = 0 \/ v = 1) /\
        (v = 1 <-> 128 < a /\ Z.abs (red c - red (10, 10, 10)) < 5 /\
                   Z.abs (green c - green (10, 10, 10)) < 5 /\
                   Z.abs (blue c - blue (10, 10, 10)) < 5).
Proof.
  apply (createColorMask_entries ex_heap ex_img ex_arr (10, 10, 10)). exact ex_image_in.
Defined.

(** ** Tracing a contour *)

Lemma cell_side (n x : Z) (q : Q) :
  0 <= x < n - 1 -> (inject_Z x <= q <= inject_Z x + 1)%Q ->
  (0 <= q <= inject_Z (n - 1))%Q.
Proof.
  intros Hx [H1 H2].
  assert (H0 : (0 <= inject_Z x)%Q)
    by (change 0%Q with (inject_Z 0); rewrite <- Zle_Qle; lia).
  assert (Hn : (inject_Z x + 1 <= inject_Z (n - 1))%Q).
  { change 1%Q with (inject_Z 1). rewrite <- inject_Z_plus, <- Zle_Qle. lia. }
  split; lra.
Qed.

Section Contour.

Import SVGExporter.

Variables (mask : list (list Z)) (width height : Z).
Hypothesis Hmask : mask_ok width height mask.

Lemma getMaskValue_ok (x y : Z) :
  exists v, getMaskValue mask x y width height = Ok v /\ (v = 0 \/ v = 1).
Proof.
  unfold getMaskValue.
  destruct ((x <? 0) || (x >=? width) || (y <? 0) || (y >=? height)) eqn:E;
    [exists 0; auto |].
  rewrite !orb_false_iff, !Z.ltb_ge, !Z.geb_leb, !Z.leb_gt in E.
  destruct Hmask as [Hrows Hall].
  destruct (lookup_lt_is_Some_2 mask (Z.to_nat y)) as [row Hrow]; [lia |].
  rewrite Hrow. rewrite Forall_lookup in Hall.
  destruct (Hall _ _ Hrow) as [Hlen Hbits].
  destruct (lookup_lt_is_Some_2 row (Z.to_nat x)) as [v Hv]; [lia |].
  rewrite Hv. exists v. split; [reflexivity |].
  rewrite Forall_lookup in Hbits. eauto.
Qed.

Lemma getCellValue_ok (x y : Z) :
  exists v, getCellValue mask x y width height = Ok v /\ 0 <= v <= 15.
Proof.
  unfold getCellValue.
  destruct (getMaskValue_ok x y) as (tl & -> & Htl).
  destruct (getMaskValue_ok (x + 1) y) as (tr & -> & Htr).
  destruct (getMaskValue_ok (x + 1) (y + 1)) as (br & -> & Hbr).
  destruct (getMaskValue_ok x (y + 1)) as (bl & -> & Hbl).
  cbn [try_bind]. eexists. split; [reflexivity | lia].
Qed.

Lemma pushed_points (v : Z) (x y : Z) :
  0 <= v <= 15 ->
  exists edges pushed,
    createMarchingSquaresLookup v = Some edges /\
    edge_points edges (inject_Z x) (inject_Z y) = Ok pushed /\
    (exists n, length pushed = (2 * n)%nat /\ (n <= 2)%nat) /\
    Forall (fun p : point => (inject_Z x <= p.1 <= inject_Z x + 1)%Q /\
                             (inject_Z y <= p.2 <= inject_Z y + 1)%Q) pushed.
Proof.
  intros Hv.
  assert (Hcases : v = 0 \/ v = 1 \/ v = 2 \/ v = 3 \/ v = 4 \/ v = 5 \/ v = 6 \/ v = 7
                   \/ v = 8 \/ v = 9 \/ v = 10 \/ v = 11 \/ v = 12 \/ v = 13 \/ v = 14
                   \/ v = 15) by lia.
  generalize (inject_Z x) (inject_Z y). intros qx qy.
  repeat (destruct Hcases as [-> | Hcases]); [.. | subst v];
    (eexists _, _; split; [reflexivity |]; split; [reflexivity |]; split;
     [first [exists 0%nat; split; [reflexivity | lia]
            | exists 1%nat; split; [reflexivity | lia]
            | exists 2%nat; split; [reflexivity | lia]] |];
     repeat (apply List.Forall_cons; [cbn [fst snd]; split; lra |]);
     apply List.Forall_nil).
Qed.

Lemma getNextCell_from_ok (ds : list (Z * Z * Z)) (x y prevDir : Z) :
  Forall (fun d : Z * Z * Z => Z.abs d.1.1 + Z.abs d.1.2 = 1) ds ->
  exists r,
    getNextCell_from ds mask x y prevDir width height = Ok r /\
    match r with
    | None => True
    | Some (nx, ny, dir) =>
        0 <= nx < width - 1 /\ 0 <= ny < height - 1 /\
        Z.abs (nx - x) + Z.abs (ny - y) = 1 /\ dir <> prevDir /\
        getMaskValue mask nx ny width height = Ok 1
    end.
Proof.
  induction 1 as [| [[dx dy] dir] ds Hd Hds IH]; [exists None; now split |].
  cbn [fst snd] in Hd. cbn [getNextCell_from].
  destruct (Z.eqb_spec dir prevDir) as [| Hdir]; [exact IH |]. cbv zeta.
  destruct ((x + dx >=? 0) && (x + dx <? width - 1) && (y + dy >=? 0)
            && (y + dy <? height - 1)) eqn:E; [| exact IH].
  rewrite !andb_true_iff, !Z.geb_leb, !Z.leb_le, !Z.ltb_lt in E.
  destruct (getMaskValue_ok (x + dx) (y + dy)) as (v & Hv & Hbit).
  rewrite Hv. cbn [try_bind].
  destruct (Z.eqb_spec v 1) as [-> | Hne]; [| exact IH].
  eexists. split; [reflexivity |]. cbn beta iota.
  repeat split; try lia; auto.
Qed.

Lemma dirs_unit :
  Forall (fun d : Z * Z * Z => Z.abs d.1.1 + Z.abs d.1.2 = 1) dirs.
Proof. repeat (apply List.Forall_cons; [reflexivity |]). apply List.Forall_nil. Qed.

Lemma mark_ok (visited : list (list bool)) (x y : Z) :
  visited_ok width height visited -> 0 <= x < width -> 0 <= y < height ->
  exists visited',
    mark visited x y = Ok visited' /\ visited_ok width height visited'.
Proof.
  intros [Hrows Hall] Hx Hy. unfold mark.
  destruct (Z.ltb_spec y 0); [lia |].
  destruct (lookup_lt_is_Some_2 visited (Z.to_nat y)) as [row Hrow]; [lia |].
  rewrite Hrow. destruct (Z.ltb_spec x 0); [lia |].
  pose proof Hall as Hall'. rewrite Forall_lookup in Hall'.
  pose proof (Hall' _ _ Hrow) as Hlen.
  destruct (Nat.ltb_spec (Z.to_nat x) (length row)); [| lia].
  eexists. split; [reflexivity |]. split; [now rewrite length_insert |].
  apply Forall_insert; [exact Hall |]. now rewrite length_insert.
Qed.

Lemma traceContour_loop_ok (startX startY : Z) (more : nat) :
  forall (x y prevDir : Z) (contour : list point) (visited : list (list bool)),
    visited_ok width height visited ->
    0 <= x < width - 1 -> 0 <= y < height - 1 ->
    exists added visited',
      traceContour_loop more mask startX startY width height x y prevDir
                        contour visited
      = Ok (contour ++ added, visited') /\
      visited_ok width height visited' /\
      (exists n, length added = (2 * n)%nat /\ (n <= 2 * S more)%nat) /\
      Forall (in_rectangle width height) added.
Proof.
  induction more as [| more IH]; intros x y prevDir contour visited Hvis Hx Hy.
  - cbn [traceContour_loop].
    destruct (mark_ok visited x y Hvis ltac:(lia) ltac:(lia)) as (v1 & -> & Hv1).
    cbn [try_bind].
    destruct (getCellValue_ok x y) as (cv & -> & Hcv). cbn [try_bind].
    destruct (pushed_points cv x y Hcv) as (edges & pushed & -> & -> & (n & Hn & Hn2) & Hrect).
    cbn [try_bind]. cbv zeta.
    assert (Hin : Forall (in_rectangle width height) pushed).
    { eapply Forall_impl; [exact Hrect |]. intros p [H1 H2].
      split; [now apply cell_side with x | now apply cell_side with y]. }
    destruct (getNextCell_from_ok dirs x y prevDir dirs_unit) as (r & Hr & Hnext).
    unfold getNextCell. rewrite Hr. cbn [try_bind].
    destruct r as [[[nx ny] dir] |];
      [destruct (negb (nx =? startX) || negb (ny =? startY)) |];
      (exists pushed, v1; split; [reflexivity |]; split; [exact Hv1 |];
       split; [exists n; split; [exact Hn | lia] | exact Hin]).
  - cbn [traceContour_loop].
    destruct (mark_ok visited x y Hvis ltac:(lia) ltac:(lia)) as (v1 & -> & Hv1).
    cbn [try_bind].
    destruct (getCellValue_ok x y) as (cv & -> & Hcv). cbn [try_bind].
    destruct (pushed_points cv x y Hcv) as (edges & pushed & -> & -> & (n & Hn & Hn2) & Hrect).
    cbn [try_bind]. cbv zeta.
    assert (Hin : Forall (in_rectangle width height) pushed).
    { eapply Forall_impl; [exact Hrect |]. intros p [H1 H2].
      split; [now apply cell_side with x | now apply cell_side with y]. }
    destruct (getNextCell_from_ok dirs x y prevDir dirs_unit) as (r & Hr & Hnext).
    unfold getNextCell. rewrite Hr. cbn [try_bind].
    destruct r as [[[nx ny] dir] |].
    + destruct Hnext as (Hnx & Hny & _).
      destruct (negb (nx =? startX) || negb (ny =? startY)).
      * destruct (IH nx ny dir (contour ++ pushed) v1 Hv1 Hnx Hny)
          as (added & v2 & -> & Hv2 & (m & Hm & Hm2) & Hadded).
        exists (pushed ++ added), v2. split; [now rewrite app_assoc |].
        split; [exact Hv2 |]. split.
        -- exists (n + m)%nat. rewrite length_app. split; lia.
        -- now apply Forall_app.
      * exists pushed, v1. split; [reflexivity |]. split; [exact Hv1 |].
        split; [exists n; split; [exact Hn | lia] | exact Hin].
    + exists pushed, v1. split; [reflexivity |]. split; [exact Hv1 |].
      split; [exists n; split; [exact Hn | lia] | exact Hin].
Qed.

End Contour.

Lemma traceContour_ok (mask : list (list Z)) (width height : Z)
    (startX startY : Z) (visited : list (list bool)) :
  mask_ok width height mask -> visited_ok width height visited ->
  0 <= startX < width - 1 -> 0 <= startY < height - 1 ->
  exists contour visited',
    SVGExporter.traceContour mask startX startY width height visited
    = Ok (contour, visited') /\
    visited_ok width height visited' /\
    (exists n, length contour = (2 * n)%nat) /\
    Z.of_nat (length contour) <= 4 * (width * height) /\
    Forall (in_rectangle width height) contour.
Proof.
  intros Hmask Hvis Hx Hy. unfold SVGExporter.traceContour. cbv zeta.
  destruct (traceContour_loop_ok mask width height Hmask startX startY
              (Z.to_nat (width * height - 1)) startX startY (-1) [] visited Hvis Hx Hy)
    as (added & v' & Hrun & Hv' & (n & Hn & Hn2) & Hrect).
  exists added, v'. split; [exact Hrun |]. split; [exact Hv' |].
  split; [eauto |]. split; [nia | exact Hrect].
Qed.

(** X24. On a mask of [height] rows of [width] entries 0 or 1, and from a
    start cell whose right and lower neighbours exist, [traceContour]
    returns: it throws nothing and stops after at most [width * height]
    cells.  The contour has an even number of points, at most four for
    each cell, and they lie in the rectangle of the image. *)
Theorem traceContour_bounded (mask : list (list Z)) (width height : Z)
    (startX startY : Z) (visited : list (list bool)) :
  mask_ok width height mask -> visited_ok width height visited ->
  0 <= startX < width - 1 -> 0 <= startY < height - 1 ->
  exists contour visited',
    SVGExporter.traceContour mask startX startY width height visited
    = Ok (contour, visited') /\
    visited_ok width height visited' /\
    (exists n, length contour = (2 * n)%nat) /\
    Z.of_nat (length contour) <= 4 * (width * height) /\
    Forall (in_rectangle width height) contour.
Proof. apply traceContour_ok. Qed.

Lemma traceContour_bounded_witness :
  exists contour visited',
    SVGExporter.traceContour ex_mask 1 1 4 4 ex_visited = Ok (contour, visited') /\
    visited_ok 4 4 visited' /\
    (exists n, length contour = (2 * n)%nat) /\
    Z.of_nat (length contour) <= 4 * (4 * 4) /\
    Forall (in_rectangle 4 4) contour.
Proof.
  apply (traceContour_bounded ex_mask 4 4 1 1 ex_visited).
  - exact ex_mask_ok.
  - exact ex_visited_ok.
  - lia.
  - lia.
Defined.

(** X25. On such a mask [getNextCell] returns [null] or a cell that is one
    of the four neighbours of [(x, y)], has its right and lower neighbours
    in the image, holds 1 in the mask, and is reached by a direction other
    than [prevDir]. *)
Theorem getNextCell_neighbour (mask : list (list Z)) (width height : Z)
    (x y prevDir : Z) :
  mask_ok width height mask ->
  exists r,
    SVGExporter.getNextCell mask x y prevDir width height = Ok r /\
    match r with
    | None => True
    | Some (nx, ny, dir) =>
        0 <= nx < width - 1 /\ 0 <= ny < height - 1 /\
        Z.abs (nx - x) + Z.abs (ny - y) = 1 /\ dir <> prevDir /\
        SVGExporter.getMaskValue mask nx ny width height = Ok 1
    end.
Proof.
  intros Hmask. apply getNextCell_from_ok; [exact Hmask | apply dirs_unit].
Qed.

Lemma getNextCell_neighbour_witness :
  exists r,
    SVGExporter.getNextCell ex_mask 1 1 (-1) 4 4 = Ok r /\
    match r with
    | None => True
    | Some (nx, ny, dir) =>
        0 <= nx < 4 - 1 /\ 0 <= ny < 4 - 1 /\
        Z.abs (nx - 1) + Z.abs (ny - 1) = 1 /\ dir <> -1 /\
        SVGExporter.getMaskValue ex_mask nx ny 4 4 = Ok 1
    end.
Proof. apply (getNextCell_neighbour ex_mask 4 4 1 1 (-1)). exact ex_mask_ok. Defined.

(** ** The paths of a mask *)

Lemma smoothPath_closed_path (show : Q -> string) (points : list SVGExporter.point) :
  (2 <= length points)%nat -> closed_path (SVGExporter.smoothPath show points).
Proof.
  intros Hlen. destruct points as [| p0 [| p1 rest]]; try (simpl in Hlen; lia).
  cbn [SVGExporter.smoothPath].
  destruct (last (p0 :: p1 :: rest)) as [lst |] eqn:Hlast;
    [| apply last_None in Hlast; discriminate].
  split.
  - repeat apply startsWith_append. apply smooth_segments_start. reflexivity.
  - change " Z"%string with (" " ++ "Z")%string.
    rewrite <- append_assoc'. apply endsWith_append.
Qed.

Lemma elem_of_cells (w ht y x : Z) :
  (y, x) ∈ (y ← zrange 0 (ht - 1) 1; x ← zrange 0 (w - 1) 1; [(y, x)])
  -> 0 <= x < w - 1 /\ 0 <= y < ht - 1.
Proof.
  intros H. apply list_elem_of_bind in H as (y' & H & Hy).
  apply list_elem_of_bind in H as (x' & H & Hx).
  apply list_elem_of_singleton in H. injection H as -> ->.
  apply elem_of_zrange_unit in Hx, Hy. lia.
Qed.

Lemma newVisited_ok (width height : Z) :
  0 <= width -> 0 <= height ->
  exists visited,
    SVGExporter.newVisited width height = Ok visited /\
    visited_ok width height visited.
Proof.
  intros Hw Hh. unfold SVGExporter.newVisited.
  destruct (Z.ltb_spec height 0); [lia |].
  destruct (Z.ltb_spec width 0); [lia |]. rewrite andb_false_r.
  eexists. split; [reflexivity |]. split; [apply length_replicate |].
  apply Forall_replicate. apply length_replicate.
Qed.

Lemma tracePaths_ok (show : Q -> string) (mask : list (list Z)) (width height : Z)
    (simple : bool) :
  mask_ok width height mask -> 0 <= width -> 0 <= height ->
  exists paths,
    SVGExporter.tracePaths show mask width height simple = Ok paths /\
    Forall closed_path paths.
Proof.
  intros Hmask Hw Hh. unfold SVGExporter.tracePaths.
  destruct (newVisited_ok width height Hw Hh) as (visited0 & -> & Hvis0).
  cbn [try_bind].
  match goal with
  | |- context [try_fold ?f ?b0 ?xs] =>
      destruct (try_fold_ok f
                  (fun _ b => visited_ok width height b.2 /\ Forall closed_path b.1) xs)
        with (n := 0%nat) (b := b0) as (b' & -> & Hb' & Hpaths)
  end.
  - intros _ [paths visited] [y x] [Hvis Hclosed] Hcell. cbn [fst snd] in Hvis, Hclosed.
    apply elem_of_cells in Hcell as [Hx Hy].
    pose proof Hvis as [Hrows Hall].
    destruct (lookup_lt_is_Some_2 visited (Z.to_nat y)) as [vrow Hvrow]; [lia |].
    unfold SVGExporter.entry at 1. rewrite Hvrow. cbn [try_bind].
    destruct (default false (vrow !! Z.to_nat x));
      [eexists; split; [reflexivity | now split] |].
    pose proof Hmask as [Hmrows Hmall].
    destruct (lookup_lt_is_Some_2 mask (Z.to_nat y)) as [mrow Hmrow]; [lia |].
    unfold SVGExporter.entry. rewrite Hmrow. cbn [try_bind].
    destruct (bool_decide (mrow !! Z.to_nat x = Some 1));
      [| eexists; split; [reflexivity | now split]].
    destruct (traceContour_ok mask width height x y visited Hmask Hvis Hx Hy)
      as (contour & visited' & -> & Hvis' & _).
    cbn [try_bind].
    destruct (Nat.ltb_spec 2 (length contour)) as [Hlen |];
      [| eexists; split; [reflexivity | now split]].
    destruct (simplifyPath_returns (if simple then 2 else 1 # 2)
                ltac:(destruct simple; discriminate) (length contour) contour)
      as (simplified & -> & _ & _ & _ & H2); [lia |].
    eexists. split; [reflexivity |]. cbn [fst snd]. split; [exact Hvis' |].
    apply Forall_app. split; [exact Hclosed |].
    constructor; [| constructor]. apply smoothPath_closed_path. lia.
  - split; [exact Hvis0 | constructor].
  - cbn [try_bind]. eauto.
Qed.

(** X26. On a mask of [height] rows of [width] entries 0 or 1 [tracePaths]
    returns, and every path that it returns starts with the command [M]
    and ends with the command [Z]. *)
Theorem tracePaths_closed (show : Q -> string) (mask : list (list Z))
    (width height : Z) (simple : bool) :
  mask_ok width height mask -> 0 <= width -> 0 <= height ->
  exists paths,
    SVGExporter.tracePaths show mask width height simple = Ok paths /\
    Forall closed_path paths.
Proof. apply tracePaths_ok. Qed.

Lemma tracePaths_closed_witness :
  exists paths,
    SVGExporter.tracePaths show_number ex_mask 4 4 true = Ok paths /\
    Forall closed_path paths.
Proof.
  apply (tracePaths_closed show_number ex_mask 4 4 true).
  - exact ex_mask_ok.
  - lia.
  - lia.
Defined.

(** ** The document *)

Lemma paths_start (svg t : string) (paths : list string) :
  SVGExporter.startsWith svg t = true ->
  SVGExporter.startsWith
    (foldl (fun svg path =>
              (svg ++ "<path d=" ++ SVGExporter.dq ++ path ++ SVGExporter.dq ++ " />")%string)
           svg paths) t = true.
Proof.
  revert svg. induction paths as [| path paths IH]; intros svg H; [exact H |].
  cbn [foldl]. apply IH. now apply startsWith_append.
Qed.

Lemma exportSVG_layers (show : Q -> string) (h : heap) (img : ImageData)
    (arr : list Z) (simple : bool) (palette : list Color) :
  image_in h img arr ->
  forall svg,
    SVGExporter.startsWith svg "<svg" = true ->
    exists svg',
      foldM (fun svg color =>
          do mask <- SVGExporter.createColorMask img color;
          do paths <- lift (SVGExporter.tracePaths show mask (width img) (height img) simple);
          if (0 <? length paths)%nat then
            let hexColor := SVGExporter.rgbToHex (channels color) in
            let svg := (svg ++ "<g fill=" ++ SVGExporter.dq ++ hexColor
                            ++ SVGExporter.dq ++ ">")%string in
            let svg := foldl (fun svg path =>
                                (svg ++ "<path d=" ++ SVGExporter.dq ++ path
                                     ++ SVGExporter.dq ++ " />")%string)
                             svg paths in
            ret (svg ++ "</g>")%string
          else ret svg) svg palette h
      = Ok (svg', h) /\
      SVGExporter.startsWith svg' "<svg" = true.
Proof.
  intros Himg. pose proof Himg as (_ & Hw & Hh & _).
  induction palette as [| color palette IH]; intros svg Hsvg.
  - exists svg. split; [reflexivity | exact Hsvg].
  - cbn [foldM]. unfold bind at 1.
    run (createColorMask_run h img arr color Himg).
    destruct (tracePaths_ok show _ (width img) (height img) simple
                (mask_of_ok arr (width img) (height img) color) ltac:(lia) ltac:(lia))
      as (paths & Hpaths & _).
    unfold lift at 1. rewrite Hpaths. unfold bind at 1.
    destruct (0 <? length paths)%nat.
    + cbv zeta. unfold ret at 1. apply IH.
      apply startsWith_append, paths_start. now apply startsWith_append.
    + unfold ret at 1. now apply IH.
Qed.

(** X27. For a well-formed image [exportSVG] returns, for every palette and
    without touching the heap, a text that starts with the opening tag of
    the element [svg] and ends with its closing tag. *)
Theorem exportSVG_document (show : Q -> string) (h : heap) (img : ImageData)
    (arr : list Z) (palette : list Color) (simple : bool) :
  image_in h img arr ->
  exists svg,
    SVGExporter.exportSVG show img palette simple h = Ok (svg, h) /\
    SVGExporter.startsWith svg "<svg" = true /\
    SVGExporter.endsWith svg "</svg>" = true.
Proof.
  intros Himg. unfold SVGExporter.exportSVG. cbv zeta.
  match goal with
  | |- context [foldM ?f ?svg0 palette] =>
      destruct (exportSVG_layers show h img arr simple palette Himg svg0)
        as (svg' & Hrun & Hstart); [reflexivity |]
  end.
  eexists. split; [run Hrun; reflexivity |].
  split; [now apply startsWith_append | apply endsWith_append].
Qed.

Lemma exportSVG_document_witness :
  exists svg,
    SVGExporter.exportSVG show_number ex3_img ex_palette true ex3_heap
    = Ok (svg, ex3_heap) /\
    SVGExporter.startsWith svg "<svg" = true /\
    SVGExporter.endsWith svg "</svg>" = true.
Proof.
  apply (exportSVG_document show_number ex3_heap ex3_img ex3_arr ex_palette true).
  exact ex3_image_in.
Defined.

(** ** Drawings without a path *)

Lemma tracePaths_zero (show : Q -> string) (mask : list (list Z)) (width height : Z)
    (simple : bool) :
  mask_ok width height mask -> 0 <= width -> 0 <= height ->
  (forall row v, row ∈ mask -> v ∈ row -> v = 0) ->
  SVGExporter.tracePaths show mask width height simple = Ok [].
Proof.
  intros Hmask Hw Hh Hzero. unfold SVGExporter.tracePaths.
  destruct (newVisited_ok width height Hw Hh) as (visited0 & -> & Hvis0).
  cbn [try_bind].
  match goal with
  | |- context [try_fold ?f ?b0 ?xs] =>
      destruct (try_fold_ok f
                  (fun _ b => visited_ok width height b.2 /\ b.1 = []) xs)
        with (n := 0%nat) (b := b0) as (b' & -> & Hb' & Hpaths)
  end.
  - intros _ [paths visited] [y x] [Hvis Hnil] Hcell. cbn [fst snd] in Hvis, Hnil.
    apply elem_of_cells in Hcell as [Hx Hy].
    pose proof Hvis as [Hrows Hall].
    destruct (lookup_lt_is_Some_2 visited (Z.to_nat y)) as [vrow Hvrow]; [lia |].
    unfold SVGExporter.entry at 1. rewrite Hvrow. cbn [try_bind].
    destruct (default false (vrow !! Z.to_nat x));
      [eexists; split; [reflexivity | now split] |].
    pose proof Hmask as [Hmrows Hmall].
    destruct (lookup_lt_is_Some_2 mask (Z.to_nat y)) as [mrow Hmrow]; [lia |].
    unfold SVGExporter.entry. rewrite Hmrow. cbn [try_bind].
    destruct (bool_decide (mrow !! Z.to_nat x = Some 1)) eqn:E;
      [| eexists; split; [reflexivity | now split]].
    apply bool_decide_eq_true in E.
    assert (1 = 0); [| lia].
    apply (Hzero mrow 1); apply list_elem_of_lookup; eauto.
  - split; [exact Hvis0 | reflexivity].
  - cbn [try_bind]. now rewrite Hpaths.
Qed.

(** X28. An image without a pixel whose alpha is above 128 exports as the
    empty drawing: for every palette [exportSVG] returns what it returns
    for the empty palette, the element [svg] without any group. *)
Theorem exportSVG_blank (show : Q -> string) (h : heap) (img : ImageData)
    (arr : list Z) (palette : list Color) (simple : bool) :
  image_in h img arr ->
  (forall p c a, pixel arr p = Some (c, a) -> a <= 128) ->
  SVGExporter.exportSVG show img palette simple h
  = SVGExporter.exportSVG show img [] simple h.
Proof.
  intros Himg Hblank. pose proof Himg as (_ & Hw & Hh & _).
  unfold SVGExporter.exportSVG. cbv zeta.
  match goal with
  | |- bind (foldM ?f ?svg0 palette) ?k h = _ =>
      assert (E : forall svg, foldM f svg palette h = Ok (svg, h))
  end.
  { induction palette as [| color palette IH]; intros svg; [reflexivity |].
    cbn [foldM]. unfold bind at 1.
    run (createColorMask_run h img arr color Himg).
    rewrite tracePaths_zero;
      [| apply mask_of_ok | lia | lia |].
    - unfold lift at 1. unfold bind at 1. cbn [length Nat.ltb Nat.leb].
      unfold ret at 1. apply IH.
    - intros row v Hrow Hv.
      apply list_elem_of_fmap in Hrow as (y & -> & _).
      apply list_elem_of_fmap in Hv as (x & -> & _).
      unfold mask_entry. destruct (pixel arr _) as [[c a] |] eqn:Epx; [| reflexivity].
      unfold matches. cbn [fst snd]. specialize (Hblank _ _ _ Epx).
      destruct (Z.gtb_spec a 128); [lia | reflexivity]. }
  unfold bind at 1. rewrite E. reflexivity.
Qed.

Lemma exportSVG_blank_witness :
  SVGExporter.exportSVG show_number ex_img ex_palette true ex_faint_heap
  = SVGExporter.exportSVG show_number ex_img [] true ex_faint_heap.
Proof.
  apply (exportSVG_blank show_number ex_faint_heap ex_img ex_faint_arr ex_palette true).
  - exact ex_faint_image_in.
  - exact ex_faint_alpha.
Defined.

(** X29. For a width or a height of 0 or 1 [tracePaths] returns no path,
    whatever the mask holds: no cell has both a right and a lower
    neighbour. *)
Theorem tracePaths_thin (show : Q -> string) (mask : list (list Z))
    (width height : Z) (simple : bool) :
  0 <= width -> 0 <= height -> width <= 1 \/ height <= 1 ->
  SVGExporter.tracePaths show mask width height simple = Ok [].
Proof.
  intros Hw Hh Hthin. unfold SVGExporter.tracePaths.
  destruct (newVisited_ok width height Hw Hh) as (visited0 & -> & _).
  cbn [try_bind].
  replace (y ← zrange 0 (height - 1) 1; x ← zrange 0 (width - 1) 1; [(y, x)])
    with (@nil (Z * Z)); [reflexivity |].
  destruct Hthin as [H | H].
  - rewrite (zrange_empty 0 (width - 1)) by lia.
    induction (zrange 0 (height - 1) 1) as [| y ys IH]; [reflexivity |].
    rewrite bind_cons. cbn [mbind list_bind app]. exact IH.
  - now rewrite (zrange_empty 0 (height - 1)) by lia.
Qed.

Lemma tracePaths_thin_witness :
  SVGExporter.tracePaths show_number ex_mask 1 4 true = Ok [].
Proof.
  apply (tracePaths_thin show_number ex_mask 1 4 true).
  - lia.
  - lia.
  - left. lia.
Defined.

(** ** The palette stays within the colors of the image *)

Lemma try_fold_inv {A B} (f : B -> A -> res B) (I : B -> Prop) (xs : list A) :
  (forall b x b', I b -> x ∈ xs -> f b x = Ok b' -> I b') ->
  forall b b', I b -> try_fold f b xs = Ok b' -> I b'.
Proof.
  induction xs as [| x xs IH]; intros Hstep b b' Hb Hrun.
  - cbn [try_fold] in Hrun. now injection Hrun as <-.
  - cbn [try_fold] in Hrun. destruct (f b x) as [b1 |] eqn:E; [| discriminate].
    cbn [try_bind] in Hrun.
    apply (IH (fun b x b' Hb Hx => Hstep b x b' Hb (list_elem_of_further _ _ _ Hx))
              b1 b'); [| exact Hrun].
    apply (Hstep b x b1 Hb); [left | exact E].
Qed.

Lemma try_map_inv {A B} (f : A -> res B) (P : B -> Prop) (xs : list A) :
  (forall x y, x ∈ xs -> f x = Ok y -> P y) ->
  forall ys, try_map f xs = Ok ys -> Forall P ys.
Proof.
  induction xs as [| x xs IH]; intros Hf ys Hrun.
  - cbn [try_map] in Hrun. injection Hrun as <-. constructor.
  - cbn [try_map] in Hrun. destruct (f x) as [y |] eqn:E; [| discriminate].
    cbn [try_bind] in Hrun.
    destruct (try_map f xs) as [ys' |] eqn:E'; [| discriminate].
    cbn [try_bind] in Hrun. injection Hrun as <-. constructor.
    + apply (Hf x y); [left | exact E].
    + apply IH; [| reflexivity]. intros z y' Hz. apply Hf. now right.
Qed.

Section Box.

Variables lo hi : Color.

Let boxed (cs : list (option QColor)) : Prop :=
  Forall (fun c : option QColor => forall q, c = Some q -> qin_box lo hi q) cs.

Lemma toQ_box (c : Color) : in_box lo hi c -> qin_box lo hi (toQ c).
Proof.
  intros (Hr & Hg & Hb). unfold qin_box, toQ. cbn [red green blue fst snd].
  rewrite <- !Zle_Qle. auto.
Qed.

Lemma sum_box (cluster : list Color) :
  Forall (in_box lo hi) cluster ->
  forall (acc : QColor) (m : Z),
    (inject_Z (red lo) * inject_Z m <= red acc <= inject_Z (red hi) * inject_Z m)%Q ->
    (inject_Z (green lo) * inject_Z m <= green acc
     <= inject_Z (green hi) * inject_Z m)%Q ->
    (inject_Z (blue lo) * inject_Z m <= blue acc <= inject_Z (blue hi) * inject_Z m)%Q ->
    let sum := foldl (fun acc px =>
                        (red acc + inject_Z (red px),
                         green acc + inject_Z (green px),
                         blue acc + inject_Z (blue px))%Q) acc cluster in
    let n := inject_Z (m + Z.of_nat (length cluster)) in
    (inject_Z (red lo) * n <= red sum <= inject_Z (red hi) * n)%Q /\
    (inject_Z (green lo) * n <= green sum <= inject_Z (green hi) * n)%Q /\
    (inject_Z (blue lo) * n <= blue sum <= inject_Z (blue hi) * n)%Q.
Proof.
  induction 1 as [| px cluster Hpx _ IH]; intros acc m Hr Hg Hb; cbv zeta.
  - cbn [foldl length]. rewrite Z.add_0_r. auto.
  - cbn [foldl length].
    replace (m + Z.of_nat (S (length cluster)))
      with ((m + 1) + Z.of_nat (length cluster)) by lia.
    apply toQ_box in Hpx as (Hpr & Hpg & Hpb).
    unfold toQ in Hpr, Hpg, Hpb. cbn [red green blue fst snd] in *.
    apply IH; cbn [red green blue fst snd];
      rewrite inject_Z_plus; change (inject_Z 1) with 1%Q; split; lra.
Qed.

Lemma calculateMean_box (cluster : list Color) :
  cluster <> [] -> Forall (in_box lo hi) cluster ->
  qin_box lo hi (Posterizer.calculateMean cluster).
Proof.
  intros Hne Hok. unfold Posterizer.calculateMean.
  pose proof (sum_box cluster Hok (0, 0, 0)%Q 0) as H.
  cbv zeta in H. cbn [red green blue fst snd] in H.
  destruct H as (Hr & Hg & Hb); try (change (inject_Z 0) with 0%Q; split; lra).
  rewrite Z.add_0_l in Hr, Hg, Hb.
  set (n := inject_Z (Z.of_nat (length cluster))) in *.
  assert (Hn : (0 < n)%Q).
  { unfold n. change 0%Q with (inject_Z 0). rewrite <- Zlt_Qlt.
    destruct cluster; [congruence | simpl; lia]. }
  cbv zeta. unfold qin_box. cbn [red green blue fst snd].
  repeat split;
    try (apply Qle_shift_div_l; [exact Hn | lra]);
    try (apply Qle_shift_div_r; [exact Hn | lra]).
Qed.

Lemma Math_round_between (q : Q) (a b : Z) :
  (inject_Z a <= q <= inject_Z b)%Q -> a <= Math_round q <= b.
Proof.
  intros [Ha Hb]. unfold Math_round.
  pose proof (Qfloor_le (q + (1 # 2))) as H1.
  pose proof (Qlt_floor (q + (1 # 2))) as H2.
  rewrite inject_Z_plus in H2. change (inject_Z 1) with 1%Q in H2.
  split.
  - assert (a < Qfloor (q + (1 # 2)) + 1); [| lia].
    rewrite Zlt_Qlt, inject_Z_plus. change (inject_Z 1) with 1%Q. lra.
  - assert (Qfloor (q + (1 # 2)) < b + 1); [| lia].
    rewrite Zlt_Qlt, inject_Z_plus. change (inject_Z 1) with 1%Q. lra.
Qed.

Lemma kMeans_round_box (pixels : list Color) (k : Z) (cs newC : list (option QColor))
    (b : bool) :
  Forall (in_box lo hi) pixels -> boxed cs ->
  Posterizer.kMeans_round pixels k cs = Ok (newC, b) -> boxed newC.
Proof.
  intros Hpix Hcs Hrun. unfold Posterizer.kMeans_round in Hrun.
  destruct (Posterizer.emptyClusters k) as [clusters0 |] eqn:E0; [| discriminate].
  cbn [try_bind] in Hrun.
  assert (H0 : Forall (Forall (in_box lo hi)) clusters0).
  { unfold Posterizer.emptyClusters in E0. destruct (k <? 0); [discriminate |].
    injection E0 as <-. apply Forall_replicate. constructor. }
  match type of Hrun with
  | context [try_fold ?f clusters0 pixels] =>
      destruct (try_fold f clusters0 pixels) as [clusters |] eqn:Ecl; [| discriminate];
      pose proof (try_fold_inv f (Forall (Forall (in_box lo hi))) pixels) as Hinv
  end.
  assert (Hclusters : Forall (Forall (in_box lo hi)) clusters).
  { refine (Hinv _ clusters0 clusters H0 Ecl).
    intros cl px cl' Hcl Hpx Hstep. cbn beta in Hstep.
    destruct (Posterizer.findNearestCentroid px cs) as [i |]; [| discriminate].
    cbn [try_bind] in Hstep.
    destruct (cl !! i) as [cluster |] eqn:Ei; [| discriminate].
    injection Hstep as <-. apply Forall_insert; [exact Hcl |].
    apply Forall_app. split.
    - rewrite Forall_lookup in Hcl. eauto.
    - constructor; [| constructor]. rewrite Forall_forall in Hpix. auto. }
  cbn [try_bind] in Hrun.
  destruct (Posterizer.centroidsEqual cs _) as [conv |] eqn:Econv; [| discriminate].
  cbn [try_bind] in Hrun. injection Hrun as <- <-.
  apply Forall_lookup. intros j c Hj q ->.
  rewrite list_lookup_imap in Hj.
  destruct (clusters !! j) as [cluster |] eqn:Ej; [| discriminate].
  cbn in Hj. injection Hj as Hj.
  destruct cluster as [| px cluster].
  - destruct (cs !! j) as [c |] eqn:Ec; [| discriminate].
    cbn in Hj. subst c. unfold boxed in Hcs. rewrite Forall_lookup in Hcs.
    now apply (Hcs j (Some q)).
  - injection Hj as <-. apply calculateMean_box; [discriminate |].
    rewrite Forall_lookup in Hclusters. eauto.
Qed.

Lemma kMeans_loop_box (pixels : list Color) (k : Z) (remaining : nat) :
  Forall (in_box lo hi) pixels ->
  forall cs final, boxed cs ->
    Posterizer.kMeans_loop remaining pixels k cs = Ok final -> boxed final.
Proof.
  intros Hpix. induction remaining as [| remaining IH]; intros cs final Hcs Hrun.
  - cbn [Posterizer.kMeans_loop] in Hrun. now injection Hrun as <-.
  - cbn [Posterizer.kMeans_loop] in Hrun.
    destruct (Posterizer.kMeans_round pixels k cs) as [[newC b] |] eqn:E; [| discriminate].
    cbn [try_bind fst snd] in Hrun.
    pose proof (kMeans_round_box pixels k cs newC b Hpix Hcs E) as HnewC.
    destruct b; [now injection Hrun as <- |]. now apply (IH newC).
Qed.

Lemma kMeans_box (rnd : nat -> float) (pixels palette : list Color) (k : Z) :
  1 <= k <= Z.of_nat (length pixels) ->
  Forall (in_box lo hi) pixels ->
  Posterizer.kMeans rnd pixels k = Ok palette -> Forall (in_box lo hi) palette.
Proof.
  intros Hk Hpix Hrun. unfold Posterizer.kMeans in Hrun.
  destruct (Z.ltb_spec (Z.of_nat (length pixels)) k); [lia |].
  assert (Hne : pixels <> []) by (intros ->; simpl in Hk; lia).
  assert (Hinit : exists cs,
             Posterizer.initializeCentroidsKMeansPlusPlus rnd pixels k = Ok cs /\
             boxed cs).
  { destruct (initialize_outcome rnd pixels k Hne)
      as [Hi | [Hi | (cs & Hi & Hseed & _)]].
    - rewrite Hi in Hrun. discriminate.
    - exists [None]. split; [exact Hi |]. constructor; [discriminate | constructor].
    - exists cs. split; [exact Hi |].
      unfold boxed. eapply Forall_impl; [exact Hseed |].
      intros c (px & Hpx & ->) q [= <-]. apply toQ_box.
      rewrite Forall_forall in Hpix. auto. }
  destruct Hinit as (cs & Einit & Hcs).
  rewrite Einit in Hrun. cbn [try_bind] in Hrun. cbv zeta in Hrun.
  destruct (Posterizer.kMeans_loop 50 pixels k cs) as [final |] eqn:Eloop; [| discriminate].
  cbn [try_bind] in Hrun.
  pose proof (kMeans_loop_box pixels k 50 Hpix cs final Hcs Eloop) as Hfinal.
  apply (try_map_inv Posterizer.roundCentroid (in_box lo hi) final); [| exact Hrun].
  intros c y Hc Hy. destruct c as [q |]; [| discriminate].
  cbn [Posterizer.roundCentroid] in Hy. injection Hy as <-.
  unfold boxed in Hfinal. rewrite Forall_forall in Hfinal.
  destruct (Hfinal _ Hc q eq_refl) as (Hr & Hg & Hb).
  unfold in_box. cbn [red green blue fst snd].
  split; [| split]; now apply Math_round_between.
Qed.

End Box.

(** X30. When at least [k >= 1] pixels are sampled, the call ends in one of
    two ways.  When every draw of the seeding picked a pixel,
    [extractColors] returns [k] colors, each of which lies, channel by
    channel, between the least and the greatest value among the sampled
    pixels; for an image of a single color the palette is that color [k]
    times.  When a draw picked no pixel it throws a [TypeError]. *)
Theorem extractColors_within_range (rnd : nat -> float)
    (this : Posterizer.Posterizer) (h : heap) (img : ImageData) (arr : list Z) (k : Z)
    (lo hi : Color) :
  image_in h img arr ->
  1 <= k <= Z.of_nat (length (sampled arr)) ->
  Forall (in_box lo hi) (sampled arr) ->
  (drawn rnd (sampled arr) k ->
   exists palette,
     Posterizer.extractColors rnd this img k h
     = Ok ((palette, Posterizer.mkPosterizer palette), h) /\
     Z.of_nat (length palette) = k /\
     Forall (in_box lo hi) palette /\
     (lo = hi -> palette = replicate (Z.to_nat k) lo)) /\
  (~ drawn rnd (sampled arr) k ->
   Posterizer.extractColors rnd this img k h = Throw TypeError).
Proof.
  intros Himg Hk Hbox.
  rewrite (extractColors_run rnd this h img arr k Himg).
  pose proof Himg as (_ & _ & _ & _ & Hok).
  destruct (kMeans_outcome rnd (sampled arr) k (sampled_ok arr Hok) Hk) as [Hyes Hno].
  pose proof (fun palette => kMeans_box lo hi rnd (sampled arr) palette k Hk Hbox) as Hin.
  destruct (sampled arr) as [| px pixels] eqn:E; [simpl in Hk; lia |].
  cbn [length Nat.eqb]. split; [| intros Hd; now rewrite (Hno Hd)].
  intros Hd. destruct (Hyes Hd) as (palette & Hrun & Hlen & _).
  pose proof (Hin palette Hrun) as Hpal.
  rewrite Hrun. exists palette.
  split; [reflexivity |]. split; [exact Hlen |]. split; [exact Hpal |].
  intros <-. apply list_eq_same_length with (Z.to_nat k); [now rewrite length_replicate | lia |].
  intros i c c' Hi Hc Hc'. apply lookup_replicate in Hc' as [-> _].
  rewrite Forall_lookup in Hpal. destruct (Hpal i c Hc) as (Hr & Hg & Hb).
  destruct c as [[r g] b], lo as [[r0 g0] b0]. cbn [red green blue fst snd] in *.
  repeat f_equal; lia.
Qed.

Lemma extractColors_within_range_witness :
  exists palette,
    Posterizer.extractColors ex_rnd (Posterizer.mkPosterizer []) ex_img 2 ex_vivid_heap
    = Ok ((palette, Posterizer.mkPosterizer palette), ex_vivid_heap) /\
    Z.of_nat (length palette) = 2 /\
    Forall (in_box (88, 128, 18) (255, 200, 155)) palette /\
    ((88, 128, 18) = (255, 200, 155) -> palette = replicate (Z.to_nat 2) (88, 128, 18)).
Proof.
  apply (extractColors_within_range ex_rnd (Posterizer.mkPosterizer []) ex_vivid_heap
           ex_img ex_vivid_arr 2 (88, 128, 18) (255, 200, 155)).
  - exact ex_vivid_image_in.
  - vm_compute. split; discriminate.
  - assert (E : sampled ex_vivid_arr
                = [(155, 200, 18); (255, 128, 24); (88, 138, 72); (158, 128, 155)])
      by (vm_compute; reflexivity).
    rewrite E.
    repeat (apply List.Forall_cons;
            [unfold in_box, red, green, blue; cbn [fst snd]; lia |]).
    apply List.Forall_nil.
  - eexists. split; [vm_compute; reflexivity |].
    split; [reflexivity |]. repeat constructor; eauto.
Defined.
